(** * Senpai: a memory-pressure driven limit controller (senpai.py)

    A shallow embedding of [senpai.py] and the verification of its
    specification.  Python integers are [Z], Python floats are Rocq's
    primitive binary64 numbers ([PrimFloat.float]), the cgroup directory is
    a store from file names to file contents, and a raised exception is
    the absence of a result.

    What the embedding takes for granted: the files change under the
    program only while it sleeps (a tick reads what the previous sleep
    left, and what the tick itself wrote); opening a file for writing
    succeeds; the texts parsed by [int] and [float] are ASCII, and the
    interpreter's limit on the length of a decimal conversion (a setting,
    4300 digits by default from CPython 3.11 on) is off, for [int] and
    for [str] alike; the text of a log line is not modelled, only the
    values it is built from.

    One part of the program is not in its source: [x ** 2] on a float
    calls the [pow] of the platform's C library, whose last bit differs
    from one library to the next.  It is a parameter of the embedding
    (the class [Py.Libm]); what a theorem needs of it is a hypothesis
    (the class [AccuratePow]: a faithfully rounded result where the square
    is in the normal range). *)

From Stdlib Require Import ZArith List String Ascii Bool Lia Floats Reals Lra.
Import ListNotations.

Local Open Scope string_scope.
Local Open Scope Z_scope.

(** ** Python primitives used by the program *)

Module Py.

(** [str.isspace] on the ASCII range: TAB..CR, FS..US and space. *)
Definition is_space (c : ascii) : bool :=
  let n := nat_of_ascii c in
  ((9 <=? n) && (n <=? 13) || (28 <=? n) && (n <=? 32))%nat.

Definition is_digit (c : ascii) : bool :=
  let n := nat_of_ascii c in ((48 <=? n) && (n <=? 57))%nat.

Definition digit_val (c : ascii) : Z := Z.of_nat (nat_of_ascii c) - 48.

(** The blanks that [int()] and [float()] skip around an ASCII numeral:
    TAB..CR and space (the C library's [isspace]), not FS..US. *)
Definition is_blank (c : ascii) : bool :=
  let n := nat_of_ascii c in
  ((9 <=? n) && (n <=? 13) || (n =? 32))%nat.

(** [s.split()]: the maximal runs of non-blank characters.  [cur] holds the
    token being read, reversed. *)
Fixpoint split_ws_aux (s : string) (cur : list ascii) : list string :=
  let flush tl := match cur with
                  | [] => tl
                  | _ => string_of_list_ascii (rev cur) :: tl
                  end in
  match s with
  | EmptyString => flush []
  | String c s' =>
      if is_space c then flush (split_ws_aux s' [])
      else split_ws_aux s' (c :: cur)
  end.

Definition split_ws (s : string) : list string := split_ws_aux s [].

(** [s.split(sep)] for a one-character separator: empty fields are kept. *)
Fixpoint split_on_aux (sep : ascii) (s : string) (cur : list ascii) : list string :=
  match s with
  | EmptyString => [string_of_list_ascii (rev cur)]
  | String c s' =>
      if Ascii.eqb c sep
      then string_of_list_ascii (rev cur) :: split_on_aux sep s' []
      else split_on_aux sep s' (c :: cur)
  end.

Definition split_on (sep : ascii) (s : string) : list string :=
  split_on_aux sep s [].

(** [f.readlines()]: the lines of a text, each with its terminator. *)
Fixpoint readlines_aux (s : string) (cur : list ascii) : list string :=
  match s with
  | EmptyString => match cur with
                   | [] => []
                   | _ => [string_of_list_ascii (rev cur)]
                   end
  | String c s' =>
      if Ascii.eqb c "010"%char
      then string_of_list_ascii (rev (c :: cur)) :: readlines_aux s' []
      else readlines_aux s' (c :: cur)
  end.

Definition splitlines_keep (s : string) : list string := readlines_aux s [].

(** [l[i]] on a list: [IndexError] is [None]. *)
Definition index {A} (l : list A) (i : nat) : option A := nth_error l i.

Fixpoint drop_space (l : list ascii) : list ascii :=
  match l with
  | c :: l' => if is_blank c then drop_space l' else l
  | [] => []
  end.

(** The numeral inside its leading and trailing blanks. *)
Definition strip (l : list ascii) : list ascii :=
  rev (drop_space (rev (drop_space l))).

(** Decimal digits with single underscores between digits, as [int()] and
    [float()] accept them.  [acc] is the value read so far and [prev] tells
    whether the previous character was a digit. *)
Fixpoint digits_value (l : list ascii) (acc : Z) (prev : bool) : option Z :=
  match l with
  | [] => if prev then Some acc else None
  | c :: l' =>
      if is_digit c then digits_value l' (10 * acc + digit_val c) true
      else if Ascii.eqb c "_"%char
           then (if prev then
                   match l' with
                   | d :: _ => if is_digit d then digits_value l' acc false else None
                   | [] => None
                   end
                 else None)
           else None
  end.

(** [int(s)] for a string: blanks skipped, an optional sign, decimal digits.
    [ValueError] is [None].  (Characters outside ASCII are not digits here.) *)
Definition int_of_str (s : string) : option Z :=
  match strip (list_ascii_of_string s) with
  | "-"%char :: l => option_map Z.opp (digits_value l 0 false)
  | "+"%char :: l => digits_value l 0 false
  | l => digits_value l 0 false
  end.

(** [str(n)] for an integer. *)
Fixpoint digits_of_pos (fuel : nat) (n : Z) (acc : list ascii) : list ascii :=
  match fuel with
  | O => acc
  | S fuel' =>
      let acc' := ascii_of_nat (Z.to_nat (48 + n mod 10)) :: acc in
      if n <? 10 then acc' else digits_of_pos fuel' (n / 10) acc'
  end.

Definition str_of_int (n : Z) : string :=
  let ds := digits_of_pos (S (Z.to_nat (Z.log2 (Z.abs n)))) (Z.abs n) [] in
  string_of_list_ascii (if n <? 0 then "-"%char :: ds else ds).

(** *** Floats

    Python's [float] is the binary64 format; the arithmetic of
    [PrimFloat.float] is the same IEEE 754 arithmetic (round to nearest,
    ties to even).  Conversions from the unbounded integers go through the
    format's specification [SpecFloat], which rounds an arbitrary mantissa
    correctly. *)

Definition SF_of_Z (n : Z) : spec_float := binary_normalize prec emax n 0 false.

Definition SF_is_infinity (x : spec_float) : bool :=
  match x with S754_infinity _ => true | _ => false end.

(** [float(n)] for an integer [n], also the implicit conversion of an
    integer operand of a float operation: correctly rounded, and
    [OverflowError] beyond the range of the format. *)
Definition float_of_int (n : Z) : option float :=
  let x := SF_of_Z n in
  if SF_is_infinity x then None else Some (SF2Prim x).

(** [a / b] on two integers: the correctly rounded quotient, the sign of a
    zero quotient taken from the operands; [ZeroDivisionError] and
    [OverflowError] are [None]. *)
Definition SF_truediv (a b : Z) : spec_float :=
  let s := xorb (a <? 0) (b <? 0) in
  match Z.abs a, Z.abs b with
  | Zpos ma, Zpos mb =>
      SFdiv prec emax (S754_finite s ma 0) (S754_finite false mb 0)
  | _, _ => S754_zero s
  end.

Definition int_truediv (a b : Z) : option float :=
  if b =? 0 then None
  else
    let x := SF_truediv a b in
    if SF_is_infinity x then None else Some (SF2Prim x).

(** [x / y] on two floats: [ZeroDivisionError] when [y] is a zero. *)
Definition float_truediv (x y : float) : option float :=
  if PrimFloat.eqb y 0%float then None else Some (x / y)%float.

(** [x / n] for a float and an integer. *)
Definition float_div_int (x : float) (n : Z) : option float :=
  match float_of_int n with
  | Some y => float_truediv x y
  | None => None
  end.

(** The platform's C library, as far as the program uses it:
    [pow2 v] is what [pow(v, 2.0)] returns for a finite [v > 0] other than
    1, with whether it set [errno] (to [ERANGE]: a positive base gives no
    domain error). *)
Class Libm := { pow2 : float -> float * bool }.

(** [x ** 2], as [float.__pow__] computes it: a NaN, an infinity, a zero
    and [+-1] are answered without the library ([nan], [inf], [0.0] and
    [1.0]); otherwise [pow(abs(x), 2.0)] is called, and [OverflowError] is
    raised for an infinite result and for any nonzero result that comes
    with [errno] set (an underflow to zero is silent). *)
Definition float_square {L : Libm} (x : float) : option float :=
  if PrimFloat.is_nan x then Some x
  else if PrimFloat.is_infinity x then Some infinity
  else if PrimFloat.eqb x 0%float then Some 0%float
  else
    let v := abs x in
    if PrimFloat.eqb v 1%float then Some 1%float
    else
      let '(r, erange) := pow2 v in
      if PrimFloat.is_infinity r then None
      else if erange && negb (PrimFloat.eqb r 0%float) then None
      else Some r.

(** [min(a, b)] and [max(a, b)]: the first argument unless the second
    compares strictly below (above) it. *)
Definition float_min (a b : float) : float := if PrimFloat.ltb b a then b else a.
Definition int_min (a b : Z) : Z := if b <? a then b else a.
Definition int_max (a b : Z) : Z := if a <? b then b else a.

(** [n * f] and [n + f] for an integer [n] and a float [f]. *)
Definition int_mul_float (n : Z) (f : float) : option float :=
  option_map (fun x => (x * f)%float) (float_of_int n).
Definition int_add_float (n : Z) (f : float) : option float :=
  option_map (fun x => (x + f)%float) (float_of_int n).

(** [int(f)] for a float: truncation towards zero; [ValueError] on a NaN
    and [OverflowError] on an infinity. *)
Definition int_of_float (f : float) : option Z :=
  match Prim2SF f with
  | S754_zero _ => Some 0
  | S754_finite s m e => Some (cond_Zopp s (Z.shiftl (Zpos m) e))
  | _ => None
  end.

(** [float(s)] for a string: blanks stripped, an optional sign, then
    [inf], [infinity], [nan] in any case, or a decimal numeral with an
    optional fraction and exponent, correctly rounded. *)
Definition lower (c : ascii) : ascii :=
  let n := nat_of_ascii c in
  if ((65 <=? n) && (n <=? 90))%nat then ascii_of_nat (n + 32) else c.

Fixpoint break_at (p : ascii -> bool) (l : list ascii) : list ascii * option (list ascii) :=
  match l with
  | [] => ([], None)
  | c :: l' =>
      if p c then ([], Some l')
      else let '(a, b) := break_at p l' in (c :: a, b)
  end.

Definition count_digits (l : list ascii) : Z :=
  Z.of_nat (List.length (filter is_digit l)).

Definition signed_digits (l : list ascii) : option Z :=
  match l with
  | "-"%char :: l' => option_map Z.opp (digits_value l' 0 false)
  | "+"%char :: l' => digits_value l' 0 false
  | _ => digits_value l 0 false
  end.

(** The numeral [m * 10^k], correctly rounded. *)
Definition SF_decimal (neg : bool) (m k : Z) : spec_float :=
  let x := if 0 <=? k then SF_of_Z (m * 10 ^ k) else SF_truediv m (10 ^ (- k)) in
  if neg then SFopp x else x.

Definition float_of_str (s : string) : option float :=
  let l := strip (list_ascii_of_string s) in
  let '(neg, body) :=
    match l with
    | "-"%char :: l' => (true, l')
    | "+"%char :: l' => (false, l')
    | _ => (false, l)
    end in
  let word := string_of_list_ascii (map lower body) in
  if String.eqb word "inf" || String.eqb word "infinity"
  then Some (if neg then neg_infinity else infinity)
  else if String.eqb word "nan" then Some nan
  else
    let '(mant, expo) := break_at (fun c => Ascii.eqb (lower c) "e"%char) body in
    let '(ipart, fpart) := break_at (fun c => Ascii.eqb c "."%char) mant in
    let frac := match fpart with Some f => f | None => [] end in
    let iv := match ipart with [] => Some 0 | _ => digits_value ipart 0 false end in
    let fv := match frac with [] => Some 0 | _ => digits_value frac 0 false end in
    let ev := match expo with None => Some 0 | Some e => signed_digits e end in
    match ipart, frac with
    | [], [] => None
    | _, _ =>
        match iv, fv, ev with
        | Some i, Some f, Some e =>
            let n := count_digits frac in
            Some (SF2Prim (SF_decimal neg (i * 10 ^ n + f) (e - n)))
        | _, _, _ => None
        end
    end.

(** [h(x)], the human-readable size of the log line: the number that is
    printed and the index of its suffix among ['', 'k', 'M', 'G', 'T'] (the
    text is not modelled).  The first division converts the integer to a
    float and raises [OverflowError] when it is out of range. *)
Variant number :=
| NInt (n : Z)
| NFloat (f : float).

Fixpoint h_loop (fuel : nat) (x : float) (order : nat) : float * nat :=
  match fuel with
  | O => (x, order)
  | S fuel' =>
      if PrimFloat.ltb 1024 (abs x) && (order <? 4)%nat
      then h_loop fuel' (x / 1024)%float (S order)
      else (x, order)
  end.

Definition h (x : Z) : option (number * nat) :=
  if 1024 <? Z.abs x then
    match float_of_int x with
    | Some f => let '(y, order) := h_loop 3 (f / 1024)%float 1 in Some (NFloat y, order)
    | None => None
    end
  else Some (NInt x, O).

End Py.

(** ** The world of the process: the cgroup files and standard output *)

(** What [log] prints, without the time stamp and before formatting (the
    byte-size formatter [h] and the [%] templates only shape the text). *)
Variant ConfValue :=
| VStr (s : string)
| VInt (n : Z)
| VFloat (f : float).

Variant LogEvent :=
| LogMsg (s : string)
| LogConfItem (key : string) (val : ConfValue)
| LogTick (limit : Py.number * nat) (pressure : float)
          (time_to_probe total delta integral : Z)
| LogAdjust (factor : float).

(** The files are keyed by their path; a file that cannot be opened is
    [None].  The contents are the text as [f.read()] returns it. *)
Definition Files := string -> option string.

Record World := mkWorld {
  files : Files;
  stdout : list LogEvent
}.

(** Computations that read and change the world and may raise. *)
Definition M (A : Type) : Type := World -> option (A * World).

Definition ret {A} (a : A) : M A := fun w => Some (a, w).

Definition bind {A B} (c : M A) (k : A -> M B) : M B :=
  fun w => match c w with
           | Some (a, w') => k a w'
           | None => None
           end.

Definition raise {A} : M A := fun _ => None.

Definition lift {A} (o : option A) : M A :=
  match o with Some a => ret a | None => raise end.

Notation "x <- c ;; k" := (bind c (fun x => k))
  (at level 61, c at next level, right associativity).
Notation "c ;;; k" := (bind c (fun _ => k))
  (at level 61, right associativity).

Definition log (e : LogEvent) : M unit :=
  fun w => Some (tt, mkWorld (files w) (stdout w ++ [e])).

Definition update (fs : Files) (name content : string) : Files :=
  fun n => if String.eqb n name then Some content else fs n.

(** [os.path.join(path, filename)] for a relative [filename]. *)
Fixpoint ends_with_slash (s : string) : bool :=
  match s with
  | EmptyString => false
  | String c EmptyString => Ascii.eqb c "/"%char
  | String _ s' => ends_with_slash s'
  end.

Definition path_join (path filename : string) : string :=
  if String.eqb path "" || ends_with_slash path
  then path ++ filename
  else path ++ "/" ++ filename.

Definition newline : string := String "010"%char EmptyString.

(** ** class Cgroup *)

Module Cgroup.

Record t := mk {
  path : string;
  limit : option Z;
  limit_min : Z;
  limit_max : Z
}.

Definition with_limit (self : t) (l : option Z) : t :=
  mk (path self) l (limit_min self) (limit_max self).

(** *** Cgroupfs IO *)

Definition read (self : t) (filename : string) : M string :=
  fun w => match files w (path_join (path self) filename) with
           | Some s => Some (s, w)
           | None => None
           end.

Definition readlines (self : t) (filename : string) : M (list string) :=
  s <- read self filename ;; ret (Py.splitlines_keep s).

(** The file is replaced by the text written; the open is taken to
    succeed. *)
Definition write (self : t) (filename content : string) : M unit :=
  fun w => Some (tt, mkWorld (update (files w) (path_join (path self) filename) content)
                             (stdout w)).

Definition read_current (self : t) : M Z :=
  s <- read self "memory.current" ;; lift (Py.int_of_str s).

Definition read_limit (self : t) : M Z :=
  x <- read self "memory.high" ;;
  if String.eqb x ("max" ++ newline)
  then ret (Z.shiftl 1 64 - 1)
  else lift (Py.int_of_str x).

(** *** Parsing the memory pressure file:
    [some avg10=0.00 avg60=0.00 avg300=0.00 total=0] *)

Definition field (self : t) (i : nat) : M string :=
  ls <- readlines self "memory.pressure" ;;
  line <- lift (Py.index ls 0) ;;
  item <- lift (Py.index (Py.split_ws line) i) ;;
  lift (Py.index (Py.split_on "="%char item) 1).

Definition pressure (self : t) : M float :=
  s <- field self 1 ;; lift (Py.float_of_str s).

Definition total (self : t) : M Z :=
  s <- field self 4 ;; lift (Py.int_of_str s).

(** *** Pressure adjustments *)

(** The last two statements of [import_limit]:
    [limit = max(self.limit_min, min(self.limit_max, limit))] and
    [limit &= ~4095]. *)
Definition sanitize (self : t) (l : Z) : Z :=
  let l := Py.int_max (limit_min self) (Py.int_min (limit_max self) l) in
  Z.land l (Z.lnot 4095).

(** The candidate is [None] in the constructor's call only; an integer is
    required once the limit read back agrees with the stored one. *)
Definition import_limit (self : t) (candidate : option Z) : M t :=
  r <- read_limit self ;;
  candidate <-
    (match limit self with
     | Some l => if r =? l then ret candidate
                 else (log (LogMsg "Resetting limit to memory.current.") ;;;
                       c <- read_current self ;; ret (Some c))
     | None => log (LogMsg "Resetting limit to memory.current.") ;;;
               c <- read_current self ;; ret (Some c)
     end) ;;
  l <- lift candidate ;;
  ret (with_limit self (Some (sanitize self l))).

Definition set_limit (self : t) (candidate : option Z) : M t :=
  self <- import_limit self candidate ;;
  l <- lift (limit self) ;;
  write self "memory.high" (Py.str_of_int l) ;;;
  ret self.

(** [int(x + x * factor)] for the limit [x] read. *)
Definition scaled (x : Z) (factor : float) : option Z :=
  match Py.int_mul_float x factor with
  | Some xf =>
      match Py.int_add_float x xf with
      | Some y => Py.int_of_float y
      | None => None
      end
  | None => None
  end.

Definition scale_limit (self : t) (factor : float) : M t :=
  x <- read_limit self ;;
  x' <- lift (scaled x factor) ;;
  set_limit self (Some x').

Definition init (path : string) (limit_min limit_max : Z) : M t :=
  let self := mk path None limit_min limit_max in
  pressure self ;;;
  set_limit self None.

End Cgroup.

(** ** The configuration: the namespace [argparse] returns *)

Record Conf := mkConf {
  cgpath : string;
  min_size : Z;
  max_size : Z;
  interval : Z;
  pressure : Z;
  max_probe : float;
  max_backoff : float;
  coeff_probe : Z;
  coeff_backoff : Z
}.

(** The defaults of the command line; the float defaults are the literals
    [0.01] and [1.0]. *)
Definition default_conf (cgpath : string) : Conf :=
  mkConf cgpath (Z.shiftl 100 20) (Z.shiftl 100 30) 6 (10 * 1000)
         0x1.47ae147ae147bp-7%float 1%float 10 20.

Definition conf_items (c : Conf) : list (string * ConfValue) :=
  [ ("cgpath", VStr (cgpath c)); ("min_size", VInt (min_size c));
    ("max_size", VInt (max_size c)); ("interval", VInt (interval c));
    ("pressure", VInt (pressure c)); ("max_probe", VFloat (max_probe c));
    ("max_backoff", VFloat (max_backoff c));
    ("coeff_probe", VInt (coeff_probe c));
    ("coeff_backoff", VInt (coeff_backoff c)) ].

(** ** class Senpai *)

Module Senpai.

Record t := mk {
  conf : Conf;
  cgroup : Cgroup.t;
  last_total : Z;
  integral : Z;
  grace_ticks : Z
}.

Definition with_cgroup (self : t) (cg : Cgroup.t) : t :=
  mk (conf self) cg (last_total self) (integral self) (grace_ticks self).
Definition with_last_total (self : t) (n : Z) : t :=
  mk (conf self) (cgroup self) n (integral self) (grace_ticks self).
Definition with_integral (self : t) (n : Z) : t :=
  mk (conf self) (cgroup self) (last_total self) n (grace_ticks self).
Definition with_grace_ticks (self : t) (n : Z) : t :=
  mk (conf self) (cgroup self) (last_total self) (integral self) n.

Fixpoint log_items (l : list (string * ConfValue)) : M unit :=
  match l with
  | [] => ret tt
  | (k, v) :: l' => log (LogConfItem k v) ;;; log_items l'
  end.

Definition init (c : Conf) : M t :=
  log (LogMsg "Configuration:") ;;;
  log_items (conf_items c) ;;;
  cg <- Cgroup.init (cgpath c) (min_size c) (max_size c) ;;
  total <- Cgroup.total cg ;;
  ret (mk c cg total 0 (interval c)).

Definition adjust (self : t) (factor : float) : M t :=
  log (LogAdjust factor) ;;;
  cg <- Cgroup.scale_limit (cgroup self) factor ;;
  ret (with_integral (with_cgroup self cg) 0).

(** The loosening factor of [tick], for the integral it is computed from:
    [err = integral / pressure], [adj = (err / coeff_backoff) ** 2],
    [adj = min(adj * max_backoff, max_backoff)]. *)
Definition backoff_adj {L : Py.Libm} (c : Conf) (integral : Z) : option float :=
  match Py.int_truediv integral (pressure c) with
  | Some err =>
      match Py.float_div_int err (coeff_backoff c) with
      | Some q =>
          match Py.float_square q with
          | Some adj => Some (Py.float_min (adj * max_backoff c) (max_backoff c))
          | None => None
          end
      | None => None
      end
  | None => None
  end.

(** The tightening factor of [tick] before its sign is flipped:
    [err = pressure / max(integral, 1)], [adj = (err / coeff_probe) ** 2],
    [adj = min(adj * max_probe, max_probe)]. *)
Definition probe_adj {L : Py.Libm} (c : Conf) (integral : Z) : option float :=
  match Py.int_truediv (pressure c) (Py.int_max integral 1) with
  | Some err =>
      match Py.float_div_int err (coeff_probe c) with
      | Some q =>
          match Py.float_square q with
          | Some adj => Some (Py.float_min (adj * max_probe c) (max_probe c))
          | None => None
          end
      | None => None
      end
  | None => None
  end.

(** [h(self.cgroup.read_limit())], the first field of the log line. *)
Definition shown_limit (self : t) : M (Py.number * nat) :=
  lim <- Cgroup.read_limit (cgroup self) ;; lift (Py.h lim).

Definition tick {L : Py.Libm} (self : t) : M t :=
  total <- Cgroup.total (cgroup self) ;;
  let delta := total - last_total self in
  let self := with_last_total self total in
  let self := with_integral self (integral self + delta) in
  lim <- shown_limit self ;;
  p <- Cgroup.pressure (cgroup self) ;;
  log (LogTick lim p (grace_ticks self) total delta (integral self)) ;;;
  if pressure (conf self) <? integral self then
    (* Back off exponentially as we deviate from the target pressure. *)
    adj <- lift (backoff_adj (conf self) (integral self)) ;;
    self <- adjust self adj ;;
    ret (with_grace_ticks self (interval (conf self) - 1))
  else if negb (grace_ticks self =? 0) then
    ret (with_grace_ticks self (grace_ticks self - 1))
  else
    (* Tighten the limit. *)
    adj <- lift (probe_adj (conf self) (integral self)) ;;
    self <- adjust self (- adj)%float ;;
    ret (with_grace_ticks self (interval (conf self) - 1)).

(** [time.sleep(1)]: the process is idle while the kernel and other
    writers change the files. *)
Definition sleep (env : Files -> Files) : M unit :=
  fun w => Some (tt, mkWorld (env (files w)) (stdout w)).

(** [run] loops for ever; its first iterations are determined by what the
    environment does to the files during each sleep. *)
Fixpoint run {L : Py.Libm} (self : t) (envs : list (Files -> Files)) : M t :=
  match envs with
  | [] => ret self
  | env :: envs' => sleep env ;;; self <- tick self ;; run self envs'
  end.

(** The program: parse the arguments, build the controller, run. *)
Definition main {L : Py.Libm} (c : Conf) (envs : list (Files -> Files)) : M t :=
  self <- init c ;; run self envs.

End Senpai.

(** ** Notions used by the specification *)

(** A multiple of the page size: the low 12 bits are zero. *)
Definition page_aligned (n : Z) : Prop := Z.land n 4095 = 0.

(** What a computation printed: the events after those of the world it
    started from. *)
Definition emitted (w w' : World) : list LogEvent :=
  skipn (List.length (stdout w)) (stdout w').

(** The factors passed to [adjust], in order. *)
Fixpoint adjustments (l : list LogEvent) : list float :=
  match l with
  | [] => []
  | LogAdjust f :: l' => f :: adjustments l'
  | _ :: l' => adjustments l'
  end.

(** The integrals the ticks compared with the target, in order. *)
Fixpoint integrals (l : list LogEvent) : list Z :=
  match l with
  | [] => []
  | LogTick _ _ _ _ _ i :: l' => i :: integrals l'
  | _ :: l' => integrals l'
  end.

(** The world after [set_limit] stored and wrote the limit [l]. *)
Definition written (self : Cgroup.t) (l : Z) (w : World) (evs : list LogEvent) : World :=
  mkWorld (update (files w) (path_join (Cgroup.path self) "memory.high") (Py.str_of_int l))
          (stdout w ++ evs).

(** A computation that only reads the files: it leaves the world as it
    found it, and its result does not depend on what was printed. *)
Definition reader {A} (c : M A) : Prop :=
  forall fs o o',
    c (mkWorld fs o') =
    match c (mkWorld fs o) with
    | Some (a, _) => Some (a, mkWorld fs o')
    | None => None
    end.

(** The limit read back differs from the one stored, or none was stored:
    [self.read_limit() != self.limit]. *)
Definition diverged (self : Cgroup.t) (r : Z) : bool :=
  match Cgroup.limit self with
  | Some l => negb (r =? l)
  | None => true
  end.

(** The world after [log] printed the events [evs]. *)
Definition logged (w : World) (evs : list LogEvent) : World :=
  mkWorld (files w) (stdout w ++ evs).

(** The state of a controller built from the configuration [c]: it keeps
    the configuration and the cgroup's bounds, and its stored limit went
    through [sanitize]. *)
Definition controller_of (c : Conf) (s : Senpai.t) : Prop :=
  Senpai.conf s = c /\
  Cgroup.path (Senpai.cgroup s) = cgpath c /\
  Cgroup.limit_min (Senpai.cgroup s) = min_size c /\
  Cgroup.limit_max (Senpai.cgroup s) = max_size c /\
  exists x, Cgroup.limit (Senpai.cgroup s) = Some (Cgroup.sanitize (Senpai.cgroup s) x).

(** A cgroup directory [dir] with the three files the program uses: the
    pressure file reports the stall total [total], [memory.current] holds
    [current] and [memory.high] holds [high], each followed by a newline. *)
Definition cgroup_dir (dir : string) (total current high : string) : Files :=
  update
    (update
       (update (fun _ => None)
          (path_join dir "memory.pressure")
          ("some avg10=0.00 avg60=0.00 avg300=0.00 total=" ++ total ++ newline ++
           "full avg10=0.00 avg60=0.00 avg300=0.00 total=0" ++ newline))
       (path_join dir "memory.current") (current ++ newline))
    (path_join dir "memory.high") (high ++ newline).

(** The environment that leaves the files alone during a sleep. *)
Definition quiet : Files -> Files := fun fs => fs.

(** ** Binary64 rounding *)

Definition bpow (e : Z) : R := powerRZ 2 e.
Arguments bpow e : simpl never.

Definition located (x : R) (m : Z) (l : location) : Prop :=
  match l with
  | loc_Exact => x = IZR m
  | loc_Inexact Lt => (IZR m < x < IZR m + / 2)%R
  | loc_Inexact Eq => x = (IZR m + / 2)%R
  | loc_Inexact Gt => (IZR m + / 2 < x < IZR m + 1)%R
  end.

Definition rounded (x r : R) : Prop :=
  exists g m l,
    (bpow (g - 1) <= x < bpow g)%R /\
    located (x * bpow (- fexp prec emax g)) m l /\
    r = (IZR (round_nearest_even m l) * bpow (fexp prec emax g))%R.

Variant rounds (s : bool) (r : R) : spec_float -> Prop :=
| rounds_zero : r = 0%R -> rounds s r (S754_zero s)
| rounds_finite p e :
    SpecFloat.bounded prec emax p e = true ->
    (IZR (Zpos p) * bpow e)%R = r ->
    rounds s r (S754_finite s p e)
| rounds_infinity : (bpow 1024 <= r)%R -> rounds s r (S754_infinity s).

(** The magnitude, finiteness and sign of a float of the specification. *)
Definition SFmag (y : spec_float) : R :=
  match y with
  | S754_finite _ m e => (IZR (Zpos m) * bpow e)%R
  | _ => 0%R
  end.

Definition SFfin (y : spec_float) : bool :=
  match y with
  | S754_finite _ _ _ | S754_zero _ => true
  | _ => false
  end.

Definition SFsign (y : spec_float) : bool :=
  match y with
  | S754_zero s | S754_finite s _ _ | S754_infinity s => s
  | S754_nan => false
  end.

(** [RND x r]: [r] is the rounding of the non-negative number [x]. *)
Definition RND (x r : R) : Prop :=
  (x = 0 /\ r = 0)%R \/ (0 < x)%R /\ rounded x r.

(** Zero, a positive finite float or plus infinity. *)
Definition SFnonneg (y : spec_float) : bool :=
  match y with
  | S754_finite true _ _ | S754_infinity true | S754_nan => false
  | _ => true
  end.

(** The same notions on the floats of the program. *)
Definition Fmag (f : float) : R := SFmag (Prim2SF f).
Definition Ffin (f : float) : bool := SFfin (Prim2SF f).
Definition Fsign (f : float) : bool := SFsign (Prim2SF f).
Definition Fnonneg (f : float) : bool := SFnonneg (Prim2SF f).

(** [f] is the finite float of sign [s] whose magnitude is the rounding
    of the non-negative number [x]. *)
Definition frounds (s : bool) (x : R) (f : float) : Prop :=
  Ffin f = true /\ Fsign f = s /\ RND x (Fmag f).

(** The magnitude of a finite float: a number that is its own rounding
    and lies below the overflow threshold. *)
Definition is_float (f : R) : Prop := RND f f /\ (f < bpow 1024)%R.

(** [r] is a faithful rounding of [v]: no float lies strictly between
    them, and a [v] that is a float is left as it is. *)
Definition faithful (v r : R) : Prop :=
  forall f, is_float f -> ((f <= v)%R -> (f <= r)%R) /\ ((v <= f)%R -> (r <= f)%R).

(** What the theorems ask of the platform's [pow(v, 2.0)], for a finite
    [v > 0]: the result is never a NaN and never negative; and where the
    square is at least [2^-1022] (no underflow), it is either a finite
    float, faithfully rounded and without [errno], or plus infinity for
    a square above every finite float.  Nothing is asked where the
    square underflows. *)
Class AccuratePow (L : Py.Libm) : Prop := {
  pow2_sign : forall v,
    Ffin v = true -> Fsign v = false -> (0 < Fmag v)%R ->
    Fsign (fst (Py.pow2 v)) = false /\ PrimFloat.is_nan (fst (Py.pow2 v)) = false;
  pow2_faithful : forall v,
    Ffin v = true -> Fsign v = false -> (bpow (-1022) <= Fmag v * Fmag v)%R ->
    Ffin (fst (Py.pow2 v)) = true /\ snd (Py.pow2 v) = false /\
    faithful (Fmag v * Fmag v) (Fmag (fst (Py.pow2 v))) \/
    Prim2SF (fst (Py.pow2 v)) = S754_infinity false /\
    (forall f, is_float f -> (f < Fmag v * Fmag v)%R)
}.

(** A library whose [pow(v, 2.0)] is the correctly rounded square and
    never sets [errno]: the one the closed examples are evaluated on. *)
#[export] Instance exact_libm : Py.Libm :=
  {| Py.pow2 v := ((v * v)%float, false) |}.

(** A library that is as accurate, but rounds one square of the
    subnormal range, that of [3 * 2^-540], up instead of down: it shows
    what accuracy does not settle. *)
Definition uneven_libm : Py.Libm :=
  {| Py.pow2 v := if (v =? 0x3p-540)%float then (0x1p-1074%float, false)
                  else ((v * v)%float, false) |}.

(** The computation shared by the two factors of [tick]:
    [err = num / den], [adj = (err / coeff) ** 2],
    [adj = min(adj * step, step)]. *)
Definition adjustment {L : Py.Libm} (num den coeff : Z) (step : float) : option float :=
  match Py.int_truediv num den with
  | Some err =>
      match Py.float_div_int err coeff with
      | Some q =>
          match Py.float_square q with
          | Some adj => Some (Py.float_min (adj * step) step)
          | None => None
          end
      | None => None
      end
  | None => None
  end.

(** A step of the configuration that is a finite, non-negative float. *)
Definition step_ok (step : float) : Prop :=
  PrimFloat.is_finite step = true /\ (0 <=? step)%float = true.

(** The value of a list of decimal digits, read after the value [a]. *)
Definition digits_fold (ds : list ascii) (a : Z) : Z :=
  fold_left (fun a c => 10 * a + Py.digit_val c) ds a.

(** [c] gives in [w2] the result it gives in [w1]. *)
Definition agree {A} (c : M A) (w1 w2 : World) : Prop :=
  c w2 = match c w1 with Some (a, _) => Some (a, w2) | None => None end.

(** What one tick does, by the branch it takes. *)
Variant tick_outcome {L : Py.Libm} (s : Senpai.t) (i : Z) (s' : Senpai.t) :
  list LogEvent -> Prop :=
| Loosened adj evs :
    pressure (Senpai.conf s) < i ->
    Senpai.backoff_adj (Senpai.conf s) i = Some adj ->
    adjustments evs = [] -> integrals evs = [] ->
    Senpai.integral s' = 0 ->
    Senpai.grace_ticks s' = interval (Senpai.conf s) - 1 ->
    tick_outcome s i s' (LogAdjust adj :: evs)
| Held :
    i <= pressure (Senpai.conf s) ->
    Senpai.grace_ticks s <> 0 ->
    Senpai.integral s' = i ->
    Senpai.grace_ticks s' = Senpai.grace_ticks s - 1 ->
    Senpai.cgroup s' = Senpai.cgroup s ->
    tick_outcome s i s' []
| Tightened adj evs :
    i <= pressure (Senpai.conf s) ->
    Senpai.grace_ticks s = 0 ->
    Senpai.probe_adj (Senpai.conf s) i = Some adj ->
    adjustments evs = [] -> integrals evs = [] ->
    Senpai.integral s' = 0 ->
    Senpai.grace_ticks s' = interval (Senpai.conf s) - 1 ->
    tick_outcome s i s' (LogAdjust (- adj)%float :: evs).

(** ** Notions for the rest of the program *)

(** The handle as [Cgroup.__init__] has it before its first [set_limit]:
    no limit stored yet. *)
Definition cgroup0 (c : Conf) : Cgroup.t :=
  Cgroup.mk (cgpath c) None (min_size c) (max_size c).

(** The integrals of a log that exceed the target of [c]: the ticks that
    had to loosen. *)
Definition triggers (c : Conf) (l : list Z) : list Z :=
  filter (fun i => pressure c <? i) l.

(** The index in ['', 'k', 'M', 'G', 'T'] for a size of magnitude [n]. *)
Definition suffix_index (n : Z) : nat :=
  if n <=? 2 ^ 10 then 0
  else if n <=? 2 ^ 20 then 1
  else if n <=? 2 ^ 30 then 2
  else if n <=? 2 ^ 40 then 3
  else 4.

(** [x /= 1024.0], [k] times. *)
Fixpoint div1024 (k : nat) (f : float) : float :=
  match k with
  | O => f
  | S k' => div1024 k' (f / 1024)%float
  end.

(** The value of a finite float, with its sign. *)
Definition SFval (y : spec_float) : R :=
  if SFsign y then (- SFmag y)%R else SFmag y.

Definition Fval (f : float) : R :=
  if Fsign f then (- Fmag f)%R else Fmag f.

(** Every character of [s] satisfies [p]. *)
Fixpoint all_chars (p : ascii -> bool) (s : string) : bool :=
  match s with
  | EmptyString => true
  | String c s' => p c && all_chars p s'
  end.

(** A field of the pressure line: no blank and no [=] in it. *)
Definition psi_token (s : string) : bool :=
  all_chars (fun c => negb (Py.is_space c) && negb (Ascii.eqb c "="%char)) s.

(** The line [some avg10=a avg60=b avg300=c total=t], without its end. *)
Definition psi_line (a b c t : string) : string :=
  "some avg10=" ++ a ++ " avg60=" ++ b ++ " avg300=" ++ c ++ " total=" ++ t.

(** A controller at the start of a grace window, in a cgroup whose stall
    total is the one it last read. *)
Definition settled (c : Conf) (s : Senpai.t) (w : World) : Prop :=
  Senpai.conf s = c /\
  Senpai.integral s = 0 /\
  Senpai.grace_ticks s = interval c - 1 /\
  Cgroup.total (Senpai.cgroup s) w = Some (Senpai.last_total s, w).

(** * Verification *)

(** ** Binary64 arithmetic: the rounding the operations perform *)

Section Bpow.
Local Open Scope R_scope.

Lemma bpow_pos e : 0 < bpow e.
Proof. apply powerRZ_lt. lra. Qed.

Lemma bpow_add a b : bpow (a + b) = bpow a * bpow b.
Proof. apply powerRZ_add. lra. Qed.

Lemma bpow_0 : bpow 0 = 1.
Proof. reflexivity. Qed.

Lemma bpow_1 : bpow 1 = 2.
Proof. unfold bpow, powerRZ. rewrite Pos2Nat.inj_1. simpl. lra. Qed.

Lemma bpow_opp_r e : bpow e * bpow (- e) = 1.
Proof. rewrite <- bpow_add. now replace (e + - e)%Z with 0%Z by lia. Qed.

Lemma bpow_opp_l e : bpow (- e) * bpow e = 1.
Proof. rewrite Rmult_comm. apply bpow_opp_r. Qed.

Lemma bpow_IZR e : (0 <= e)%Z -> bpow e = IZR (2 ^ e).
Proof.
  intros He. unfold bpow. rewrite <- (Z2Nat.id e He).
  rewrite <- pow_powerRZ. now rewrite pow_IZR.
Qed.

Lemma bpow_succ e : bpow (e + 1) = 2 * bpow e.
Proof. rewrite bpow_add, bpow_1. lra. Qed.

Lemma bpow_le a b : (a <= b)%Z -> bpow a <= bpow b.
Proof.
  intros H. replace b with (a + (b - a))%Z by lia.
  rewrite bpow_add, (bpow_IZR (b - a)) by lia.
  assert (1 <= IZR (2 ^ (b - a))).
  { apply IZR_le. pose proof (Z.pow_pos_nonneg 2 (b - a)). lia. }
  pose proof (bpow_pos a). nra.
Qed.

Lemma bpow_lt a b : (a < b)%Z -> bpow a < bpow b.
Proof.
  intros H. replace b with (a + (b - a))%Z by lia.
  rewrite bpow_add, (bpow_IZR (b - a)) by lia.
  assert (2 <= IZR (2 ^ (b - a))).
  { apply IZR_le. replace (b - a)%Z with (1 + (b - a - 1))%Z by lia.
    rewrite Z.pow_add_r by lia. pose proof (Z.pow_pos_nonneg 2 (b - a - 1)). lia. }
  pose proof (bpow_pos a). nra.
Qed.

Lemma bpow_lt_inv a b : bpow a < bpow b -> (a < b)%Z.
Proof.
  intros H. destruct (Z_lt_le_dec a b) as [|Hle]; [assumption|].
  apply bpow_le in Hle. lra.
Qed.

Lemma bpow_le_inv a b : bpow a <= bpow b -> (a <= b)%Z.
Proof.
  intros H. destruct (Z_lt_le_dec b a) as [Hlt|]; [|assumption].
  apply bpow_lt in Hlt. lra.
Qed.

End Bpow.

Section Located.
Local Open Scope R_scope.

Lemma located_bounds x m l : located x m l -> IZR m <= x < IZR m + 1.
Proof. destruct l as [|[]]; cbn; lra. Qed.

Lemma located_fun x m1 l1 m2 l2 :
  located x m1 l1 -> located x m2 l2 -> m1 = m2 /\ l1 = l2.
Proof.
  intros H1 H2.
  assert (m1 = m2).
  { apply located_bounds in H1, H2.
    assert (IZR m1 < IZR (m2 + 1)) by (rewrite plus_IZR; lra).
    assert (IZR m2 < IZR (m1 + 1)) by (rewrite plus_IZR; lra).
    apply lt_IZR in H, H0. lia. }
  subst m2. split; [reflexivity|].
  destruct l1 as [|[]], l2 as [|[]]; cbn in *; try reflexivity; lra.
Qed.

Lemma rne_bounds m l :
  (m <= round_nearest_even m l <= m + 1)%Z.
Proof.
  destruct l as [|[]]; cbn; try lia. destruct (Z.even m); lia.
Qed.

Lemma rne_exact m : round_nearest_even m loc_Exact = m.
Proof. reflexivity. Qed.

(** Rounding to nearest is monotone. *)
Lemma rne_monotone x1 m1 l1 x2 m2 l2 :
  located x1 m1 l1 -> located x2 m2 l2 -> x1 <= x2 ->
  (round_nearest_even m1 l1 <= round_nearest_even m2 l2)%Z.
Proof.
  intros H1 H2 Hx.
  pose proof (rne_bounds m1 l1). pose proof (rne_bounds m2 l2).
  destruct (Z.compare_spec m1 m2) as [He|Hlt|Hgt].
  - subst m2.
    destruct l1 as [|[]], l2 as [|[]]; cbn in *; try lia; try lra;
      destruct (Z.even m1); lia.
  - lia.
  - apply located_bounds in H1, H2.
    assert (IZR (m2 + 1) <= IZR m1) by (apply IZR_le; lia).
    rewrite plus_IZR in *. lra.
Qed.

Lemma rne_le_int x m l k :
  located x m l -> x <= IZR k -> (round_nearest_even m l <= k)%Z.
Proof.
  intros H Hx. change k with (round_nearest_even k loc_Exact).
  eapply rne_monotone; eauto. reflexivity.
Qed.

Lemma rne_ge_int x m l k :
  located x m l -> IZR k <= x -> (k <= round_nearest_even m l)%Z.
Proof.
  intros H Hx. change k with (round_nearest_even k loc_Exact) at 1.
  eapply rne_monotone; eauto. reflexivity.
Qed.

Lemma located_nonneg x m l : 0 <= x -> located x m l -> (0 <= m)%Z.
Proof.
  intros Hx H. apply located_bounds in H.
  assert (IZR (-1) < IZR m) by (cbn; lra). apply lt_IZR in H0. lia.
Qed.

(** One step of the shift register halves the number. *)
Lemma shr_1_located x mrs :
  (0 <= shr_m mrs)%Z ->
  located x (shr_m mrs) (loc_of_shr_record mrs) ->
  located (x * / 2) (shr_m (shr_1 mrs)) (loc_of_shr_record (shr_1 mrs)) /\
  (0 <= shr_m (shr_1 mrs))%Z.
Proof.
  destruct mrs as [m r s]. cbn [shr_m]. intros Hm H.
  destruct m as [|p|p]; [| |lia].
  - destruct r, s; cbn in *; split; try lia; lra.
  - destruct p as [p|p|].
    + assert (E : IZR (Zpos p~1) = 2 * IZR (Zpos p) + 1).
      { change (Zpos p~1) with (2 * Zpos p + 1)%Z. now rewrite plus_IZR, mult_IZR. }
      destruct r, s; cbn [shr_1 shr_m loc_of_shr_record orb located] in *;
        rewrite E in H; split; try lia; lra.
    + assert (E : IZR (Zpos p~0) = 2 * IZR (Zpos p)).
      { change (Zpos p~0) with (2 * Zpos p)%Z. now rewrite mult_IZR. }
      destruct r, s; cbn [shr_1 shr_m loc_of_shr_record orb located] in *;
        rewrite E in H; split; try lia; lra.
    + destruct r, s; cbn in *; split; try lia; lra.
Qed.

Lemma iter_shr_located n : forall x mrs,
  (0 <= shr_m mrs)%Z ->
  located x (shr_m mrs) (loc_of_shr_record mrs) ->
  located (x * bpow (- Zpos n)) (shr_m (SpecFloat.iter_pos shr_1 n mrs))
          (loc_of_shr_record (SpecFloat.iter_pos shr_1 n mrs)) /\
  (0 <= shr_m (SpecFloat.iter_pos shr_1 n mrs))%Z.
Proof.
  assert (Hhalf : bpow (-1) = / 2).
  { unfold bpow, powerRZ. rewrite Pos2Nat.inj_1. simpl. now rewrite Rmult_1_r. }
  induction n as [n IH|n IH|]; intros x mrs Hm H; cbn [SpecFloat.iter_pos].
  - destruct (shr_1_located x mrs Hm H) as [H1 Hm1].
    destruct (IH _ _ Hm1 H1) as [H2 Hm2].
    destruct (IH _ _ Hm2 H2) as [H3 Hm3].
    split; [|assumption].
    replace (x * bpow (- Zpos n~1)) with (x * / 2 * bpow (- Zpos n) * bpow (- Zpos n));
      [assumption|].
    replace (- Zpos n~1)%Z with (-1 + (- Zpos n + - Zpos n))%Z by lia.
    rewrite !bpow_add, Hhalf. ring.
  - destruct (IH _ _ Hm H) as [H2 Hm2].
    destruct (IH _ _ Hm2 H2) as [H3 Hm3].
    split; [|assumption].
    replace (x * bpow (- Zpos n~0)) with (x * bpow (- Zpos n) * bpow (- Zpos n));
      [assumption|].
    replace (- Zpos n~0)%Z with (- Zpos n + - Zpos n)%Z by lia.
    rewrite !bpow_add. ring.
  - cbn [Z.opp]. rewrite Hhalf. now apply shr_1_located.
Qed.

Lemma loc_of_shr_record_of_loc m l :
  loc_of_shr_record (shr_record_of_loc m l) = l /\ shr_m (shr_record_of_loc m l) = m.
Proof. destruct l as [|[]]; now cbn. Qed.

(** Shifting to the exponent [e + n] keeps the number located. *)
Lemma shr_located x m l e n :
  (0 <= m)%Z -> located (x * bpow (- e)) m l ->
  let '(mrs, e') := shr (shr_record_of_loc m l) e n in
  e' = Z.max e (e + n) /\
  (0 <= shr_m mrs)%Z /\
  located (x * bpow (- e')) (shr_m mrs) (loc_of_shr_record mrs).
Proof.
  intros Hm H. destruct (loc_of_shr_record_of_loc m l) as [El Em].
  destruct n as [|n|n]; cbn [shr].
  - rewrite El, Em. repeat split; auto; lia.
  - assert (H' : located (x * bpow (- e)) (shr_m (shr_record_of_loc m l))
                   (loc_of_shr_record (shr_record_of_loc m l)))
      by now rewrite El, Em.
    rewrite <- Em in Hm.
    destruct (iter_shr_located n _ _ Hm H') as [H1 Hm1].
    repeat split; auto; [lia|].
    replace (- (e + Zpos n))%Z with (- e + - Zpos n)%Z by lia.
    now rewrite bpow_add, <- Rmult_assoc.
  - rewrite El, Em. repeat split; auto; lia.
Qed.

End Located.

Section Round.
Local Open Scope R_scope.

Lemma fexp_eq g : fexp prec emax g = Z.max (g - 53) (-1074).
Proof. reflexivity. Qed.

Lemma digits2_pos_bounds p :
  (2 ^ (Zpos (digits2_pos p) - 1) <= Zpos p < 2 ^ Zpos (digits2_pos p))%Z.
Proof.
  induction p as [p IH|p IH|]; cbn [digits2_pos]; [| |cbn; lia];
    rewrite Pos2Z.inj_succ;
    replace (Z.succ (Zpos (digits2_pos p)) - 1)%Z with (Z.succ (Zpos (digits2_pos p) - 1))%Z by lia;
    rewrite !Z.pow_succ_r by lia; lia.
Qed.

Lemma mag_unique x g1 g2 :
  bpow (g1 - 1) <= x < bpow g1 -> bpow (g2 - 1) <= x < bpow g2 -> g1 = g2.
Proof.
  intros H1 H2.
  assert (bpow (g1 - 1) < bpow g2) by lra.
  assert (bpow (g2 - 1) < bpow g1) by lra.
  apply bpow_lt_inv in H, H0. lia.
Qed.

Lemma scaled_bounds x g e :
  bpow (g - 1) <= x < bpow g ->
  bpow (g - 1 - e) <= x * bpow (- e) < bpow (g - e).
Proof.
  intros H. pose proof (bpow_pos (- e)).
  replace (g - 1 - e)%Z with (g - 1 + - e)%Z by lia.
  replace (g - e)%Z with (g + - e)%Z by lia.
  rewrite !bpow_add. split.
  - apply Rmult_le_compat_r; lra.
  - apply Rmult_lt_compat_r; lra.
Qed.

(** The mantissa located at [e] has the digits of the number's magnitude. *)
Lemma located_digits x g e p l :
  bpow (g - 1) <= x < bpow g ->
  located (x * bpow (- e)) (Zpos p) l ->
  (Zpos (digits2_pos p) + e = g)%Z.
Proof.
  intros Hg H. apply located_bounds in H.
  pose proof (digits2_pos_bounds p) as [Hlo Hhi].
  set (d := Zpos (digits2_pos p)) in *.
  assert (Hd : (1 <= d)%Z) by (unfold d; lia).
  apply (mag_unique x); [|assumption].
  assert (Hx : x = x * bpow (- e) * bpow e).
  { rewrite Rmult_assoc, bpow_opp_l. ring. }
  pose proof (bpow_pos e).
  replace (d + e - 1)%Z with (d - 1 + e)%Z by lia.
  rewrite !bpow_add, (bpow_IZR d), (bpow_IZR (d - 1)) by lia.
  apply IZR_le in Hlo.
  assert (Hhi' : IZR (Zpos p) + 1 <= IZR (2 ^ d)).
  { rewrite <- plus_IZR. apply IZR_le. lia. }
  split.
  - rewrite Hx. apply Rmult_le_compat_r; lra.
  - rewrite Hx at 1. apply Rmult_lt_compat_r; lra.
Qed.

Lemma shr_fexp_located x g m e l :
  bpow (g - 1) <= x < bpow g ->
  located (x * bpow (- e)) m l ->
  (e <= fexp prec emax g)%Z ->
  let '(mrs, e') := shr_fexp prec emax m e l in
  e' = fexp prec emax g /\
  (0 <= shr_m mrs)%Z /\
  located (x * bpow (- e')) (shr_m mrs) (loc_of_shr_record mrs).
Proof.
  intros Hg H He.
  assert (Hx : 0 < x) by (pose proof (bpow_pos (g - 1)); lra).
  assert (Hm : (0 <= m)%Z).
  { eapply located_nonneg; [|exact H]. pose proof (bpow_pos (- e)). nra. }
  unfold shr_fexp.
  assert (Hf : fexp prec emax (Zdigits2 m + e) = fexp prec emax g).
  { destruct m as [|p|p]; [| |lia].
    - cbn [Zdigits2]. apply located_bounds in H. cbn in H.
      assert (x < bpow e).
      { replace x with (x * bpow (- e) * bpow e)
          by (rewrite Rmult_assoc, bpow_opp_l; ring).
        pose proof (bpow_pos e). nra. }
      assert (bpow (g - 1) < bpow e) by lra.
      apply bpow_lt_inv in H1. rewrite !fexp_eq in *. lia.
    - cbn [Zdigits2]. now rewrite (located_digits x g e p l). }
  rewrite Hf.
  pose proof (shr_located x m l e (fexp prec emax g - e) Hm H) as Hs.
  destruct (shr _ _ _) as [mrs e'].
  destruct Hs as (-> & Hm' & Hl). split; [lia|]. split; assumption.
Qed.

Lemma bounded_eq p e :
  SpecFloat.bounded prec emax p e = true <->
  (Z.max (Zpos (digits2_pos p) + e - 53) (-1074) = e /\ e <= 971)%Z.
Proof.
  unfold SpecFloat.bounded, canonical_mantissa. rewrite fexp_eq.
  rewrite andb_true_iff, Z.eqb_eq, Z.leb_le. reflexivity.
Qed.

(** The rounding of the format, on a positive number given by a
    truncation that is fine enough. *)
Lemma binary_round_aux_spec s x g m e l :
  bpow (g - 1) <= x < bpow g ->
  located (x * bpow (- e)) m l ->
  (e <= fexp prec emax g)%Z ->
  exists r, rounded x r /\ rounds s r (binary_round_aux prec emax s m e l).
Proof.
  intros Hg H He.
  pose proof (shr_fexp_located x g m e l Hg H He) as H1.
  unfold binary_round_aux.
  destruct (shr_fexp prec emax m e l) as [mrs E].
  destruct H1 as (-> & Hm1 & Hl1).
  set (E := fexp prec emax g) in *.
  set (M := round_nearest_even (shr_m mrs) (loc_of_shr_record mrs)).
  exists (IZR M * bpow E). split.
  { exists g, (shr_m mrs), (loc_of_shr_record mrs). repeat split; try apply Hg; auto. }
  pose proof (scaled_bounds x g E Hg) as Hsc.
  assert (HE : (E = Z.max (g - 53) (-1074))%Z) by apply fexp_eq.
  assert (HM0 : (0 <= M)%Z) by (pose proof (rne_bounds (shr_m mrs) (loc_of_shr_record mrs)); lia).
  assert (HM53 : (M <= 2 ^ 53)%Z).
  { apply (rne_le_int _ _ _ _ Hl1).
    assert (bpow (g - E) <= bpow 53) by (apply bpow_le; lia).
    rewrite (bpow_IZR 53) in H0 by lia. lra. }
  assert (HM52 : (-1074 < E -> 2 ^ 52 <= M)%Z).
  { intros HEm. apply (rne_ge_int _ _ _ _ Hl1).
    assert (bpow 52 <= bpow (g - 1 - E)) by (apply bpow_le; lia).
    rewrite (bpow_IZR 52) in H0 by lia. lra. }
  unfold shr_fexp.
  destruct M as [|p|p] eqn:EM; [| |lia].
  - (* the result is a zero *)
    cbn [Zdigits2 shr_record_of_loc]. rewrite fexp_eq.
    assert (Hn : (Z.max (0 + E - 53) (-1074) - E <= 0)%Z) by lia.
    destruct (Z.max (0 + E - 53) (-1074) - E)%Z as [|n|n] eqn:En; [| lia |];
      cbn [shr shr_m]; apply rounds_zero; lra.
  - pose proof (digits2_pos_bounds p) as [Hlo Hhi].
    destruct (Z.eq_dec (Zpos p) (2 ^ 53)) as [Hcarry|Hnc].
    + (* the rounding carried into a new digit *)
      inversion Hcarry as [Hp]. subst p.
      cbn [Zdigits2 shr_record_of_loc]. rewrite fexp_eq.
      change (Zpos (digits2_pos 9007199254740992)) with 54%Z.
      replace (Z.max (54 + E - 53) (-1074) - E)%Z with 1%Z by lia.
      cbn [shr SpecFloat.iter_pos shr_1 shr_m orb].
      change (emax - prec)%Z with 971%Z.
      destruct (Z.leb_spec (E + 1) 971).
      * apply rounds_finite.
        -- apply bounded_eq. cbn [digits2_pos]. change (Zpos (Pos.succ _)) with 53%Z. lia.
        -- rewrite bpow_succ. change 9007199254740992%Z with (2 * 4503599627370496)%Z.
           rewrite mult_IZR. ring.
      * apply rounds_infinity.
        assert (bpow 971 <= bpow E) by (apply bpow_le; lia).
        replace 1024%Z with (53 + 971)%Z by lia.
        rewrite bpow_add, (bpow_IZR 53) by lia.
        change (2 ^ 53)%Z with 9007199254740992%Z.
        pose proof (bpow_pos 971).
        assert (0 < IZR 9007199254740992) by (apply IZR_lt; lia). nra.
    + assert (Hd : (Zpos (digits2_pos p) <= 53)%Z).
      { assert (2 ^ (Zpos (digits2_pos p) - 1) < 2 ^ 53)%Z by lia.
        apply Z.pow_lt_mono_r_iff in H0; lia. }
      cbn [Zdigits2 shr_record_of_loc]. rewrite fexp_eq.
      assert (Hn : (Z.max (Zpos (digits2_pos p) + E - 53) (-1074) - E <= 0)%Z) by lia.
      destruct (Z.max (Zpos (digits2_pos p) + E - 53) (-1074) - E)%Z as [|n|n] eqn:En;
        [| lia |]; cbn [shr shr_m]; change (emax - prec)%Z with 971%Z.
      all: assert (Hcanon : (Z.max (Zpos (digits2_pos p) + E - 53) (-1074) = E)%Z)
          by (destruct (Z.eq_dec E (-1074)) as [|Hne]; [lia|];
              assert (2 ^ 52 <= Zpos p)%Z by (apply HM52; lia);
              assert (2 ^ 52 < 2 ^ Zpos (digits2_pos p))%Z by lia;
              apply Z.pow_lt_mono_r_iff in H1; lia).
      all: destruct (Z.leb_spec E 971);
        [ apply rounds_finite; [apply bounded_eq; lia | reflexivity]
        | apply rounds_infinity;
          assert (2 ^ 52 <= Zpos p)%Z by (apply HM52; lia);
          assert (bpow 972 <= bpow E) by (apply bpow_le; lia);
          replace 1024%Z with (52 + 972)%Z by lia;
          rewrite bpow_add, (bpow_IZR 52) by lia;
          apply IZR_le in H1; pose proof (bpow_pos 972);
          assert (0 < IZR (2 ^ 52)) by (apply IZR_lt; lia); nra ].
Qed.

End Round.

Section Rounded.
Local Open Scope R_scope.

Lemma rounded_monotone x1 r1 x2 r2 :
  rounded x1 r1 -> rounded x2 r2 -> x1 <= x2 -> r1 <= r2.
Proof.
  intros (g1 & m1 & l1 & Hg1 & H1 & ->) (g2 & m2 & l2 & Hg2 & H2 & ->) Hx.
  assert (Hg : (g1 <= g2)%Z).
  { assert (bpow (g1 - 1) < bpow g2) by lra. apply bpow_lt_inv in H. lia. }
  rewrite !fexp_eq in *.
  set (E1 := Z.max (g1 - 53) (-1074)) in *.
  set (E2 := Z.max (g2 - 53) (-1074)) in *.
  pose proof (bpow_pos E1). pose proof (bpow_pos E2).
  destruct (Z.eq_dec E1 E2) as [He|Hne].
  - rewrite <- He in *.
    apply Rmult_le_compat_r; [lra|]. apply IZR_le.
    eapply rne_monotone; eauto.
    pose proof (bpow_pos (- E1)). apply Rmult_le_compat_r; lra.
  - assert (HE : (E1 < E2)%Z) by lia.
    pose proof (scaled_bounds x1 g1 E1 Hg1) as Hs1.
    pose proof (scaled_bounds x2 g2 E2 Hg2) as Hs2.
    assert (Hr1 : (round_nearest_even m1 l1 <= 2 ^ 53)%Z).
    { apply (rne_le_int _ _ _ _ H1).
      assert (bpow (g1 - E1) <= bpow 53) by (apply bpow_le; lia).
      rewrite (bpow_IZR 53) in H3 by lia. lra. }
    assert (Hr2 : (2 ^ 52 <= round_nearest_even m2 l2)%Z).
    { apply (rne_ge_int _ _ _ _ H2).
      assert (bpow 52 <= bpow (g2 - 1 - E2)) by (apply bpow_le; lia).
      rewrite (bpow_IZR 52) in H3 by lia. lra. }
    apply IZR_le in Hr1, Hr2.
    apply Rle_trans with (bpow (53 + E1)).
    + rewrite bpow_add, (bpow_IZR 53) by lia. apply Rmult_le_compat_r; lra.
    + apply Rle_trans with (bpow (52 + E2)).
      * apply bpow_le. lia.
      * rewrite bpow_add, (bpow_IZR 52) by lia. apply Rmult_le_compat_r; lra.
Qed.

Lemma rounded_fun x r1 r2 : rounded x r1 -> rounded x r2 -> r1 = r2.
Proof.
  intros H1 H2. apply Rle_antisym; eapply rounded_monotone; eauto; lra.
Qed.

Lemma rounded_nonneg x r : rounded x r -> 0 <= r.
Proof.
  intros (g & m & l & Hg & H & ->).
  pose proof (bpow_pos (fexp prec emax g)). pose proof (bpow_pos (g - 1)).
  pose proof (bpow_pos (- fexp prec emax g)).
  assert (0 <= m)%Z by (eapply located_nonneg; [|exact H]; nra).
  pose proof (rne_bounds m l).
  assert (0 <= IZR (round_nearest_even m l)) by (apply IZR_le; lia).
  nra.
Qed.

(** A number that is a multiple of its own unit in the last place is left
    as it is. *)
Lemma rounded_exact x g k :
  bpow (g - 1) <= x < bpow g ->
  x = IZR k * bpow (fexp prec emax g) ->
  rounded x x.
Proof.
  intros Hg Hx. exists g, k, loc_Exact. repeat split; try apply Hg; [|exact Hx].
  cbn. rewrite Hx at 1. rewrite Rmult_assoc, bpow_opp_r. ring.
Qed.

Lemma pos_mag p e :
  bpow (Zpos (digits2_pos p) + e - 1) <= IZR (Zpos p) * bpow e
  < bpow (Zpos (digits2_pos p) + e).
Proof.
  pose proof (digits2_pos_bounds p) as [Hlo Hhi].
  set (d := Zpos (digits2_pos p)) in *.
  assert (Hd : (1 <= d)%Z) by (unfold d; lia).
  replace (d + e - 1)%Z with (d - 1 + e)%Z by lia.
  rewrite !bpow_add, (bpow_IZR d), (bpow_IZR (d - 1)) by lia.
  pose proof (bpow_pos e). apply IZR_le in Hlo. apply IZR_lt in Hhi.
  split; [apply Rmult_le_compat_r | apply Rmult_lt_compat_r]; lra.
Qed.

Lemma rounded_bounded p e :
  SpecFloat.bounded prec emax p e = true ->
  rounded (IZR (Zpos p) * bpow e) (IZR (Zpos p) * bpow e).
Proof.
  intros Hb. apply bounded_eq in Hb. destruct Hb as [Hc _].
  apply (rounded_exact _ (Zpos (digits2_pos p) + e) (Zpos p)).
  - apply pos_mag.
  - rewrite fexp_eq. now rewrite Hc.
Qed.

Lemma rounded_bpow k : (-1074 <= k)%Z -> rounded (bpow k) (bpow k).
Proof.
  intros Hk. apply (rounded_exact _ (k + 1) (2 ^ (k - fexp prec emax (k + 1)))).
  - replace (k + 1 - 1)%Z with k by lia. split; [lra|]. apply bpow_lt. lia.
  - rewrite fexp_eq. rewrite <- bpow_IZR by lia. rewrite <- bpow_add.
    f_equal. lia.
Qed.

Lemma bounded_lt_1024 p e :
  SpecFloat.bounded prec emax p e = true -> IZR (Zpos p) * bpow e < bpow 1024.
Proof.
  intros Hb. apply bounded_eq in Hb. destruct Hb as [Hc He].
  pose proof (pos_mag p e) as [_ H].
  eapply Rlt_le_trans; [exact H|]. apply bpow_le. lia.
Qed.

End Rounded.

Section Operations.
Local Open Scope R_scope.

Lemma RND_monotone x1 r1 x2 r2 :
  RND x1 r1 -> RND x2 r2 -> x1 <= x2 -> r1 <= r2.
Proof.
  intros [[-> ->]|[H1 R1]] [[-> ->]|[H2 R2]] Hx; try lra.
  - now apply rounded_nonneg in R2.
  - eapply rounded_monotone; eauto.
Qed.

Lemma RND_fun x r1 r2 : RND x r1 -> RND x r2 -> r1 = r2.
Proof.
  intros H1 H2. apply Rle_antisym; eapply RND_monotone; eauto; lra.
Qed.

Lemma RND_nonneg x r : RND x r -> 0 <= r.
Proof. intros [[_ ->]|[_ H]]; [lra|]. now apply rounded_nonneg in H. Qed.

Lemma RND_bpow k : (-1074 <= k)%Z -> RND (bpow k) (bpow k).
Proof. intros Hk. right. split; [apply bpow_pos|now apply rounded_bpow]. Qed.

Lemma SFmag_nonneg y : 0 <= SFmag y.
Proof.
  destruct y; cbn; try lra.
  pose proof (bpow_pos e). assert (0 < IZR (Zpos m)) by (apply IZR_lt; lia). nra.
Qed.

(** A valid finite float is its own rounding. *)
Lemma RND_SFmag y :
  valid_binary y = true -> RND (SFmag y) (SFmag y).
Proof.
  destruct y as [s|s| |s m e]; cbn; intros Hv; try (left; split; reflexivity).
  right. split; [|now apply rounded_bounded].
  pose proof (bpow_pos e). assert (0 < IZR (Zpos m)) by (apply IZR_lt; lia). nra.
Qed.

(** What [rounds] says of a result. *)
Lemma rounds_inv s r y :
  rounds s r y ->
  SFsign y = s /\ valid_binary y = true /\
  (SFfin y = true /\ SFmag y = r /\ r < bpow 1024 \/
   y = S754_infinity s /\ bpow 1024 <= r).
Proof.
  intros [Hr|p e Hb Hr|Hr]; cbn; repeat split; auto.
  - left. repeat split; auto. rewrite Hr. apply bpow_pos.
  - left. repeat split; auto. rewrite <- Hr. now apply bounded_lt_1024.
Qed.

Lemma digits2_pos_mul p q :
  (Zpos (digits2_pos p) + Zpos (digits2_pos q) - 1 <= Zpos (digits2_pos (p * q)))%Z.
Proof.
  pose proof (digits2_pos_bounds p) as [Hp _].
  pose proof (digits2_pos_bounds q) as [Hq _].
  pose proof (digits2_pos_bounds (p * q)) as [_ Hpq].
  set (dp := Zpos (digits2_pos p)) in *. set (dq := Zpos (digits2_pos q)) in *.
  set (d := Zpos (digits2_pos (p * q))) in *.
  assert (1 <= dp)%Z by (unfold dp; lia). assert (1 <= dq)%Z by (unfold dq; lia).
  assert (2 ^ (dp - 1 + (dq - 1)) < 2 ^ d)%Z.
  { rewrite Z.pow_add_r by lia. rewrite Pos2Z.inj_mul in Hpq.
    eapply Z.le_lt_trans; [|exact Hpq]. apply Z.mul_le_mono_nonneg; lia. }
  apply Z.pow_lt_mono_r_iff in H1; lia.
Qed.

Theorem SFmul_spec x y :
  SFfin x = true -> SFfin y = true ->
  valid_binary x = true -> valid_binary y = true ->
  exists r, RND (SFmag x * SFmag y) r /\
            rounds (xorb (SFsign x) (SFsign y)) r (SFmul prec emax x y).
Proof.
  destruct x as [sx|sx| |sx mx ex], y as [sy|sy| |sy my ey]; try discriminate;
    intros _ _ Hvx Hvy; cbn [SFmul SFmag SFsign].
  1-3: exists 0; split; [left; split; [ring|reflexivity] | now apply rounds_zero].
  cbn in Hvx, Hvy. apply bounded_eq in Hvx, Hvy.
  set (x := IZR (Zpos mx) * bpow ex * (IZR (Zpos my) * bpow ey)).
  assert (Hx : x = IZR (Zpos (mx * my)) * bpow (ex + ey)).
  { unfold x. rewrite Pos2Z.inj_mul, mult_IZR, bpow_add. ring. }
  pose proof (pos_mag (mx * my) (ex + ey)) as Hg. rewrite <- Hx in Hg.
  pose proof (digits2_pos_mul mx my) as Hd.
  destruct (binary_round_aux_spec (xorb sx sy) x _ (Zpos (mx * my)) (ex + ey) loc_Exact Hg)
    as (r & Hr & Hrs).
  - cbn. rewrite Hx, Rmult_assoc, bpow_opp_r. ring.
  - rewrite fexp_eq. lia.
  - exists r. split; [|exact Hrs]. right. split; [|exact Hr].
    pose proof (bpow_pos (Zpos (digits2_pos (mx * my)) + (ex + ey) - 1)). lra.
Qed.

Lemma new_location_located q r m :
  (0 <= r < m)%Z ->
  located (IZR q + IZR r / IZR m) q (new_location m r).
Proof.
  intros Hr. assert (Hm : 0 < IZR m) by (apply IZR_lt; lia).
  assert (Hr0 : 0 <= IZR r) by (apply IZR_le; lia).
  assert (Hdiv : forall a, (IZR r / IZR m < a <-> IZR r < a * IZR m) /\
                           (a < IZR r / IZR m <-> a * IZR m < IZR r) /\
                           (IZR r / IZR m = a <-> IZR r = a * IZR m)).
  { intros a. unfold Rdiv.
    assert (E : IZR r = IZR r * / IZR m * IZR m) by (field; lra).
    repeat split; intros H.
    - rewrite E. apply Rmult_lt_compat_r; assumption.
    - apply Rmult_lt_reg_r with (IZR m); [assumption|]. now rewrite <- E.
    - rewrite E. apply Rmult_lt_compat_r; assumption.
    - apply Rmult_lt_reg_r with (IZR m); [assumption|]. now rewrite <- E.
    - rewrite <- H. exact E.
    - apply Rmult_eq_reg_r with (IZR m); [|lra]. now rewrite <- E. }
  assert (Hloc : new_location m r =
            if (r =? 0)%Z then loc_Exact
            else if Z.even m then loc_Inexact (2 * r ?= m)%Z
                 else loc_Inexact match (2 * r + 1 ?= m)%Z with
                                  | Gt => Gt
                                  | _ => Lt
                                  end).
  { unfold new_location, new_location_even, new_location_odd.
    destruct (Z.even m), (r =? 0)%Z; try reflexivity;
      now destruct (2 * r + 1 ?= m)%Z. }
  rewrite Hloc. clear Hloc.
  destruct (Z.eqb_spec r 0) as [->|Hnz].
  - cbn. unfold Rdiv. ring.
  - assert (Hrpos : 0 < IZR r) by (apply IZR_lt; lia).
    assert (Hlt1 : IZR r / IZR m < 1).
    { apply (Hdiv 1). rewrite Rmult_1_l. apply IZR_lt. lia. }
    assert (Hpos : 0 < IZR r / IZR m).
    { apply (Hdiv 0). lra. }
    destruct (Z.even m) eqn:Ev.
    + destruct (Z.compare_spec (2 * r) m) as [He|Hl|Hg]; cbn.
      * f_equal. apply (Hdiv (/ 2)). rewrite <- He, mult_IZR. field.
      * assert (IZR r / IZR m < / 2).
        { apply (Hdiv (/ 2)). apply IZR_lt in Hl. rewrite mult_IZR in Hl. lra. }
        lra.
      * assert (/ 2 < IZR r / IZR m).
        { apply (Hdiv (/ 2)). apply IZR_lt in Hg. rewrite mult_IZR in Hg. lra. }
        lra.
    + assert (Hodd : (2 * r <> m)%Z).
      { intros <-. rewrite Z.even_mul in Ev. discriminate. }
      destruct (Z.compare_spec (2 * r + 1) m) as [He|Hl|Hg]; cbn.
      * assert (IZR r / IZR m < / 2).
        { apply (Hdiv (/ 2)). assert (2 * r < m)%Z by lia.
          apply IZR_lt in H. rewrite mult_IZR in H. lra. }
        lra.
      * assert (IZR r / IZR m < / 2).
        { apply (Hdiv (/ 2)). assert (2 * r < m)%Z by lia.
          apply IZR_lt in H. rewrite mult_IZR in H. lra. }
        lra.
      * assert (/ 2 < IZR r / IZR m).
        { apply (Hdiv (/ 2)). assert (m < 2 * r)%Z by lia.
          apply IZR_lt in H. rewrite mult_IZR in H. lra. }
        lra.
Qed.

Lemma quotient_mag n1 n2 g1 g2 :
  bpow (g1 - 1) <= n1 < bpow g1 ->
  bpow (g2 - 1) <= n2 < bpow g2 ->
  bpow (g1 - g2 - 1) < n1 / n2 < bpow (g1 - g2 + 1).
Proof.
  intros H1 H2.
  pose proof (bpow_pos (g2 - 1)). pose proof (bpow_pos (g1 - g2 - 1)).
  pose proof (bpow_pos (g1 - g2 + 1)).
  assert (Hn2 : 0 < n2) by lra.
  assert (E : n1 = n1 / n2 * n2) by (field; lra).
  assert (E1 : bpow (g1 - 1) = bpow (g1 - g2 - 1) * bpow g2).
  { rewrite <- bpow_add. f_equal. lia. }
  assert (E2 : bpow g1 = bpow (g1 - g2 + 1) * bpow (g2 - 1)).
  { rewrite <- bpow_add. f_equal. lia. }
  split.
  - apply Rmult_lt_reg_r with n2; [assumption|]. rewrite <- E.
    apply Rlt_le_trans with (bpow (g1 - g2 - 1) * bpow g2); [|lra].
    apply Rmult_lt_compat_l; lra.
  - apply Rmult_lt_reg_r with n2; [assumption|]. rewrite <- E.
    apply Rlt_le_trans with (bpow (g1 - g2 + 1) * bpow (g2 - 1)); [lra|].
    apply Rmult_le_compat_l; lra.
Qed.

Theorem SFdiv_finite_spec s1 m1 e1 s2 m2 e2 :
  exists r,
    RND (IZR (Zpos m1) * bpow e1 / (IZR (Zpos m2) * bpow e2)) r /\
    rounds (xorb s1 s2) r
      (SFdiv prec emax (S754_finite s1 m1 e1) (S754_finite s2 m2 e2)).
Proof.
  cbn [SFdiv]. unfold SFdiv_core_binary. cbn [Zdigits2].
  set (d1 := Zpos (digits2_pos m1)). set (d2 := Zpos (digits2_pos m2)).
  set (G := (d1 + e1 - (d2 + e2))%Z).
  set (e' := Z.min (fexp prec emax G) (e1 - e2)).
  set (sh := (e1 - e2 - e')%Z).
  assert (Hsh : (0 <= sh)%Z) by (unfold sh, e'; lia).
  set (m' := match sh with Zpos _ => Z.shiftl (Zpos m1) sh | Z0 => Zpos m1 | Zneg _ => 0%Z end).
  assert (Hm' : m' = (Zpos m1 * 2 ^ sh)%Z).
  { unfold m'. destruct sh as [|p|p]; [cbn; lia | | lia].
    now rewrite Z.shiftl_mul_pow2 by lia. }
  pose proof (Z.div_eucl_eq m' (Zpos m2) ltac:(lia)) as Heq.
  pose proof (Z.mod_pos_bound m' (Zpos m2) ltac:(lia)) as Hmod.
  unfold Z.modulo in Hmod.
  destruct (Z.div_eucl m' (Zpos m2)) as [q r].
  set (x := IZR (Zpos m1) * bpow e1 / (IZR (Zpos m2) * bpow e2)).
  pose proof (pos_mag m1 e1) as Hn1. pose proof (pos_mag m2 e2) as Hn2.
  fold d1 in Hn1. fold d2 in Hn2.
  pose proof (quotient_mag _ _ _ _ Hn1 Hn2) as HG.
  fold x in HG. replace (d1 + e1 - (d2 + e2))%Z with G in HG by reflexivity.
  assert (HB : 0 < IZR (Zpos m2)) by (apply IZR_lt; lia).
  pose proof (bpow_pos e2) as Hb2.
  assert (Hloc : located (x * bpow (- e')) q (new_location (Zpos m2) r)).
  { replace (x * bpow (- e')) with (IZR q + IZR r / IZR (Zpos m2)).
    - now apply new_location_located.
    - assert (E : IZR m' = IZR (Zpos m2) * IZR q + IZR r).
      { rewrite Heq at 1. now rewrite plus_IZR, mult_IZR. }
      rewrite Hm', mult_IZR, <- bpow_IZR in E by lia.
      assert (Eb : bpow e1 = bpow sh * bpow e2 * bpow e').
      { rewrite <- !bpow_add. f_equal. unfold sh. lia. }
      unfold x. rewrite Eb.
      pose proof (bpow_opp_r e'). pose proof (bpow_pos e').
      transitivity (IZR (Zpos m1) * bpow sh / IZR (Zpos m2) * (bpow e' * bpow (- e'))).
      + rewrite H, E. field. lra.
      + field. lra. }
  assert (Hx : 0 < x) by (pose proof (bpow_pos (G - 1)); lra).
  destruct (Rlt_le_dec x (bpow G)) as [Hlt|Hge].
  - destruct (binary_round_aux_spec (xorb s1 s2) x G q e' _ (conj (Rlt_le _ _ (proj1 HG)) Hlt) Hloc)
      as (rr & Hr & Hrs).
    + unfold e'. lia.
    + exists rr. split; [right; split; assumption | exact Hrs].
  - assert (Hg1 : bpow (G + 1 - 1) <= x < bpow (G + 1)).
    { replace (G + 1 - 1)%Z with G by lia. split; [assumption|apply HG]. }
    destruct (binary_round_aux_spec (xorb s1 s2) x (G + 1) q e' _ Hg1 Hloc)
      as (rr & Hr & Hrs).
    + unfold e'. rewrite !fexp_eq. lia.
    + exists rr. split; [right; split; assumption | exact Hrs].
Qed.

Lemma iter_xO_spec m d : Zpos (Pos.iter xO m d) = (Zpos m * 2 ^ Zpos d)%Z.
Proof.
  induction d as [|d IH] using Pos.peano_ind.
  - cbn. lia.
  - rewrite Pos.iter_succ, Pos2Z.inj_xO, IH, Pos2Z.inj_succ, Z.pow_succ_r by lia. ring.
Qed.

Lemma shl_align_spec m e e' :
  let '(mz, ez) := shl_align m e e' in
  ez = Z.min e e' /\ IZR (Zpos mz) * bpow ez = IZR (Zpos m) * bpow e.
Proof.
  unfold shl_align. destruct (e' - e)%Z as [|d|d] eqn:Ed.
  - split; [lia|reflexivity].
  - split; [lia|reflexivity].
  - split; [lia|]. rewrite iter_xO_spec, mult_IZR, <- bpow_IZR by lia.
    rewrite Rmult_assoc, <- bpow_add. do 2 f_equal. lia.
Qed.

Theorem binary_round_spec s m e :
  exists r, RND (IZR (Zpos m) * bpow e) r /\ rounds s r (binary_round prec emax s m e).
Proof.
  unfold binary_round.
  pose proof (shl_align_spec m e (fexp prec emax (Zpos (digits2_pos m) + e))) as Ha.
  destruct (shl_align _ _ _) as [mz ez]. destruct Ha as [Hez Hv].
  pose proof (pos_mag m e) as Hg. pose proof (pos_mag mz ez) as Hgz.
  rewrite Hv in Hgz.
  pose proof (mag_unique _ _ _ Hg Hgz) as Hgg.
  rewrite <- Hv in Hgz.
  destruct (binary_round_aux_spec s _ _ (Zpos mz) ez loc_Exact Hgz) as (r & Hr & Hrs).
  - cbn. rewrite Rmult_assoc, bpow_opp_r. ring.
  - rewrite <- Hgg. lia.
  - exists r. rewrite <- Hv. split; [|exact Hrs]. right. split; [|exact Hr].
    pose proof (bpow_pos (Zpos (digits2_pos mz) + ez - 1)). lra.
Qed.

Theorem binary_normalize_spec n e :
  exists r, RND (IZR (Z.abs n) * bpow e) r /\
            rounds (n <? 0)%Z r (binary_normalize prec emax n e false).
Proof.
  destruct n as [|m|m]; cbn [binary_normalize Z.abs Z.ltb Z.compare].
  - exists 0. split; [left; split; [ring|reflexivity] | now apply rounds_zero].
  - apply binary_round_spec.
  - apply binary_round_spec.
Qed.

(** *** The order of two floats *)

Lemma bounded_exp_lt m1 e1 m2 e2 :
  SpecFloat.bounded prec emax m1 e1 = true ->
  SpecFloat.bounded prec emax m2 e2 = true ->
  (e1 < e2)%Z ->
  IZR (Zpos m1) * bpow e1 < IZR (Zpos m2) * bpow e2.
Proof.
  intros H1 H2 He. apply bounded_eq in H1, H2.
  pose proof (pos_mag m1 e1) as [_ Hu]. pose proof (pos_mag m2 e2) as [Hl _].
  eapply Rlt_le_trans; [exact Hu|]. eapply Rle_trans; [|exact Hl].
  apply bpow_le. lia.
Qed.

Lemma SFcompare_nonneg x y :
  SFfin x = true -> SFfin y = true ->
  valid_binary x = true -> valid_binary y = true ->
  SFnonneg x = true -> SFnonneg y = true ->
  match SFcompare x y with
  | Some Lt => SFmag x < SFmag y
  | Some Eq => SFmag x = SFmag y
  | Some Gt => SFmag y < SFmag x
  | None => False
  end.
Proof.
  destruct x as [sx|sx| |sx mx ex], y as [sy|sy| |sy my ey]; try discriminate;
    intros _ _ Hvx Hvy Hnx Hny; cbn [SFcompare SFmag].
  - reflexivity.
  - destruct sy; [discriminate|]. pose proof (bpow_pos ey).
    assert (0 < IZR (Zpos my)) by (apply IZR_lt; lia). nra.
  - destruct sx; [discriminate|]. pose proof (bpow_pos ex).
    assert (0 < IZR (Zpos mx)) by (apply IZR_lt; lia). nra.
  - destruct sx; [discriminate|]. destruct sy; [discriminate|].
    cbn in Hvx, Hvy.
    destruct (Z.compare_spec ex ey) as [He|Hl|Hg].
    + subst ey. rewrite Pos.compare_cont_spec. cbn [Pos.switch_Eq].
      pose proof (bpow_pos ex).
      destruct (Pos.compare_spec mx my) as [Hm|Hm|Hm].
      * now subst.
      * apply Rmult_lt_compat_r; [assumption|]. apply IZR_lt. lia.
      * apply Rmult_lt_compat_r; [assumption|]. apply IZR_lt. lia.
    + now apply bounded_exp_lt.
    + now apply bounded_exp_lt.
Qed.

End Operations.


(** ** The monad *)

Lemma reader_pure {A} (c : M A) w a w' :
  reader c -> c w = Some (a, w') -> w' = w.
Proof.
  intros Hc H. destruct w as [fs o].
  specialize (Hc fs o o). rewrite H in Hc. now inversion Hc.
Qed.

Lemma reader_logged {A} (c : M A) w a evs :
  reader c -> c w = Some (a, w) -> c (logged w evs) = Some (a, logged w evs).
Proof.
  intros Hc H. destruct w as [fs o]. unfold logged; cbn.
  rewrite (Hc fs o). now rewrite H.
Qed.

Lemma reader_bind {A B} (c : M A) (k : A -> M B) :
  reader c -> (forall a, reader (k a)) -> reader (bind c k).
Proof.
  intros Hc Hk fs o o'. unfold bind.
  rewrite (Hc fs o o').
  destruct (c (mkWorld fs o)) as [[a w1]|] eqn:E; [|reflexivity].
  apply (reader_pure _ _ _ _ Hc) in E. subst w1.
  apply Hk.
Qed.

Lemma reader_lift {A} (o : option A) : reader (lift o).
Proof. intros fs o1 o2. now destruct o. Qed.

Lemma reader_ret {A} (x : A) : reader (ret x).
Proof. intros fs o1 o2. reflexivity. Qed.

Lemma reader_read self f : reader (Cgroup.read self f).
Proof.
  intros fs o1 o2. unfold Cgroup.read; cbn. now destruct (fs _).
Qed.

Create HintDb reader.
#[local] Hint Resolve reader_lift reader_ret reader_read : reader.

Lemma reader_read_limit self : reader (Cgroup.read_limit self).
Proof.
  unfold Cgroup.read_limit. apply reader_bind; auto with reader.
  intros x. destruct (String.eqb _ _); auto with reader.
Qed.

Lemma reader_read_current self : reader (Cgroup.read_current self).
Proof. unfold Cgroup.read_current. apply reader_bind; auto with reader. Qed.

Lemma reader_field self i : reader (Cgroup.field self i).
Proof.
  unfold Cgroup.field, Cgroup.readlines.
  repeat (apply reader_bind; [auto with reader | intros ?]); auto with reader.
Qed.

Lemma reader_total self : reader (Cgroup.total self).
Proof. unfold Cgroup.total. apply reader_bind; auto using reader_field with reader. Qed.

Lemma reader_pressure self : reader (Cgroup.pressure self).
Proof. unfold Cgroup.pressure. apply reader_bind; auto using reader_field with reader. Qed.

#[local] Hint Resolve reader_read_limit reader_read_current reader_total
  reader_pressure : reader.

Lemma reader_shown_limit self : reader (Senpai.shown_limit self).
Proof. unfold Senpai.shown_limit. apply reader_bind; auto with reader. Qed.

Lemma reader_run {A} (c : M A) w :
  reader c ->
  c w = match c w with Some (a, _) => Some (a, w) | None => None end.
Proof.
  intros Hc. destruct (c w) as [[a w1]|] eqn:E; [|reflexivity].
  now rewrite (reader_pure _ _ _ _ Hc E).
Qed.

Lemma reader_run_logged {A} (c : M A) w evs :
  reader c ->
  c (logged w evs) =
  match c w with Some (a, _) => Some (a, logged w evs) | None => None end.
Proof. intros Hc. destruct w as [fs o]. apply Hc. Qed.

(** ** The accessor: [import_limit] and [set_limit] *)

Lemma import_limit_eq self cand w :
  Cgroup.import_limit self cand w =
  match Cgroup.read_limit self w with
  | None => None
  | Some (r, _) =>
      if diverged self r then
        match Cgroup.read_current self w with
        | Some (c, _) =>
            Some (Cgroup.with_limit self (Some (Cgroup.sanitize self c)),
                  logged w [LogMsg "Resetting limit to memory.current."])
        | None => None
        end
      else
        match cand with
        | Some x => Some (Cgroup.with_limit self (Some (Cgroup.sanitize self x)), w)
        | None => None
        end
  end.
Proof.
  unfold Cgroup.import_limit, bind at 1.
  rewrite (reader_run _ w (reader_read_limit self)).
  destruct (Cgroup.read_limit self w) as [[r w1]|]; [|reflexivity].
  assert (Hreset :
    (log (LogMsg "Resetting limit to memory.current.") ;;;
     (c <- Cgroup.read_current self ;; ret (Some c))) w =
    match Cgroup.read_current self w with
    | Some (c, _) => Some (Some c, logged w [LogMsg "Resetting limit to memory.current."])
    | None => None
    end).
  { unfold bind, log. fold (logged w [LogMsg "Resetting limit to memory.current."]).
    rewrite (reader_run_logged _ w _ (reader_read_current self)).
    now destruct (Cgroup.read_current self w) as [[c w2]|]. }
  unfold diverged. destruct (Cgroup.limit self) as [l|].
  - destruct (r =? l); cbn [negb].
    + unfold bind, ret. now destruct cand.
    + unfold bind at 1. rewrite Hreset.
      now destruct (Cgroup.read_current self w) as [[c w2]|].
  - unfold bind at 1. rewrite Hreset.
    now destruct (Cgroup.read_current self w) as [[c w2]|].
Qed.

Lemma set_limit_eq self cand w :
  Cgroup.set_limit self cand w =
  match Cgroup.read_limit self w with
  | None => None
  | Some (r, _) =>
      if diverged self r then
        match Cgroup.read_current self w with
        | Some (c, _) =>
            Some (Cgroup.with_limit self (Some (Cgroup.sanitize self c)),
                  written self (Cgroup.sanitize self c) w
                          [LogMsg "Resetting limit to memory.current."])
        | None => None
        end
      else
        match cand with
        | Some x => Some (Cgroup.with_limit self (Some (Cgroup.sanitize self x)),
                          written self (Cgroup.sanitize self x) w [])
        | None => None
        end
  end.
Proof.
  unfold Cgroup.set_limit, bind at 1. rewrite import_limit_eq.
  destruct (Cgroup.read_limit self w) as [[r w1]|]; [|reflexivity].
  destruct (diverged self r).
  - destruct (Cgroup.read_current self w) as [[c w2]|]; reflexivity.
  - destruct cand; [|reflexivity]. cbn. unfold written.
    now rewrite app_nil_r.
Qed.

Lemma align_down (x : Z) : Z.land x (Z.lnot 4095) = 4096 * (x / 4096).
Proof.
  rewrite <- Z.ldiff_land. change 4095 with (Z.ones 12).
  rewrite Z.ldiff_ones_r by lia.
  rewrite Z.shiftr_div_pow2, Z.shiftl_mul_pow2 by lia.
  change (2 ^ 12) with 4096. lia.
Qed.

Lemma page_aligned_mod (n : Z) : page_aligned n <-> n mod 4096 = 0.
Proof.
  unfold page_aligned. change 4095 with (Z.ones 12).
  rewrite Z.land_ones by lia. reflexivity.
Qed.

Lemma int_max_spec a b : Py.int_max a b = Z.max a b.
Proof. unfold Py.int_max. destruct (Z.ltb_spec a b); lia. Qed.

Lemma int_min_spec a b : Py.int_min a b = Z.min a b.
Proof. unfold Py.int_min. destruct (Z.ltb_spec b a); lia. Qed.

Lemma sanitize_aligned self l : page_aligned (Cgroup.sanitize self l).
Proof.
  unfold Cgroup.sanitize. rewrite page_aligned_mod, align_down.
  now rewrite Z.mul_comm, Z.mod_mul.
Qed.

Lemma sanitize_bounds self l :
  Cgroup.limit_min self <= Cgroup.limit_max self ->
  page_aligned (Cgroup.limit_min self) ->
  Cgroup.limit_min self <= Cgroup.sanitize self l <= Cgroup.limit_max self.
Proof.
  intros Hle Hal. apply page_aligned_mod in Hal.
  unfold Cgroup.sanitize. rewrite align_down, int_max_spec, int_min_spec.
  set (v := Z.max _ _).
  assert (Hv : Cgroup.limit_min self <= v <= Cgroup.limit_max self) by lia.
  pose proof (Z.mod_pos_bound v 4096 ltac:(lia)) as Hm.
  pose proof (Z.div_mod v 4096 ltac:(lia)) as Hd.
  apply Z.mod_divide in Hal; [|lia]. destruct Hal as [k Hk].
  split; [|lia].
  assert (k <= v / 4096) by (apply Z.div_le_lower_bound; lia).
  lia.
Qed.

(** The two bounds, each under its own condition: the maximum holds as
    soon as the bounds are not crossed, the minimum as soon as it is a
    multiple of the page size. *)
Lemma sanitize_upper self l :
  Cgroup.limit_min self <= Cgroup.limit_max self ->
  Cgroup.sanitize self l <= Cgroup.limit_max self.
Proof.
  intros Hle. unfold Cgroup.sanitize. rewrite align_down, int_max_spec, int_min_spec.
  set (v := Z.max _ _).
  assert (Hv : v <= Cgroup.limit_max self) by (unfold v; lia).
  pose proof (Z.mod_pos_bound v 4096 ltac:(lia)) as Hm.
  pose proof (Z.div_mod v 4096 ltac:(lia)) as Hd.
  lia.
Qed.

Lemma sanitize_lower self l :
  page_aligned (Cgroup.limit_min self) ->
  Cgroup.limit_min self <= Cgroup.sanitize self l.
Proof.
  intros Hal. apply page_aligned_mod in Hal.
  unfold Cgroup.sanitize. rewrite align_down, int_max_spec, int_min_spec.
  set (v := Z.max _ _).
  assert (Hv : Cgroup.limit_min self <= v) by (unfold v; lia).
  apply Z.mod_divide in Hal; [|lia]. destruct Hal as [k Hk].
  assert (k <= v / 4096) by (apply Z.div_le_lower_bound; lia).
  lia.
Qed.

Lemma scale_limit_eq self factor w :
  Cgroup.scale_limit self factor w =
  match Cgroup.read_limit self w with
  | None => None
  | Some (x, _) =>
      match Cgroup.scaled x factor with
      | Some x' => Cgroup.set_limit self (Some x') w
      | None => None
      end
  end.
Proof.
  unfold Cgroup.scale_limit, bind at 1.
  rewrite (reader_run _ w (reader_read_limit self)).
  destruct (Cgroup.read_limit self w) as [[x w1]|]; [|reflexivity].
  unfold bind. now destruct (Cgroup.scaled x factor).
Qed.

(** ** The controller: [adjust] and [tick] *)

Lemma adjust_eq self factor w :
  Senpai.adjust self factor w =
  match Cgroup.scale_limit (Senpai.cgroup self) factor (logged w [LogAdjust factor]) with
  | Some (cg, w') => Some (Senpai.with_integral (Senpai.with_cgroup self cg) 0, w')
  | None => None
  end.
Proof.
  unfold Senpai.adjust, bind, log. fold (logged w [LogAdjust factor]).
  now destruct (Cgroup.scale_limit _ _ _) as [[cg w']|].
Qed.

Lemma tick_eq {L : Py.Libm} self w :
  Senpai.tick self w =
  match Cgroup.total (Senpai.cgroup self) w,
        Senpai.shown_limit self w,
        Cgroup.pressure (Senpai.cgroup self) w with
  | Some (total, _), Some (lim, _), Some (p, _) =>
      let delta := total - Senpai.last_total self in
      let s0 := Senpai.with_integral (Senpai.with_last_total self total)
                  (Senpai.integral self + delta) in
      let w0 := logged w [LogTick lim p (Senpai.grace_ticks self) total delta
                            (Senpai.integral s0)] in
      let c := Senpai.conf self in
      if pressure c <? Senpai.integral s0 then
        match Senpai.backoff_adj c (Senpai.integral s0) with
        | Some adj =>
            match Senpai.adjust s0 adj w0 with
            | Some (s1, w1) => Some (Senpai.with_grace_ticks s1 (interval c - 1), w1)
            | None => None
            end
        | None => None
        end
      else if negb (Senpai.grace_ticks self =? 0) then
        Some (Senpai.with_grace_ticks s0 (Senpai.grace_ticks self - 1), w0)
      else
        match Senpai.probe_adj c (Senpai.integral s0) with
        | Some adj =>
            match Senpai.adjust s0 (- adj)%float w0 with
            | Some (s1, w1) => Some (Senpai.with_grace_ticks s1 (interval c - 1), w1)
            | None => None
            end
        | None => None
        end
  | _, _, _ => None
  end.
Proof.
  unfold Senpai.tick, bind at 1.
  rewrite (reader_run _ w (reader_total _)).
  destruct (Cgroup.total _ w) as [[total w1]|]; [|reflexivity].
  cbn [Senpai.cgroup Senpai.with_integral Senpai.with_last_total].
  unfold bind at 1.
  change (Senpai.shown_limit _) with (Senpai.shown_limit self).
  rewrite (reader_run _ w (reader_shown_limit _)).
  destruct (Senpai.shown_limit _ w) as [[lim w2]|]; [|reflexivity].
  unfold bind at 1.
  rewrite (reader_run _ w (reader_pressure _)).
  destruct (Cgroup.pressure _ w) as [[p w3]|]; [|reflexivity].
  unfold bind at 1, log at 1. cbn [Senpai.conf Senpai.integral Senpai.grace_ticks].
  cbv zeta.
  cbn [Senpai.conf Senpai.integral Senpai.grace_ticks Senpai.with_integral
       Senpai.with_last_total].
  unfold logged.
  destruct (_ <? _).
  - unfold bind at 1. destruct (Senpai.backoff_adj _ _) as [adj|]; [|reflexivity].
    cbn [lift ret]. unfold bind. rewrite adjust_eq.
    now destruct (Cgroup.scale_limit _ _ _) as [[cg w4]|].
  - destruct (negb _); [reflexivity|].
    unfold bind at 1. destruct (Senpai.probe_adj _ _) as [adj|]; [|reflexivity].
    cbn [lift ret]. unfold bind. rewrite adjust_eq.
    now destruct (Cgroup.scale_limit _ _ _) as [[cg w4]|].
Qed.

Lemma set_limit_inv self cand w self' w' :
  Cgroup.set_limit self cand w = Some (self', w') ->
  exists x evs,
    self' = Cgroup.with_limit self (Some (Cgroup.sanitize self x)) /\
    w' = written self (Cgroup.sanitize self x) w evs /\
    adjustments evs = [] /\ integrals evs = [].
Proof.
  rewrite set_limit_eq.
  destruct (Cgroup.read_limit self w) as [[r w1]|]; [|discriminate].
  destruct (diverged self r).
  - destruct (Cgroup.read_current self w) as [[c w2]|]; [|discriminate].
    intros H; inversion H; subst. now exists c, [LogMsg "Resetting limit to memory.current."].
  - destruct cand as [x|]; [|discriminate].
    intros H; inversion H; subst. now exists x, [].
Qed.

Lemma scale_limit_inv self factor w self' w' :
  Cgroup.scale_limit self factor w = Some (self', w') ->
  exists x evs,
    self' = Cgroup.with_limit self (Some (Cgroup.sanitize self x)) /\
    w' = written self (Cgroup.sanitize self x) w evs /\
    adjustments evs = [] /\ integrals evs = [].
Proof.
  rewrite scale_limit_eq.
  destruct (Cgroup.read_limit self w) as [[r w1]|]; [|discriminate].
  destruct (Cgroup.scaled r factor); [|discriminate].
  apply set_limit_inv.
Qed.

Lemma adjust_inv self factor w self' w' :
  Senpai.adjust self factor w = Some (self', w') ->
  exists x evs,
    self' = Senpai.with_integral
              (Senpai.with_cgroup self
                 (Cgroup.with_limit (Senpai.cgroup self)
                    (Some (Cgroup.sanitize (Senpai.cgroup self) x)))) 0 /\
    w' = written (Senpai.cgroup self) (Cgroup.sanitize (Senpai.cgroup self) x) w
                 (LogAdjust factor :: evs) /\
    adjustments evs = [] /\ integrals evs = [].
Proof.
  rewrite adjust_eq.
  destruct (Cgroup.scale_limit _ _ _) as [[cg w1]|] eqn:E; [|discriminate].
  intros H; inversion H; subst. clear H.
  apply scale_limit_inv in E. destruct E as (x & evs & -> & -> & Ha & Hi).
  exists x, evs. repeat split; auto.
  unfold written, logged; cbn. now rewrite <- app_assoc.
Qed.

Lemma controller_of_with_limit c s x :
  controller_of c s ->
  controller_of c
    (Senpai.with_cgroup s
       (Cgroup.with_limit (Senpai.cgroup s)
          (Some (Cgroup.sanitize (Senpai.cgroup s) x)))).
Proof.
  intros (Hc & Hp & Hmin & Hmax & _). repeat split; auto.
  now exists x.
Qed.

Lemma tick_controller_of {L : Py.Libm} c s w s' w' :
  controller_of c s -> Senpai.tick s w = Some (s', w') -> controller_of c s'.
Proof.
  intros Hs. rewrite tick_eq.
  destruct (Cgroup.total _ w) as [[total w1]|]; [|discriminate].
  destruct (Senpai.shown_limit _ w) as [[lim w2]|]; [|discriminate].
  destruct (Cgroup.pressure _ w) as [[p w3]|]; [|discriminate].
  cbv zeta.
  set (s0 := Senpai.with_integral _ _).
  assert (H0 : controller_of c s0) by exact Hs.
  destruct (_ <? _).
  - destruct (Senpai.backoff_adj _ _) as [adj|]; [|discriminate].
    destruct (Senpai.adjust _ _ _) as [[s1 w4]|] eqn:E; [|discriminate].
    intros H; inversion H; subst. apply adjust_inv in E.
    destruct E as (x & evs & -> & _). exact (controller_of_with_limit c s0 x H0).
  - destruct (negb _).
    + intros H; inversion H; subst. exact H0.
    + destruct (Senpai.probe_adj _ _) as [adj|]; [|discriminate].
      destruct (Senpai.adjust _ _ _) as [[s1 w4]|] eqn:E; [|discriminate].
      intros H; inversion H; subst. apply adjust_inv in E.
      destruct E as (x & evs & -> & _). exact (controller_of_with_limit c s0 x H0).
Qed.

Lemma run_controller_of {L : Py.Libm} c envs : forall s w s' w',
  controller_of c s -> Senpai.run s envs w = Some (s', w') -> controller_of c s'.
Proof.
  induction envs as [|env envs IH]; intros s w s' w' Hs H.
  - inversion H; now subst.
  - cbn [Senpai.run] in H. unfold bind at 1, Senpai.sleep in H.
    unfold bind at 1 in H.
    destruct (Senpai.tick s _) as [[s1 w1]|] eqn:E; [|discriminate].
    eapply IH; [|exact H]. eapply tick_controller_of; eauto.
Qed.

Lemma log_items_eq l w :
  Senpai.log_items l w = Some (tt, logged w (map (fun kv => LogConfItem (fst kv) (snd kv)) l)).
Proof.
  revert w. induction l as [|[k v] l IH]; intros w.
  - unfold logged. cbn. now rewrite app_nil_r; destruct w.
  - cbn [Senpai.log_items]. unfold bind, log. rewrite IH.
    unfold logged; cbn. now rewrite <- app_assoc.
Qed.

Lemma init_inv c w s w' :
  Senpai.init c w = Some (s, w') ->
  controller_of c s /\ Senpai.integral s = 0 /\ Senpai.grace_ticks s = interval c.
Proof.
  unfold Senpai.init. unfold bind at 1, log at 1. unfold bind at 1.
  rewrite log_items_eq. unfold bind at 1.
  destruct (Cgroup.init _ _ _ _) as [[cg w1]|] eqn:E; [|discriminate].
  unfold bind at 1.
  destruct (Cgroup.total cg w1) as [[total w2]|]; [|discriminate].
  intros H; inversion H; subst; clear H. cbn.
  unfold Cgroup.init in E. unfold bind at 1 in E.
  destruct (Cgroup.pressure _ _) as [[p w3]|]; [|discriminate].
  apply set_limit_inv in E. destruct E as (x & evs & -> & _).
  repeat split; auto. now exists x.
Qed.

Lemma main_controller_of {L : Py.Libm} c envs w s w' :
  Senpai.main c envs w = Some (s, w') -> controller_of c s.
Proof.
  unfold Senpai.main, bind at 1.
  destruct (Senpai.init c w) as [[s0 w0]|] eqn:E; [|discriminate].
  apply init_inv in E. intros H. eapply run_controller_of; [apply E|exact H].
Qed.

Lemma diverged_spec self r :
  diverged self r = false <-> Cgroup.limit self = Some r.
Proof.
  unfold diverged. destruct (Cgroup.limit self) as [l|].
  - destruct (Z.eqb_spec r l); cbn; split; intros H; try congruence.
  - split; discriminate.
Qed.

(** ** C1: the stored limit is page-aligned and within the bounds *)

(** C1, as stated, fails: nothing validates the bounds, and when they
    are crossed no limit can lie between them.  With a minimum of 8192
    and a maximum of 4096 the program started on a cgroup using 1000
    bytes stores and writes 8192, above the maximum, and so does
    [set_limit] on a handle with these bounds. *)
Lemma C1_counterexample :
  (exists s w',
      Senpai.main (mkConf "/cg" 8192 4096 6 10000
                     0x1.47ae147ae147bp-7%float 1%float 10 20) []
        (mkWorld (cgroup_dir "/cg" "0" "1000" "max") []) = Some (s, w') /\
      Cgroup.limit (Senpai.cgroup s) = Some 8192 /\
      files w' "/cg/memory.high" = Some "8192" /\
      4096 < 8192) /\
  (exists self' w',
      Cgroup.set_limit (Cgroup.mk "/cg" (Some 4096) 8192 4096) (Some 4096)
        (mkWorld (cgroup_dir "/cg" "0" "1000" "4096") []) = Some (self', w') /\
      Cgroup.limit self' = Some 8192 /\ 4096 < 8192).
Proof.
  split.
  - eexists _, _. split; [vm_compute; reflexivity|].
    repeat split.
  - eexists _, _. split; [vm_compute; reflexivity|].
    repeat split.
Qed.

(** C1 (amended): whatever the candidate and the configuration, when
    [set_limit] returns, the limit it stored is the one it wrote to
    [memory.high] and is page-aligned (its low 12 bits are zero); it is
    at most [limit_max] as soon as [limit_min <= limit_max], and at least
    [limit_min] when [limit_min] is a multiple of the page size.  The
    same holds of the stored limit after construction and after every
    tick of the program.  (For a minimum that is not a multiple of the
    page size nothing is stated about the lower bound: [import_limit]
    clamps before it clears the low bits.) *)
Theorem C1_limit_aligned_and_bounded {L : Py.Libm} :
  (forall self cand w self' w',
      Cgroup.set_limit self cand w = Some (self', w') ->
      exists l,
        Cgroup.limit self' = Some l /\
        files w' (path_join (Cgroup.path self) "memory.high") = Some (Py.str_of_int l) /\
        page_aligned l /\
        (Cgroup.limit_min self <= Cgroup.limit_max self -> l <= Cgroup.limit_max self) /\
        (page_aligned (Cgroup.limit_min self) -> Cgroup.limit_min self <= l)) /\
  (forall c envs w s w',
      Senpai.main c envs w = Some (s, w') ->
      exists l,
        Cgroup.limit (Senpai.cgroup s) = Some l /\
        page_aligned l /\
        (min_size c <= max_size c -> l <= max_size c) /\
        (page_aligned (min_size c) -> min_size c <= l)).
Proof.
  split.
  - intros self cand w self' w' H.
    apply set_limit_inv in H. destruct H as (x & evs & -> & -> & _).
    exists (Cgroup.sanitize self x).
    split; [reflexivity|]. split.
    { unfold written, update; cbn. now rewrite String.eqb_refl. }
    split; [apply sanitize_aligned|].
    split; [apply sanitize_upper | apply sanitize_lower].
  - intros c envs w s w' H.
    apply main_controller_of in H.
    destruct H as (_ & _ & Hmin & Hmax & x & Hx).
    exists (Cgroup.sanitize (Senpai.cgroup s) x). rewrite <- Hmin, <- Hmax.
    split; [exact Hx|]. split; [apply sanitize_aligned|].
    split; [apply sanitize_upper | apply sanitize_lower].
Qed.

Lemma C1_witness :
  exists l,
    Cgroup.limit (Cgroup.mk "/cg" (Some 8192) 4096 1048576) = Some l /\
    files (written (Cgroup.mk "/cg" (Some 4096) 4096 1048576) 8192
             (mkWorld (cgroup_dir "/cg" "0" "1000" "4096") []) [])
          "/cg/memory.high" = Some (Py.str_of_int l) /\
    page_aligned l /\
    (4096 <= 1048576 -> l <= 1048576) /\
    (page_aligned 4096 -> 4096 <= l).
Proof.
  apply (proj1 C1_limit_aligned_and_bounded
           (Cgroup.mk "/cg" (Some 4096) 4096 1048576) (Some 10000)
           (mkWorld (cgroup_dir "/cg" "0" "1000" "4096") [])).
  vm_compute. reflexivity.
Defined.

(** A defect of [import_limit], outside the statement above: it clamps
    before it clears the low bits, so that a minimum that is not a
    multiple of the page size is undershot, against the range between
    MIN_SIZE and MAX_SIZE that the program's description announces.
    With [--min-size 100000000] the program started on a cgroup using
    1000 bytes stores and writes 99999744. *)
Lemma import_limit_undershoots :
  exists s w',
    Senpai.main (mkConf "/cg" 100000000 (Z.shiftl 100 30) 6 10000
                   0x1.47ae147ae147bp-7%float 1%float 10 20) []
      (mkWorld (cgroup_dir "/cg" "0" "1000" "max") []) = Some (s, w') /\
    Cgroup.limit (Senpai.cgroup s) = Some 99999744 /\
    files w' "/cg/memory.high" = Some "99999744" /\
    99999744 < 100000000.
Proof.
  eexists _, _. split; [vm_compute; reflexivity|]. repeat split.
Qed.

(** ** C2: resynchronisation on divergence *)

(** C2: when the limit read back from [memory.high] differs from the one
    stored (or none is stored yet), [set_limit] discards its candidate and
    stores and writes the sanitized current usage; otherwise it stores and
    writes the sanitized candidate.  Sanitizing is clamping to the bounds
    and then clearing the low 12 bits. *)
Theorem C2_set_limit_resynchronises self cand w r
  (Hread : Cgroup.read_limit self w = Some (r, w)) :
  (Cgroup.limit self <> Some r ->
   forall c, Cgroup.read_current self w = Some (c, w) ->
     Cgroup.set_limit self cand w =
     Some (Cgroup.with_limit self (Some (Cgroup.sanitize self c)),
           written self (Cgroup.sanitize self c) w
             [LogMsg "Resetting limit to memory.current."])) /\
  (Cgroup.limit self = Some r ->
   forall x, cand = Some x ->
     Cgroup.set_limit self cand w =
     Some (Cgroup.with_limit self (Some (Cgroup.sanitize self x)),
           written self (Cgroup.sanitize self x) w [])) /\
  (forall v, Cgroup.sanitize self v =
             Z.land (Z.max (Cgroup.limit_min self) (Z.min (Cgroup.limit_max self) v))
                    (Z.lnot 4095)).
Proof.
  repeat split.
  - intros Hne c Hc. rewrite set_limit_eq, Hread, Hc.
    destruct (diverged self r) eqn:E; [reflexivity|].
    apply diverged_spec in E. contradiction.
  - intros He x ->. rewrite set_limit_eq, Hread.
    apply diverged_spec in He. now rewrite He.
  - intros v. unfold Cgroup.sanitize. now rewrite int_max_spec, int_min_spec.
Qed.

Lemma C2_witness :
  let self := Cgroup.mk "/cg" (Some 8192) 4096 1048576 in
  let w := mkWorld (cgroup_dir "/cg" "0" "20000" "12288") [] in
  Cgroup.set_limit self (Some 500000) w =
  Some (Cgroup.with_limit self (Some 16384),
        written self 16384 w [LogMsg "Resetting limit to memory.current."]).
Proof.
  intros self w.
  refine (proj1 (C2_set_limit_resynchronises self (Some 500000) w 12288 _) _ 20000 _).
  - vm_compute. reflexivity.
  - vm_compute. discriminate.
  - vm_compute. reflexivity.
Defined.

(** ** C3: [adjust] resets the integral *)

(** C3: for every factor, of any sign and magnitude (infinities and NaN
    included), [adjust] returns exactly when [scale_limit] does, and the
    integral is then 0, whatever limit the accessor ended up storing. *)
Theorem C3_adjust_resets_integral self factor w :
  match Senpai.adjust self factor w with
  | Some (self', _) => Senpai.integral self' = 0
  | None =>
      Cgroup.scale_limit (Senpai.cgroup self) factor (logged w [LogAdjust factor]) = None
  end.
Proof.
  rewrite adjust_eq.
  destruct (Cgroup.scale_limit _ _ _) as [[cg w']|]; reflexivity.
Qed.

(** ** The grace window *)

Lemma emitted_app w fs evs : emitted w (mkWorld fs (stdout w ++ evs)) = evs.
Proof.
  unfold emitted; cbn. induction (stdout w) as [|e l IH]; [reflexivity|exact IH].
Qed.

Lemma adjustments_app l1 l2 : adjustments (l1 ++ l2) = (adjustments l1 ++ adjustments l2)%list.
Proof.
  induction l1 as [|e l1 IH]; [reflexivity|].
  destruct e; cbn; now rewrite IH.
Qed.

Lemma integrals_app l1 l2 : integrals (l1 ++ l2) = (integrals l1 ++ integrals l2)%list.
Proof.
  induction l1 as [|e l1 IH]; [reflexivity|].
  destruct e; cbn; now rewrite IH.
Qed.

Lemma tick_inv {L : Py.Libm} s w s' w' :
  Senpai.tick s w = Some (s', w') ->
  exists lim p total evs,
    let i := Senpai.integral s + (total - Senpai.last_total s) in
    Cgroup.total (Senpai.cgroup s) w = Some (total, w) /\
    stdout w' = (stdout w ++
      LogTick lim p (Senpai.grace_ticks s) total (total - Senpai.last_total s) i :: evs)%list /\
    Senpai.conf s' = Senpai.conf s /\
    Senpai.last_total s' = total /\
    tick_outcome s i s' evs.
Proof.
  rewrite tick_eq.
  destruct (Cgroup.total _ w) as [[total w1]|] eqn:Et; [|discriminate].
  pose proof (reader_pure _ _ _ _ (reader_total _) Et); subst w1.
  destruct (Senpai.shown_limit _ w) as [[lim w2]|]; [|discriminate].
  destruct (Cgroup.pressure _ w) as [[p w3]|]; [|discriminate].
  cbv zeta. cbn [Senpai.integral Senpai.with_integral Senpai.with_last_total].
  intros H. exists lim, p, total.
  destruct (Z.ltb_spec (pressure (Senpai.conf s))
              (Senpai.integral s + (total - Senpai.last_total s))) as [Hlt|Hle].
  - destruct (Senpai.backoff_adj _ _) as [adj|] eqn:Ea; [|discriminate].
    destruct (Senpai.adjust _ _ _) as [[s1 w4]|] eqn:E; [|discriminate].
    inversion H; subst; clear H. apply adjust_inv in E.
    destruct E as (x & evs & -> & -> & Ha & Hi).
    exists (LogAdjust adj :: evs). cbn. repeat split; auto.
    + now rewrite <- app_assoc.
    + now apply Loosened.
  - destruct (Z.eqb_spec (Senpai.grace_ticks s) 0) as [Hz|Hnz]; cbn [negb] in H.
    + destruct (Senpai.probe_adj _ _) as [adj|] eqn:Ea; [|discriminate].
      destruct (Senpai.adjust _ _ _) as [[s1 w4]|] eqn:E; [|discriminate].
      inversion H; subst; clear H. apply adjust_inv in E.
      destruct E as (x & evs & -> & -> & Ha & Hi).
      exists (LogAdjust (- adj)%float :: evs). cbn. repeat split; auto.
      * now rewrite <- app_assoc.
      * now apply Tightened.
    + inversion H; subst; clear H. exists []. cbn. repeat split; auto.
      now apply Held.
Qed.

Lemma run_cons {L : Py.Libm} s env envs w :
  Senpai.run s (env :: envs) w =
  match Senpai.tick s (mkWorld (env (files w)) (stdout w)) with
  | Some (s1, w1) => Senpai.run s1 envs w1
  | None => None
  end.
Proof. reflexivity. Qed.

(** While the count of grace ticks covers the ticks run and no integral
    exceeds the target, the controller only counts down. *)
Lemma run_holds {L : Py.Libm} envs : forall s w s' w',
  Senpai.run s envs w = Some (s', w') ->
  Z.of_nat (List.length envs) <= Senpai.grace_ticks s ->
  Forall (fun i => i <= pressure (Senpai.conf s)) (integrals (emitted w w')) ->
  adjustments (emitted w w') = [] /\
  Senpai.grace_ticks s' = Senpai.grace_ticks s - Z.of_nat (List.length envs) /\
  Senpai.cgroup s' = Senpai.cgroup s.
Proof.
  induction envs as [|env envs IH]; intros s w s' w' H Hlen Hall.
  - inversion H; subst. unfold emitted. rewrite skipn_all. cbn. repeat split. lia.
  - rewrite run_cons in H.
    destruct (Senpai.tick s _) as [[s1 w1]|] eqn:E; [|discriminate].
    apply tick_inv in E. destruct E as (lim & p & total & evs & _ & Hout & Hc & _ & Hcase).
    cbn [stdout] in Hout.
    assert (Hrun := H).
    assert (Hgrow : exists evs', stdout w' = (stdout w1 ++ evs')%list /\ emitted w1 w' = evs').
    { clear - H. revert s1 w1 H. induction envs as [|env' envs' IH']; intros s1 w1 H.
      - inversion H; subst. exists []. rewrite app_nil_r. split; [reflexivity|].
        unfold emitted. now rewrite skipn_all.
      - rewrite run_cons in H.
        destruct (Senpai.tick s1 _) as [[s2 w2]|] eqn:E; [|discriminate].
        apply tick_inv in E. destruct E as (lim & p & total & evs & _ & Hout & _).
        cbn [stdout] in Hout.
        destruct (IH' _ _ H) as (evs' & He & _).
        rewrite Hout, <- app_assoc in He. eexists. split; [exact He|].
        destruct w' as [fs' o']. cbn in He. subst o'. apply emitted_app. }
    destruct Hgrow as (evs' & Hw' & Hem).
    assert (Hemit : emitted w w' =
              ((LogTick lim p (Senpai.grace_ticks s) total (total - Senpai.last_total s)
                 (Senpai.integral s + (total - Senpai.last_total s)) :: evs) ++ evs')%list).
    { destruct w' as [fs' o']. cbn in Hw'. subst o'. rewrite Hout, <- app_assoc.
      apply emitted_app. }
    rewrite Hemit in Hall |- *.
    rewrite integrals_app in Hall. apply Forall_app in Hall. destruct Hall as [Hh Ht].
    cbn [integrals] in Hh. apply Forall_cons_iff in Hh. destruct Hh as [Hi _].
    cbn [List.length] in Hlen.
    destruct Hcase as [adj evs0 Hlt|Hle Hnz Hint Hg Hcg|adj evs0 Hle Hz];
      [lia| |lia].
    rewrite <- Hem in Ht. rewrite <- Hc in Ht.
    assert (Hlen1 : Z.of_nat (List.length envs) <= Senpai.grace_ticks s1) by lia.
    destruct (IH _ _ _ _ Hrun Hlen1 Ht) as (Ha & Hg' & Hcg').
    rewrite adjustments_app. cbn [adjustments app]. rewrite <- Hem, Ha.
    cbn [List.length]. repeat split; [lia | congruence].
Qed.

(** ** C4: the grace window after an adjustment *)

(** C4: when a tick adjusts the limit (loosening or tightening), it leaves
    [grace_ticks = interval - 1]; and over any following ticks, at most
    [interval - 1] of them, in which no integral exceeds the pressure
    target (no loosening is triggered), the controller makes no adjustment
    at all, counts the grace ticks down by one per tick and leaves the
    cgroup object untouched. *)
Theorem C4_grace_after_adjustment {L : Py.Libm} s w s1 w1
  (Htick : Senpai.tick s w = Some (s1, w1))
  (Hadj : adjustments (emitted w w1) <> []) :
  Senpai.grace_ticks s1 = interval (Senpai.conf s) - 1 /\
  forall envs s2 w2,
    Senpai.run s1 envs w1 = Some (s2, w2) ->
    Z.of_nat (List.length envs) <= interval (Senpai.conf s) - 1 ->
    Forall (fun i => i <= pressure (Senpai.conf s)) (integrals (emitted w1 w2)) ->
    adjustments (emitted w1 w2) = [] /\
    Senpai.grace_ticks s2 = interval (Senpai.conf s) - 1 - Z.of_nat (List.length envs) /\
    Senpai.cgroup s2 = Senpai.cgroup s1.
Proof.
  apply tick_inv in Htick.
  destruct Htick as (lim & p & total & evs & _ & Hout & Hc & _ & Hcase).
  assert (Hem : emitted w w1 =
            LogTick lim p (Senpai.grace_ticks s) total (total - Senpai.last_total s)
              (Senpai.integral s + (total - Senpai.last_total s)) :: evs).
  { destruct w1 as [fs1 o1]. cbn in Hout. subst o1. apply emitted_app. }
  rewrite Hem in Hadj. cbn [adjustments] in Hadj.
  assert (Hg : Senpai.grace_ticks s1 = interval (Senpai.conf s) - 1).
  { destruct Hcase; [assumption | contradiction | assumption]. }
  split; [exact Hg|].
  intros envs s2 w2 Hrun Hlen Hall.
  rewrite <- Hg, <- Hc in *.
  now apply run_holds.
Qed.

Lemma C4_witness :
  let c := mkConf "/cg" 4096 (Z.shiftl 100 30) 3 10000
             0x1.47ae147ae147bp-7%float 1%float 10 20 in
  let cg := Cgroup.mk "/cg" (Some 4096000) 4096 (Z.shiftl 100 30) in
  let s := Senpai.mk c cg 0 0 0 in
  let w := mkWorld (cgroup_dir "/cg" "50000" "1000" "4096000") [] in
  exists s1 w1,
    Senpai.tick s w = Some (s1, w1) /\
    Senpai.grace_ticks s1 = 2 /\
    forall s2 w2,
      Senpai.run s1 [quiet; quiet] w1 = Some (s2, w2) ->
      adjustments (emitted w1 w2) = [] /\ Senpai.grace_ticks s2 = 0.
Proof.
  intros c cg s w.
  destruct (Senpai.tick s w) as [[s1 w1]|] eqn:E; [|vm_compute in E; discriminate].
  exists s1, w1. split; [reflexivity|].
  assert (Hadj : adjustments (emitted w w1) <> []).
  { vm_compute in E. inversion E; subst. vm_compute. discriminate. }
  destruct (C4_grace_after_adjustment s w s1 w1 E Hadj) as [Hg Hrun].
  split; [exact Hg|].
  intros s2 w2 H2.
  destruct (Hrun [quiet; quiet] s2 w2 H2) as (Ha & Hg2 & _).
  - cbn. lia.
  - vm_compute in E. inversion E; subst. vm_compute in H2. inversion H2; subst.
    vm_compute. repeat constructor; discriminate.
  - split; [exact Ha|exact Hg2].
Defined.

(** ** C9: the grace counter stays within [0, interval] *)

(** C9: for a configuration with [interval >= 1], the grace counter is
    [interval] after construction; a tick that starts with the counter
    within [0, interval] either decrements a strictly positive counter or
    resets it to [interval - 1]; hence the counter is within
    [0, interval] after construction and after every tick. *)
Theorem C9_grace_ticks_range {L : Py.Libm} c (Hint : 1 <= interval c) :
  (forall w s w', Senpai.init c w = Some (s, w') ->
     Senpai.grace_ticks s = interval c) /\
  (forall s w s' w',
     Senpai.conf s = c -> 0 <= Senpai.grace_ticks s <= interval c ->
     Senpai.tick s w = Some (s', w') ->
     (0 < Senpai.grace_ticks s /\ Senpai.grace_ticks s' = Senpai.grace_ticks s - 1) \/
     Senpai.grace_ticks s' = interval c - 1) /\
  (forall envs w s w', Senpai.main c envs w = Some (s, w') ->
     0 <= Senpai.grace_ticks s <= interval c).
Proof.
  assert (Hstep : forall s w s' w',
     Senpai.conf s = c -> 0 <= Senpai.grace_ticks s <= interval c ->
     Senpai.tick s w = Some (s', w') ->
     (0 < Senpai.grace_ticks s /\ Senpai.grace_ticks s' = Senpai.grace_ticks s - 1) \/
     Senpai.grace_ticks s' = interval c - 1).
  { intros s w s' w' Hc Hr H. apply tick_inv in H.
    destruct H as (lim & p & total & evs & _ & _ & _ & _ & Hcase).
    rewrite <- Hc in *.
    destruct Hcase as [adj evs0 _ _ _ _ _ Hg|_ Hnz _ Hg _|adj evs0 _ _ _ _ _ _ Hg].
    - now right.
    - left. lia.
    - now right. }
  split; [|split].
  - intros w s w' H. now apply init_inv in H.
  - exact Hstep.
  - intros envs w s w'. unfold Senpai.main, bind at 1.
    destruct (Senpai.init c w) as [[s0 w0]|] eqn:E; [|discriminate].
    apply init_inv in E. destruct E as ((Hc & _) & _ & Hg).
    assert (H0 : 0 <= Senpai.grace_ticks s0 <= interval c) by lia.
    clear Hg. revert s0 w0 Hc H0.
    induction envs as [|env envs IH]; intros s0 w0 Hc H0 H.
    + inversion H; now subst.
    + rewrite run_cons in H.
      destruct (Senpai.tick s0 _) as [[s1 w1]|] eqn:E; [|discriminate].
      assert (Hc1 : Senpai.conf s1 = c).
      { apply tick_inv in E. destruct E as (? & ? & ? & ? & _ & _ & Hc1 & _). congruence. }
      apply (IH s1 w1 Hc1); [|exact H].
      destruct (Hstep _ _ _ _ Hc H0 E) as [[Hp Hg]|Hg]; lia.
Qed.

Lemma C9_witness :
  1 <= interval (default_conf "/cg") /\
  forall envs w s w', Senpai.main (default_conf "/cg") envs w = Some (s, w') ->
     0 <= Senpai.grace_ticks s <= interval (default_conf "/cg").
Proof.
  split; [cbn; lia|].
  apply (C9_grace_ticks_range (default_conf "/cg")). cbn. lia.
Defined.

(** ** The floats of the program *)

Section PrimFloats.
Local Open Scope R_scope.

Lemma SFcompare_refl y : y <> S754_nan -> SFcompare y y = Some Eq.
Proof.
  destruct y as [s|s| |s m e]; intros H; try congruence; cbn.
  - reflexivity.
  - now destruct s.
  - rewrite Z.compare_refl, Pos.compare_cont_refl. now destruct s.
Qed.

Lemma is_nan_spec f :
  PrimFloat.is_nan f = match Prim2SF f with S754_nan => true | _ => false end.
Proof.
  unfold PrimFloat.is_nan. rewrite eqb_spec. unfold SFeqb.
  destruct (Prim2SF f) eqn:E; try (rewrite SFcompare_refl by discriminate); reflexivity.
Qed.

Lemma is_infinity_spec f :
  PrimFloat.is_infinity f = Py.SF_is_infinity (Prim2SF f).
Proof.
  unfold PrimFloat.is_infinity. rewrite eqb_spec, abs_spec.
  change (Prim2SF infinity) with (S754_infinity false).
  now destruct (Prim2SF f) as [s|s| |s m e].
Qed.

Lemma is_finite_spec f : PrimFloat.is_finite f = Ffin f.
Proof.
  unfold PrimFloat.is_finite, Ffin. rewrite is_nan_spec, is_infinity_spec.
  now destruct (Prim2SF f).
Qed.

Lemma rounds_SF2Prim s r y :
  rounds s r y -> Prim2SF (SF2Prim y) = y.
Proof. intros H. apply Prim2SF_SF2Prim. now apply rounds_inv in H. Qed.

(** A result that is not an infinity is the finite float announced. *)
Lemma rounds_frounds s x r y :
  RND x r -> rounds s r y -> Py.SF_is_infinity y = false ->
  frounds s x (SF2Prim y).
Proof.
  intros Hx Hr Hi. unfold frounds, Ffin, Fsign, Fmag.
  rewrite (rounds_SF2Prim _ _ _ Hr).
  apply rounds_inv in Hr. destruct Hr as (Hs & _ & [(Hf & Hm & _)|[-> _]]).
  - rewrite Hm. auto.
  - discriminate.
Qed.

Lemma frounds_lt_1024 s x f : frounds s x f -> Fmag f < bpow 1024.
Proof.
  intros (Hf & _ & _). unfold Ffin, Fmag in *.
  pose proof (Prim2SF_valid f) as Hv.
  destruct (Prim2SF f) as [s'|s'| |s' m e]; try discriminate; cbn.
  - apply bpow_pos.
  - now apply bounded_lt_1024.
Qed.

Lemma RND_Fmag f : RND (Fmag f) (Fmag f).
Proof. apply RND_SFmag, Prim2SF_valid. Qed.

Lemma SF_truediv_spec a b :
  b <> 0%Z ->
  exists r, RND (IZR (Z.abs a) / IZR (Z.abs b)) r /\
            rounds (xorb (a <? 0)%Z (b <? 0)%Z) r (Py.SF_truediv a b).
Proof.
  intros Hb. unfold Py.SF_truediv.
  destruct (Z.abs a) as [|ma|ma] eqn:Ea; [| |lia].
  - exists 0. split; [left; split; [unfold Rdiv; ring|reflexivity]|].
    now apply rounds_zero.
  - destruct (Z.abs b) as [|mb|mb] eqn:Eb; [lia| |lia].
    destruct (SFdiv_finite_spec (xorb (a <? 0)%Z (b <? 0)%Z) ma 0 false mb 0) as (r & Hr & Hrs).
    rewrite xorb_false_r in Hrs. exists r. split; [|exact Hrs].
    change (bpow 0) with 1 in Hr. now rewrite !Rmult_1_r in Hr.
Qed.

Theorem int_truediv_spec a b f :
  Py.int_truediv a b = Some f ->
  b <> 0%Z /\ frounds (xorb (a <? 0)%Z (b <? 0)%Z) (IZR (Z.abs a) / IZR (Z.abs b)) f.
Proof.
  unfold Py.int_truediv. destruct (Z.eqb_spec b 0) as [|Hb]; [discriminate|].
  destruct (Py.SF_is_infinity _) eqn:Hi; [discriminate|].
  intros H; inversion H; subst; clear H. split; [assumption|].
  destruct (SF_truediv_spec a b Hb) as (r & Hr & Hrs).
  eapply rounds_frounds; eauto.
Qed.

Theorem float_of_int_spec n f :
  Py.float_of_int n = Some f -> frounds (n <? 0)%Z (IZR (Z.abs n)) f.
Proof.
  unfold Py.float_of_int. destruct (Py.SF_is_infinity _) eqn:Hi; [discriminate|].
  intros H; inversion H; subst; clear H.
  destruct (binary_normalize_spec n 0) as (r & Hr & Hrs).
  change (bpow 0) with 1 in Hr. rewrite Rmult_1_r in Hr.
  eapply rounds_frounds; eauto.
Qed.

(** The product of two finite floats: the rounded product of the
    magnitudes, or an infinity when that is out of range. *)
Theorem mul_spec_fin x y :
  Ffin x = true -> Ffin y = true ->
  exists r, RND (Fmag x * Fmag y) r /\
    (frounds (xorb (Fsign x) (Fsign y)) (Fmag x * Fmag y) (x * y)%float /\ r < bpow 1024 \/
     Prim2SF (x * y)%float = S754_infinity (xorb (Fsign x) (Fsign y)) /\ bpow 1024 <= r).
Proof.
  intros Hx Hy. unfold frounds, Ffin, Fsign, Fmag in *. rewrite mul_spec.
  destruct (SFmul_spec _ _ Hx Hy (Prim2SF_valid x) (Prim2SF_valid y)) as (r & Hr & Hrs).
  exists r. split; [assumption|].
  apply rounds_inv in Hrs. unfold SF64mul.
  destruct Hrs as (Hs & _ & [(Hf & Hm & Hlt)|[-> Hge]]).
  - left. rewrite Hm. auto.
  - right. auto.
Qed.

(** The quotient of two finite floats, the divisor at least 1 in
    magnitude. *)
Theorem div_spec_fin x y :
  Ffin x = true -> Ffin y = true -> 1 <= Fmag y ->
  frounds (xorb (Fsign x) (Fsign y)) (Fmag x / Fmag y) (x / y)%float.
Proof.
  intros Hx Hy H1. unfold frounds, Ffin, Fsign, Fmag in *. rewrite div_spec.
  unfold SF64div.
  pose proof (Prim2SF_valid x) as Hvx.
  destruct (Prim2SF x) as [sx|sx| |sx mx ex] eqn:Ex; try discriminate;
    destruct (Prim2SF y) as [sy|sy| |sy my ey] eqn:Ey; try discriminate;
    cbn [SFmag SFsign] in *; try lra.
  - cbn. repeat split. left. split; [unfold Rdiv; ring|reflexivity].
  - destruct (SFdiv_finite_spec sx mx ex sy my ey) as (r & Hr & Hrs).
    assert (Hle : r <= IZR (Zpos mx) * bpow ex).
    { eapply RND_monotone; [exact Hr | apply (RND_SFmag (S754_finite sx mx ex) Hvx) |].
      cbn [SFmag].
      assert (0 <= IZR (Zpos mx) * bpow ex).
      { pose proof (bpow_pos ex). assert (0 < IZR (Zpos mx)) by (apply IZR_lt; lia). nra. }
      apply Rmult_le_reg_r with (IZR (Zpos my) * bpow ey); [lra|].
      unfold Rdiv. rewrite Rmult_assoc, Rinv_l by lra. nra. }
    pose proof (bounded_lt_1024 mx ex Hvx) as Hlt.
    apply rounds_inv in Hrs.
    destruct Hrs as (Hs & _ & [(Hf & Hm & _)|[_ Hge]]); [|lra].
    rewrite Hm. auto.
Qed.

(** The order of two finite non-negative floats is that of their
    magnitudes. *)
Lemma ltb_nonneg x y :
  Ffin x = true -> Ffin y = true -> Fnonneg x = true -> Fnonneg y = true ->
  ((x <? y)%float = true <-> Fmag x < Fmag y) /\
  ((x <=? y)%float = true <-> Fmag x <= Fmag y).
Proof.
  intros Hx Hy Hnx Hny. rewrite ltb_spec, leb_spec. unfold SFltb, SFleb.
  pose proof (SFcompare_nonneg _ _ Hx Hy (Prim2SF_valid x) (Prim2SF_valid y) Hnx Hny) as H.
  unfold Fmag. destruct (SFcompare _ _) as [[]|]; [| | |contradiction];
    split; split; intros H'; try discriminate; try reflexivity; lra.
Qed.

End PrimFloats.

(** ** Faithful rounding *)

Section Faithful.
Local Open Scope R_scope.

Lemma RND_faithful x r : RND x r -> faithful x r.
Proof.
  intros H f [Hf _]. split; intros Hle.
  - exact (RND_monotone _ _ _ _ Hf H Hle).
  - exact (RND_monotone _ _ _ _ H Hf Hle).
Qed.

Lemma faithful_exact v r : is_float v -> faithful v r -> r = v.
Proof.
  intros Hv H. destruct (H v Hv) as [H1 H2].
  apply Rle_antisym; [apply H2 | apply H1]; apply Rle_refl.
Qed.

Lemma is_float_Fmag f : Ffin f = true -> is_float (Fmag f).
Proof.
  intros Hf. split; [apply RND_Fmag|].
  apply (frounds_lt_1024 (Fsign f) (Fmag f)). repeat split; auto. apply RND_Fmag.
Qed.

Lemma is_float_bpow k : (-1074 <= k < 1024)%Z -> is_float (bpow k).
Proof.
  intros Hk. split; [apply RND_bpow; lia | apply bpow_lt; lia].
Qed.

(** Two faithful roundings are ordered as soon as a number that is its
    own rounding lies between what they round. *)
Lemma faithful_le v1 r1 v2 r2 f :
  RND f f -> v1 <= f <= v2 ->
  faithful v1 r1 -> faithful v2 r2 -> is_float r1 -> r1 <= r2.
Proof.
  intros Hf [H1 H2] F1 F2 Hr1.
  destruct (Rlt_le_dec f (bpow 1024)) as [Hlt|Hge].
  - assert (Hff : is_float f) by (split; assumption).
    apply Rle_trans with f; [now apply (F1 f Hff) | now apply (F2 f Hff)].
  - apply (F2 r1 Hr1). destruct Hr1 as [_ Hr1]. lra.
Qed.

(** A finite float is determined by its sign and its magnitude. *)
Lemma float_eq x y :
  Ffin x = true -> Ffin y = true -> Fsign x = Fsign y -> Fmag x = Fmag y -> x = y.
Proof.
  intros Hx Hy Hs Hm.
  rewrite <- (SF2Prim_Prim2SF x), <- (SF2Prim_Prim2SF y). f_equal.
  pose proof (Prim2SF_valid x) as Vx. pose proof (Prim2SF_valid y) as Vy.
  unfold Ffin, Fsign, Fmag in *.
  destruct (Prim2SF x) as [sx|sx| |sx mx ex], (Prim2SF y) as [sy|sy| |sy my ey];
    try discriminate; cbn in Hs, Hm, Vx, Vy; subst.
  - reflexivity.
  - pose proof (bpow_pos ey). assert (0 < IZR (Zpos my)) by (apply IZR_lt; lia). nra.
  - pose proof (bpow_pos ex). assert (0 < IZR (Zpos mx)) by (apply IZR_lt; lia). nra.
  - assert (He : ex = ey).
    { destruct (Z.lt_total ex ey) as [Hl|[He|Hl]]; [|assumption|].
      - pose proof (bounded_exp_lt _ _ _ _ Vx Vy Hl). lra.
      - pose proof (bounded_exp_lt _ _ _ _ Vy Vx Hl). lra. }
    subst ey. pose proof (bpow_pos ex).
    assert (E : IZR (Zpos mx) = IZR (Zpos my)) by nra.
    apply eq_IZR in E. congruence.
Qed.

(** The correctly rounded square is an accurate [pow]. *)
Lemma exact_libm_accurate : AccuratePow exact_libm.
Proof.
  split; intros v Hv Hs Hm; cbn [Py.pow2 exact_libm fst snd];
    destruct (mul_spec_fin v v Hv Hv) as (r & Hr & [[(Hf & Hsg & Hrr) Hlt]|[Hinf Hge]]);
    rewrite Hs in *; cbn [xorb] in *.
  - split; [assumption|]. rewrite is_nan_spec. unfold Ffin in Hf.
    now destruct (Prim2SF (v * v)%float).
  - rewrite is_nan_spec. unfold Fsign. rewrite Hinf. split; reflexivity.
  - left. split; [assumption|]. split; [reflexivity|]. now apply RND_faithful.
  - right. split; [assumption|]. intros f [Hff Hf1024].
    destruct (Rlt_le_dec f (Fmag v * Fmag v)) as [|Hle]; [assumption|].
    pose proof (RND_monotone _ _ _ _ Hr Hff Hle). lra.
Qed.

#[export] Existing Instance exact_libm_accurate.

End Faithful.

(** ** Squares of neighbouring floats *)

Section Squares.
Local Open Scope R_scope.

(** An integer of 52 or 53 bits, scaled into the normal range, is its
    own rounding. *)
Lemma RND_wide_scaled n e :
  (2 ^ 51 <= n < 2 ^ 53)%Z -> (-1073 <= e)%Z ->
  RND (IZR n * bpow e) (IZR n * bpow e).
Proof.
  intros Hn He. right.
  pose proof (bpow_pos e) as Hpe.
  assert (Hn0 : 0 < IZR n) by (apply IZR_lt; lia).
  split; [nra|].
  destruct (Z_lt_le_dec n (2 ^ 52)) as [Hlo|Hhi].
  - apply (rounded_exact _ (52 + e) (2 * n)).
    + replace (52 + e - 1)%Z with (51 + e)%Z by lia.
      rewrite !bpow_add, (bpow_IZR 51), (bpow_IZR 52) by lia.
      destruct Hn as [H1 _]. apply IZR_le in H1. apply IZR_lt in Hlo.
      split; [apply Rmult_le_compat_r | apply Rmult_lt_compat_r]; lra.
    + rewrite fexp_eq. replace (Z.max (52 + e - 53) (-1074)) with (e - 1)%Z by lia.
      rewrite mult_IZR.
      replace (bpow e) with (2 * bpow (e - 1)) by (rewrite <- bpow_succ; f_equal; lia).
      ring.
  - apply (rounded_exact _ (53 + e) n).
    + replace (53 + e - 1)%Z with (52 + e)%Z by lia.
      rewrite !bpow_add, (bpow_IZR 52), (bpow_IZR 53) by lia.
      destruct Hn as [_ H2]. apply IZR_le in Hhi. apply IZR_lt in H2.
      split; [apply Rmult_le_compat_r | apply Rmult_lt_compat_r]; lra.
    + rewrite fexp_eq. replace (Z.max (53 + e - 53) (-1074)) with e by lia.
      reflexivity.
Qed.

(** Between the squares of two distinct floats, the smaller square in
    the normal range, lies a number that is its own rounding: squares
    of neighbours are further apart than the floats around them. *)
Lemma squares_separated m1 e1 m2 e2 :
  SpecFloat.bounded prec emax m1 e1 = true ->
  SpecFloat.bounded prec emax m2 e2 = true ->
  IZR (Zpos m1) * bpow e1 < IZR (Zpos m2) * bpow e2 ->
  bpow (-1022) <= (IZR (Zpos m1) * bpow e1) * (IZR (Zpos m1) * bpow e1) ->
  exists f, RND f f /\
    (IZR (Zpos m1) * bpow e1) * (IZR (Zpos m1) * bpow e1) <= f <=
    (IZR (Zpos m2) * bpow e2) * (IZR (Zpos m2) * bpow e2).
Proof.
  intros B1 B2 Hlt Hn.
  pose proof (bpow_pos e1) as Hp1. pose proof (bpow_pos e2) as Hp2.
  assert (Hm1 : 0 < IZR (Zpos m1)) by (apply IZR_lt; lia).
  assert (Hm2 : 0 < IZR (Zpos m2)) by (apply IZR_lt; lia).
  (* the smaller float is normal, well above the subnormal range *)
  pose proof (pos_mag m1 e1) as [_ Hup].
  pose proof (digits2_pos_bounds m1) as [Dlo Dhi].
  apply bounded_eq in B1. destruct B1 as [C1 Emax1].
  set (d := Zpos (digits2_pos m1)) in *.
  assert (Hd : (d <= 53)%Z) by (clear - C1; lia).
  assert (He1 : (-564 < e1)%Z).
  { apply Z.lt_nge. intros Hc.
    assert (bpow (d + e1) <= bpow (-511)) by (apply bpow_le; lia).
    assert (H0 : IZR (Zpos m1) * bpow e1 < bpow (-511)) by lra.
    assert (H1 : (IZR (Zpos m1) * bpow e1) * (IZR (Zpos m1) * bpow e1) < bpow (-511) * bpow (-511)).
    { assert (0 < IZR (Zpos m1) * bpow e1) by (apply Rmult_lt_0_compat; assumption).
      apply Rmult_le_0_lt_compat; lra. }
    rewrite <- bpow_add in H1. change (-511 + -511)%Z with (-1022)%Z in H1. lra. }
  assert (Hd53 : d = 53%Z) by lia.
  rewrite Hd53 in Dlo, Dhi. change (53 - 1)%Z with 52%Z in Dlo.
  (* the larger one has at least its exponent *)
  assert (He : (e1 <= e2)%Z).
  { apply Z.le_ngt. intros Hc.
    assert (B1' : SpecFloat.bounded prec emax m1 e1 = true).
    { apply bounded_eq. fold d. split; lia. }
    pose proof (bounded_exp_lt _ _ _ _ B2 B1' Hc). lra. }
  set (M2 := (Zpos m2 * 2 ^ (e2 - e1))%Z).
  assert (EM2 : IZR (Zpos m2) * bpow e2 = IZR M2 * bpow e1).
  { unfold M2. rewrite mult_IZR, <- bpow_IZR by lia.
    rewrite Rmult_assoc, <- bpow_add. do 2 f_equal. lia. }
  assert (HM2 : (Zpos m1 + 1 <= M2)%Z).
  { rewrite EM2 in Hlt. apply Rmult_lt_reg_r in Hlt; [|assumption].
    apply lt_IZR in Hlt. lia. }
  set (K := (Zpos m1 * Zpos m1 / 2 ^ 53 + 1)%Z).
  pose proof (Z.div_mod (Zpos m1 * Zpos m1) (2 ^ 53) ltac:(lia)) as Hdm.
  pose proof (Z.mod_pos_bound (Zpos m1 * Zpos m1) (2 ^ 53) ltac:(lia)) as Hmod.
  assert (HK1 : (Zpos m1 * Zpos m1 <= K * 2 ^ 53)%Z) by (unfold K; lia).
  assert (HK2 : (K * 2 ^ 53 <= M2 * M2)%Z).
  { assert (K * 2 ^ 53 <= Zpos m1 * Zpos m1 + 2 ^ 53)%Z by (unfold K; lia).
    assert ((Zpos m1 + 1) * (Zpos m1 + 1) <= M2 * M2)%Z by nia.
    nia. }
  assert (HKr : (2 ^ 51 <= K < 2 ^ 53)%Z).
  { split.
    - assert (2 ^ 52 * 2 ^ 52 <= Zpos m1 * Zpos m1)%Z by nia.
      assert (2 ^ 51 <= Zpos m1 * Zpos m1 / 2 ^ 53)%Z.
      { apply Z.div_le_lower_bound; [lia|].
        change (2 ^ 53 * 2 ^ 51)%Z with (2 ^ 52 * 2 ^ 52)%Z. assumption. }
      unfold K. lia.
    - assert (Zpos m1 * Zpos m1 <= (2 ^ 53 - 1) * (2 ^ 53 - 1))%Z by nia.
      assert (Zpos m1 * Zpos m1 / 2 ^ 53 < 2 ^ 53 - 1)%Z.
      { apply Z.div_lt_upper_bound; [lia|]. lia. }
      unfold K. lia. }
  exists (IZR K * bpow (53 + 2 * e1)). split.
  - apply RND_wide_scaled; [assumption | lia].
  - rewrite EM2.
    replace (53 + 2 * e1)%Z with (53 + (e1 + e1))%Z by lia.
    rewrite !bpow_add, (bpow_IZR 53) by lia.
    apply IZR_le in HK1, HK2. rewrite !mult_IZR in HK1, HK2.
    assert (Hpp : 0 < bpow e1 * bpow e1) by nra.
    split.
    + replace (IZR (Zpos m1) * bpow e1 * (IZR (Zpos m1) * bpow e1))
        with (IZR (Zpos m1) * IZR (Zpos m1) * (bpow e1 * bpow e1)) by ring.
      replace (IZR K * (IZR (2 ^ 53) * (bpow e1 * bpow e1)))
        with (IZR K * IZR (2 ^ 53) * (bpow e1 * bpow e1)) by ring.
      apply Rmult_le_compat_r; lra.
    + replace (IZR M2 * bpow e1 * (IZR M2 * bpow e1))
        with (IZR M2 * IZR M2 * (bpow e1 * bpow e1)) by ring.
      replace (IZR K * (IZR (2 ^ 53) * (bpow e1 * bpow e1)))
        with (IZR K * IZR (2 ^ 53) * (bpow e1 * bpow e1)) by ring.
      apply Rmult_le_compat_r; lra.
Qed.

Lemma Fmag_squares_separated q1 q2 :
  Ffin q2 = true -> Fmag q1 < Fmag q2 ->
  bpow (-1022) <= Fmag q1 * Fmag q1 ->
  exists f, RND f f /\ Fmag q1 * Fmag q1 <= f <= Fmag q2 * Fmag q2.
Proof.
  intros H2 Hlt Hn.
  pose proof (Prim2SF_valid q1) as V1. pose proof (Prim2SF_valid q2) as V2.
  pose proof (bpow_pos (-1022)) as Hp.
  unfold Ffin, Fmag in *.
  destruct (Prim2SF q1) as [s1|s1| |s1 m1 e1]; cbn [SFmag] in *; try lra.
  destruct (Prim2SF q2) as [s2|s2| |s2 m2 e2]; cbn [SFmag] in *; try discriminate.
  - pose proof (bpow_pos e1). assert (0 < IZR (Zpos m1)) by (apply IZR_lt; lia). nra.
  - apply squares_separated; assumption.
Qed.

End Squares.

(** ** The adjustment factors *)

Section Factors.
Local Open Scope R_scope.

Lemma backoff_adj_eq {L : Py.Libm} c i :
  Senpai.backoff_adj c i = adjustment i (pressure c) (coeff_backoff c) (max_backoff c).
Proof. reflexivity. Qed.

Lemma probe_adj_eq {L : Py.Libm} c i :
  Senpai.probe_adj c i =
  adjustment (pressure c) (Py.int_max i 1) (coeff_probe c) (max_probe c).
Proof. reflexivity. Qed.

Lemma step_ok_nonneg step : step_ok step -> Ffin step = true /\ Fnonneg step = true.
Proof.
  intros [Hf Hle]. rewrite is_finite_spec in Hf. split; [assumption|].
  rewrite leb_spec in Hle. change (Prim2SF 0) with (S754_zero false) in Hle.
  unfold Ffin, Fnonneg in *.
  destruct (Prim2SF step) as [s|s| |[] m e]; try discriminate; reflexivity.
Qed.

Lemma frounds_fin s x f : frounds s x f -> Ffin f = true.
Proof. now intros (H & _). Qed.

Lemma float_div_int_spec err c q :
  Ffin err = true ->
  Py.float_div_int err c = Some q ->
  c <> 0%Z /\
  exists cf, frounds (c <? 0)%Z (IZR (Z.abs c)) cf /\ 1 <= Fmag cf /\
             frounds (xorb (Fsign err) (c <? 0)%Z) (Fmag err / Fmag cf) q.
Proof.
  intros Herr. unfold Py.float_div_int, Py.float_truediv.
  destruct (Py.float_of_int c) as [cf|] eqn:Ec; [|discriminate].
  destruct (cf =? 0)%float eqn:Ez; [discriminate|].
  intros H; inversion H; subst; clear H.
  assert (Hc : c <> 0%Z).
  { intros ->. vm_compute in Ec. inversion Ec; subst. vm_compute in Ez. discriminate. }
  split; [assumption|].
  pose proof (float_of_int_spec _ _ Ec) as Hcf.
  assert (H1 : 1 <= Fmag cf).
  { destruct Hcf as (_ & _ & Hr).
    eapply RND_monotone; [apply (RND_bpow 0); lia | exact Hr |].
    change (bpow 0) with 1. apply (IZR_le 1). lia. }
  exists cf. split; [exact Hcf|]. split; [exact H1|].
  destruct Hcf as (Hf & Hs & _).
  destruct (div_spec_fin err cf Herr Hf H1) as (Hfq & Hsq & Hrq).
  rewrite Hs in Hsq. repeat split; assumption.
Qed.

Lemma abs_spec_fin x :
  Ffin (abs x) = Ffin x /\ Fsign (abs x) = false /\ Fmag (abs x) = Fmag x.
Proof. unfold Ffin, Fsign, Fmag. rewrite abs_spec. now destruct (Prim2SF x). Qed.

Lemma eqb_zero_iff f : Ffin f = true -> (f =? 0)%float = true <-> Fmag f = 0.
Proof.
  unfold Ffin, Fmag. rewrite eqb_spec. change (Prim2SF 0) with (S754_zero false).
  destruct (Prim2SF f) as [s|s| |s m e]; cbn; intros Hf; try discriminate.
  - split; reflexivity.
  - pose proof (bpow_pos e). assert (0 < IZR (Zpos m)) by (apply IZR_lt; lia).
    split; [destruct s; discriminate | nra].
Qed.

Lemma Fmag_one : Fmag 1%float = 1.
Proof.
  unfold Fmag. change (Prim2SF 1%float) with (S754_finite false 4503599627370496 (-52)).
  cbn [SFmag]. change 4503599627370496%Z with (2 ^ 52)%Z.
  rewrite <- bpow_IZR by lia. apply bpow_opp_r.
Qed.

Lemma fin_nonneg f : Ffin f = true -> Fsign f = false -> Fnonneg f = true.
Proof.
  unfold Ffin, Fsign, Fnonneg.
  destruct (Prim2SF f) as [s|s| |s m e]; cbn; intros H1 H2; subst; try discriminate; reflexivity.
Qed.

Lemma eqb_one_iff v :
  Ffin v = true -> Fsign v = false -> (v =? 1)%float = true <-> Fmag v = 1.
Proof.
  intros Hf Hs. rewrite eqb_spec. unfold SFeqb.
  pose proof (SFcompare_nonneg _ _ Hf (eq_refl : Ffin 1%float = true)
                (Prim2SF_valid v) (Prim2SF_valid 1%float)
                (fin_nonneg v Hf Hs) eq_refl) as H.
  fold (Fmag v) in H. fold (Fmag 1%float) in H. rewrite Fmag_one in H.
  destruct (SFcompare _ _) as [[]|]; split; intros H'; try discriminate;
    try reflexivity; try lra; contradiction.
Qed.

(** [x ** 2] for a finite [x], case by case.  A zero gives zero.
    Otherwise the result, when there is one, is a finite non-negative
    float, a faithful rounding of the square where the square does not
    underflow; and [OverflowError] there means that the square lies
    above every finite float. *)
Lemma float_square_cases {L : Py.Libm} {A : AccuratePow L} q :
  Ffin q = true ->
  Fmag q = 0 /\ Py.float_square q = Some 0%float \/
  0 < Fmag q /\
  match Py.float_square q with
  | Some a =>
      Ffin a = true /\ Fsign a = false /\
      (bpow (-1022) <= Fmag q * Fmag q -> faithful (Fmag q * Fmag q) (Fmag a))
  | None =>
      bpow (-1022) <= Fmag q * Fmag q ->
      forall f, is_float f -> f < Fmag q * Fmag q
  end.
Proof.
  intros Hq.
  assert (Hnan : PrimFloat.is_nan q = false).
  { rewrite is_nan_spec. unfold Ffin in Hq. now destruct (Prim2SF q). }
  assert (Hinf : PrimFloat.is_infinity q = false).
  { rewrite is_infinity_spec. unfold Ffin in Hq. now destruct (Prim2SF q). }
  unfold Py.float_square. rewrite Hnan, Hinf.
  destruct (q =? 0)%float eqn:Ez.
  { left. split; [now apply eqb_zero_iff | reflexivity]. }
  right.
  assert (Hpos : 0 < Fmag q).
  { pose proof (SFmag_nonneg (Prim2SF q)) as H0. fold (Fmag q) in H0.
    destruct (Req_dec (Fmag q) 0) as [E|E]; [|lra].
    apply (eqb_zero_iff q Hq) in E. congruence. }
  split; [assumption|].
  destruct (abs_spec_fin q) as (Hfv & Hsv & Hmv). rewrite Hq in Hfv.
  set (v := abs q) in *.
  destruct (v =? 1)%float eqn:E1.
  { apply (eqb_one_iff v Hfv Hsv) in E1. rewrite Hmv in E1.
    split; [reflexivity|]. split; [reflexivity|]. intros _.
    rewrite E1, Fmag_one. apply RND_faithful.
    rewrite Rmult_1_r. change 1 with (bpow 0). apply RND_bpow. lia. }
  assert (Hpv : 0 < Fmag v) by (rewrite Hmv; assumption).
  pose proof (pow2_sign v Hfv Hsv Hpv) as [Hsr Hnr].
  pose proof (pow2_faithful v Hfv Hsv) as Hacc. rewrite Hmv in Hacc.
  destruct (Py.pow2 v) as [r e]. cbn [fst snd] in *.
  destruct (PrimFloat.is_infinity r) eqn:Ei.
  { intros Hn. destruct (Hacc Hn) as [(Hf & _)|(_ & Hall)]; [|assumption].
    rewrite is_infinity_spec in Ei. unfold Ffin in Hf.
    destruct (Prim2SF r); discriminate. }
  assert (Hfr : Ffin r = true).
  { rewrite is_nan_spec in Hnr. rewrite is_infinity_spec in Ei. unfold Ffin.
    destruct (Prim2SF r); try discriminate; reflexivity. }
  destruct (e && negb (r =? 0)%float) eqn:Ee.
  { intros Hn. destruct (Hacc Hn) as [(_ & He & _)|(Hi & _)].
    - rewrite He in Ee. discriminate.
    - rewrite is_infinity_spec, Hi in Ei. discriminate. }
  split; [assumption|]. split; [assumption|]. intros Hn.
  destruct (Hacc Hn) as [(_ & _ & Hfa)|(Hi & _)]; [assumption|].
  rewrite is_infinity_spec, Hi in Ei. discriminate.
Qed.

Lemma float_square_spec {L : Py.Libm} {A : AccuratePow L} q a :
  Ffin q = true ->
  Py.float_square q = Some a ->
  Ffin a = true /\ Fsign a = false /\
  (Fmag q = 0 -> Fmag a = 0) /\
  (bpow (-1022) <= Fmag q * Fmag q -> faithful (Fmag q * Fmag q) (Fmag a)).
Proof.
  intros Hq E. pose proof (bpow_pos (-1022)) as Hp.
  destruct (float_square_cases q Hq) as [[H0 E0]|[Hpos H]].
  - rewrite E0 in E. inversion E; subst.
    split; [reflexivity|]. split; [reflexivity|]. split.
    + intros _. unfold Fmag. reflexivity.
    + rewrite H0, Rmult_0_l. intros. lra.
  - rewrite E in H. destruct H as (Hf & Hs & Hfa).
    split; [assumption|]. split; [assumption|]. split; [intros; lra | assumption].
Qed.

(** The square depends on the magnitude only. *)
Lemma float_square_mag {L : Py.Libm} q1 q2 :
  Ffin q1 = true -> Ffin q2 = true -> Fmag q1 = Fmag q2 ->
  Py.float_square q1 = Py.float_square q2.
Proof.
  intros H1 H2 Hm.
  assert (Hnan : forall q, Ffin q = true -> PrimFloat.is_nan q = false).
  { intros q Hq. rewrite is_nan_spec. unfold Ffin in Hq. now destruct (Prim2SF q). }
  assert (Hinf : forall q, Ffin q = true -> PrimFloat.is_infinity q = false).
  { intros q Hq. rewrite is_infinity_spec. unfold Ffin in Hq. now destruct (Prim2SF q). }
  unfold Py.float_square. rewrite !Hnan, !Hinf by assumption.
  assert (Ez : (q1 =? 0)%float = (q2 =? 0)%float).
  { pose proof (eqb_zero_iff q1 H1) as I1. pose proof (eqb_zero_iff q2 H2) as I2.
    rewrite Hm in I1.
    destruct (q1 =? 0)%float, (q2 =? 0)%float; try reflexivity.
    - symmetry. apply I2, I1. reflexivity.
    - apply I1, I2. reflexivity. }
  rewrite Ez.
  assert (Ev : abs q1 = abs q2).
  { destruct (abs_spec_fin q1) as (F1 & S1 & M1), (abs_spec_fin q2) as (F2 & S2 & M2).
    apply float_eq; congruence. }
  rewrite Ev. reflexivity.
Qed.

(** A square that is itself a float, in the normal range, comes out
    exactly. *)
Lemma float_square_exact {L : Py.Libm} {A : AccuratePow L} q a :
  Ffin q = true -> Ffin a = true -> Fsign a = false ->
  Fmag q * Fmag q = Fmag a -> bpow (-1022) <= Fmag a ->
  Py.float_square q = Some a.
Proof.
  intros Hq Ha Hs Hm Hn. pose proof (bpow_pos (-1022)) as Hp.
  pose proof (is_float_Fmag a Ha) as Hfl.
  destruct (float_square_cases q Hq) as [[H0 _]|[_ H]].
  { rewrite H0 in Hm. lra. }
  rewrite Hm in H.
  destruct (Py.float_square q) as [b|].
  - destruct H as (Hfb & Hsb & Hfa). f_equal.
    apply float_eq; try congruence.
    apply (faithful_exact _ _ Hfl (Hfa Hn)).
  - specialize (H Hn _ Hfl). lra.
Qed.

Lemma mag_product m1 e1 m2 e2 m e :
  (0 <= e - e1 - e2)%Z -> (m1 * m2 = m * 2 ^ (e - e1 - e2))%Z ->
  IZR m1 * bpow e1 * (IZR m2 * bpow e2) = IZR m * bpow e.
Proof.
  intros Hd Hm.
  replace (IZR m1 * bpow e1 * (IZR m2 * bpow e2))
    with (IZR (m1 * m2) * bpow (e1 + e2)) by (rewrite mult_IZR, bpow_add; ring).
  rewrite Hm, mult_IZR, <- bpow_IZR by lia.
  rewrite Rmult_assoc, <- bpow_add. do 2 f_equal. lia.
Qed.

(** The same, read off the two floats' mantissas and exponents. *)
Lemma float_square_literal {L : Py.Libm} {A : AccuratePow L} q a s1 m1 e1 m e :
  Prim2SF q = S754_finite s1 m1 e1 -> Prim2SF a = S754_finite false m e ->
  (-1022 <= e)%Z -> (0 <= e - e1 - e1)%Z ->
  (Zpos m1 * Zpos m1 = Zpos m * 2 ^ (e - e1 - e1))%Z ->
  Py.float_square q = Some a.
Proof.
  intros Eq Ea He Hd Hm.
  apply float_square_exact; unfold Ffin, Fsign, Fmag; rewrite ?Eq, ?Ea; cbn [SFfin SFsign SFmag];
    try reflexivity.
  - now apply mag_product.
  - apply Rle_trans with (bpow e); [apply bpow_le; lia|].
    pose proof (bpow_pos e). assert (1 <= IZR (Zpos m)) by (apply (IZR_le 1); lia). nra.
Qed.

(** A quotient of at least [2^k] has a square of at least [2^(2k)]. *)
Lemma faithful_square_lower q a k :
  (-511 <= k < 512)%Z -> bpow k <= Fmag q ->
  (bpow (-1022) <= Fmag q * Fmag q -> faithful (Fmag q * Fmag q) (Fmag a)) ->
  bpow (k + k) <= Fmag a.
Proof.
  intros Hk Hq Hfl. pose proof (bpow_pos k) as Hp.
  assert (Hsq : bpow (k + k) <= Fmag q * Fmag q).
  { rewrite bpow_add. apply Rmult_le_compat; lra. }
  assert (Hn : bpow (-1022) <= Fmag q * Fmag q).
  { apply Rle_trans with (bpow (k + k)); [apply bpow_le; lia | exact Hsq]. }
  exact (proj1 (Hfl Hn (bpow (k + k)) (is_float_bpow (k + k) ltac:(lia))) Hsq).
Qed.

(** The last step, [min(adj * step, step)]: a finite non-negative float
    whose magnitude is the smaller of the step and the rounded product. *)
Lemma float_min_spec a step :
  Ffin a = true -> Fsign a = false -> Ffin step = true -> Fnonneg step = true ->
  exists r, RND (Fmag a * Fmag step) r /\
    let adj := Py.float_min (a * step) step in
    Ffin adj = true /\ Fnonneg adj = true /\ Fmag adj = Rmin r (Fmag step).
Proof.
  intros Ha Hsa Hs Hns.
  destruct (mul_spec_fin a step Ha Hs) as (r & Hr & Hcase).
  exists r. split; [assumption|]. cbv zeta. unfold Py.float_min.
  pose proof (frounds_lt_1024 _ _ _ (conj Hs (conj eq_refl (RND_Fmag step)))) as Hlt.
  destruct Hcase as [[(Hfb & Hsb & Hrb) Hr1024]|[Hinf Hr1024]].
  - assert (Hnb : Fnonneg (a * step)%float = true).
    { unfold Fnonneg, Ffin, Fsign, Fmag in *.
      destruct (Prim2SF (a * step)%float) as [s|s| |[] m e]; try discriminate; try reflexivity.
      rewrite Hsa in Hsb. cbn in Hsb.
      destruct (Prim2SF step) as [s'|s'| |[] m' e']; try discriminate.
      exfalso. cbn [SFmag] in Hrb. rewrite Rmult_0_r in Hrb.
      pose proof (RND_fun _ _ _ Hrb (or_introl (conj eq_refl eq_refl))) as E0.
      pose proof (bpow_pos e). assert (0 < IZR (Zpos m)) by (apply IZR_lt; lia). nra. }
    pose proof (RND_fun _ _ _ Hr Hrb) as Er.
    destruct (ltb_nonneg step (a * step)%float Hs Hfb Hns Hnb) as [Hltb _].
    destruct Hltb as [Hd1 Hd2].
    destruct (step <? a * step)%float eqn:E.
    + repeat split; auto. specialize (Hd1 eq_refl). rewrite Rmin_right; lra.
    + repeat split; auto. rewrite Rmin_left; [lra|].
      destruct (Rle_lt_dec r (Fmag step)) as [|Hgt]; [assumption|].
      rewrite Er in Hgt. apply Hd2 in Hgt. discriminate.
  - assert (E : (step <? a * step)%float = true).
    { rewrite ltb_spec, Hinf. unfold Ffin, Fnonneg, Fsign, Fmag in *.
      destruct (Prim2SF step) as [s'|s'| |[] m' e']; try discriminate.
      - exfalso. destruct Hr as [[_ ->]|[Hpos _]].
        + pose proof (bpow_pos 1024). lra.
        + cbn [SFmag] in Hpos. lra.
      - rewrite Hsa. reflexivity. }
    rewrite E. repeat split; auto. rewrite Rmin_right; lra.
Qed.

(** The whole computation, when it raises nothing. *)
Lemma adjustment_spec {L : Py.Libm} {A : AccuratePow L} num den coeff step adj :
  step_ok step ->
  adjustment num den coeff step = Some adj ->
  den <> 0%Z /\ coeff <> 0%Z /\
  exists err cf q a r,
    RND (IZR (Z.abs num) / IZR (Z.abs den)) (Fmag err) /\
    RND (IZR (Z.abs coeff)) (Fmag cf) /\ 1 <= Fmag cf /\
    RND (Fmag err / Fmag cf) (Fmag q) /\
    (Ffin q = true /\ Py.float_square q = Some a /\ Ffin a = true /\
     (Fmag q = 0 -> Fmag a = 0) /\
     (bpow (-1022) <= Fmag q * Fmag q -> faithful (Fmag q * Fmag q) (Fmag a))) /\
    RND (Fmag a * Fmag step) r /\
    Ffin adj = true /\ Fnonneg adj = true /\ Fmag adj = Rmin r (Fmag step).
Proof.
  intros Hstep. apply step_ok_nonneg in Hstep. destruct Hstep as [Hs Hns].
  unfold adjustment.
  destruct (Py.int_truediv num den) as [err|] eqn:E1; [|discriminate].
  destruct (Py.float_div_int err coeff) as [q|] eqn:E2; [|discriminate].
  destruct (Py.float_square q) as [a|] eqn:E3; [|discriminate].
  intros H; inversion H; subst; clear H.
  apply int_truediv_spec in E1. destruct E1 as (Hden & Herr).
  apply (float_div_int_spec _ _ _ (frounds_fin _ _ _ Herr)) in E2.
  destruct E2 as (Hc & cf & Hcf & H1 & Hq).
  destruct (float_square_spec _ _ (frounds_fin _ _ _ Hq) E3) as (Hfa & Hsa & Hza & Hra).
  destruct (float_min_spec a step Hfa Hsa Hs Hns) as (r & Hr & Hfin & Hnn & Hmag).
  split; [assumption|]. split; [assumption|].
  exists err, cf, q, a, r.
  split; [apply Herr|]. split; [apply Hcf|]. split; [assumption|].
  split; [apply Hq|]. split.
  { split; [exact (frounds_fin _ _ _ Hq)|]. split; [exact E3|].
    split; [exact Hfa|]. split; [exact Hza | exact Hra]. }
  split; [exact Hr|]. split; [exact Hfin|]. split; [exact Hnn | exact Hmag].
Qed.

(** The factor grows with the ratio it is computed from, as long as the
    smaller ratio is 0 or large enough for its square not to underflow:
    at least [2^k], with a coefficient of at most [2^j] and
    [k - j >= -511]. *)
Theorem adjustment_monotone {L : Py.Libm} {A : AccuratePow L}
    (k j : Z) num1 den1 num2 den2 coeff step adj1 adj2 :
  step_ok step ->
  IZR (Z.abs num1) / IZR (Z.abs den1) <= IZR (Z.abs num2) / IZR (Z.abs den2) ->
  IZR (Z.abs num1) / IZR (Z.abs den1) = 0 \/
  ((-1074 <= k)%Z /\ (-1074 <= j)%Z /\ (-511 <= k - j)%Z /\
   bpow k <= IZR (Z.abs num1) / IZR (Z.abs den1) /\ IZR (Z.abs coeff) <= bpow j) ->
  adjustment num1 den1 coeff step = Some adj1 ->
  adjustment num2 den2 coeff step = Some adj2 ->
  (adj1 <=? adj2)%float = true.
Proof.
  intros Hstep Hratio Hrange H1 H2.
  apply (adjustment_spec _ _ _ _ _ Hstep) in H1, H2.
  destruct H1 as (_ & _ & err1 & cf1 & q1 & a1 & r1 & He1 & Hc1 & Hg1 & Hq1 & Ha1 & Hr1 & Hf1 & Hn1 & Hm1).
  destruct H2 as (_ & _ & err2 & cf2 & q2 & a2 & r2 & He2 & Hc2 & Hg2 & Hq2 & Ha2 & Hr2 & Hf2 & Hn2 & Hm2).
  destruct Ha1 as (Hfq1 & Es1 & Hfa1 & Hz1 & Hfl1).
  destruct Ha2 as (Hfq2 & Es2 & Hfa2 & Hz2 & Hfl2).
  apply (ltb_nonneg adj1 adj2 Hf1 Hf2 Hn1 Hn2).
  rewrite Hm1, Hm2.
  assert (Herr : Fmag err1 <= Fmag err2) by (eapply RND_monotone; eauto).
  assert (Hcf : Fmag cf1 = Fmag cf2) by (eapply RND_fun; eauto).
  pose proof (RND_nonneg _ _ He1) as He1'.
  assert (Hq : Fmag q1 <= Fmag q2).
  { eapply RND_monotone; eauto. rewrite <- Hcf.
    apply Rmult_le_compat_r; [|assumption].
    apply Rlt_le, Rinv_0_lt_compat. lra. }
  pose proof (RND_nonneg _ _ Hq1) as Hq1'.
  pose proof (SFmag_nonneg (Prim2SF a2)) as Ha2'. fold (Fmag a2) in Ha2'.
  assert (Ha : Fmag a1 <= Fmag a2).
  { destruct (Req_dec (Fmag q1) (Fmag q2)) as [Eq|Nq].
    { rewrite (float_square_mag q1 q2 Hfq1 Hfq2 Eq), Es2 in Es1.
      inversion Es1; subst. apply Rle_refl. }
    destruct (Req_dec (Fmag q1) 0) as [E0|N0].
    { rewrite (Hz1 E0). assumption. }
    assert (Hnorm : bpow (-511) <= Fmag q1).
    { destruct Hrange as [R0|(Hk & Hj & Hkj & Hlo & Hhi)].
      - exfalso. apply N0. rewrite R0 in He1.
        assert (E : Fmag err1 = 0) by (eapply RND_fun; [exact He1 | left; split; reflexivity]).
        rewrite E in Hq1. unfold Rdiv in Hq1. rewrite Rmult_0_l in Hq1.
        eapply RND_fun; [exact Hq1 | left; split; reflexivity].
      - assert (Ge : bpow k <= Fmag err1).
        { eapply RND_monotone; [apply (RND_bpow k); lia | exact He1 | exact Hlo]. }
        assert (Gc : Fmag cf1 <= bpow j).
        { eapply RND_monotone; [exact Hc1 | apply (RND_bpow j); lia | exact Hhi]. }
        eapply RND_monotone; [apply (RND_bpow (-511)); lia | exact Hq1 |].
        pose proof (bpow_pos j) as Hpj. pose proof (bpow_pos k) as Hpk.
        apply Rle_trans with (bpow k / bpow j).
        + replace (bpow k / bpow j) with (bpow (k - j)).
          * apply bpow_le. lia.
          * unfold Rdiv. replace k with ((k - j) + j)%Z at 2 by lia.
            rewrite bpow_add. field. lra.
        + unfold Rdiv. apply Rmult_le_compat; try lra.
          * apply Rlt_le, Rinv_0_lt_compat. lra.
          * apply Rinv_le_contravar; lra. }
    assert (Hsq1 : bpow (-1022) <= Fmag q1 * Fmag q1).
    { change (-1022)%Z with (-511 + -511)%Z. rewrite bpow_add.
      pose proof (bpow_pos (-511)). apply Rmult_le_compat; lra. }
    assert (Hsq2 : bpow (-1022) <= Fmag q2 * Fmag q2).
    { apply Rle_trans with (Fmag q1 * Fmag q1); [assumption|].
      apply Rmult_le_compat; lra. }
    destruct (Fmag_squares_separated q1 q2 Hfq2 ltac:(lra) Hsq1) as (f & Hf & Hbetween).
    exact (faithful_le _ _ _ _ f Hf Hbetween (Hfl1 Hsq1) (Hfl2 Hsq2) (is_float_Fmag a1 Hfa1)). }
  pose proof (SFmag_nonneg (Prim2SF a1)) as Ha1'. fold (Fmag a1) in Ha1'.
  assert (Hr : r1 <= r2).
  { eapply RND_monotone; eauto. apply Rmult_le_compat_r; [|assumption].
    apply SFmag_nonneg. }
  apply Rle_min_compat_r. assumption.
Qed.

(** The factor never exceeds the step, whatever the configuration. *)
Theorem adjustment_capped {L : Py.Libm} num den coeff step adj :
  adjustment num den coeff step = Some adj -> (step <? adj)%float = false.
Proof.
  unfold adjustment.
  destruct (Py.int_truediv num den) as [err|]; [|discriminate].
  destruct (Py.float_div_int err coeff) as [q|]; [|discriminate].
  destruct (Py.float_square q) as [a|]; [|discriminate].
  intros H; inversion H; subst; clear H. unfold Py.float_min.
  destruct (step <? a * step)%float eqn:E; [|assumption].
  rewrite ltb_spec. unfold SFltb.
  destruct (Prim2SF step) eqn:Es; try reflexivity;
    rewrite SFcompare_refl by discriminate; reflexivity.
Qed.

End Factors.

(** ** When the factors are defined *)

Section Defined.
Local Open Scope R_scope.

Lemma float_of_int_defined n :
  (Z.abs n <= 2 ^ 1023)%Z -> exists f, Py.float_of_int n = Some f.
Proof.
  intros Hn. unfold Py.float_of_int, Py.SF_of_Z.
  destruct (binary_normalize_spec n 0) as (r & Hr & Hrs).
  change (bpow 0) with 1 in Hr. rewrite Rmult_1_r in Hr.
  assert (Hle : r <= bpow 1023).
  { eapply RND_monotone; [exact Hr | apply RND_bpow; lia |].
    rewrite bpow_IZR by lia. now apply IZR_le. }
  assert (bpow 1023 < bpow 1024) by (apply bpow_lt; lia).
  apply rounds_inv in Hrs. destruct Hrs as (_ & _ & [(Hf & _)|[_ Hge]]); [|lra].
  destruct (binary_normalize _ _ _ _ _) as [s|s| |s m e]; try discriminate; cbn; eauto.
Qed.

Lemma int_truediv_defined a b :
  b <> 0%Z -> (Z.abs a <= 2 ^ 64)%Z ->
  exists err, Py.int_truediv a b = Some err /\ Ffin err = true /\ Fmag err <= bpow 64.
Proof.
  intros Hb Ha.
  assert (Hq : IZR (Z.abs a) / IZR (Z.abs b) <= bpow 64).
  { rewrite bpow_IZR by lia. apply IZR_le in Ha.
    assert (H1 : 1 <= IZR (Z.abs b)) by (apply (IZR_le 1); lia).
    assert (H0 : 0 <= IZR (Z.abs a)) by (apply (IZR_le 0); lia).
    apply Rmult_le_reg_r with (IZR (Z.abs b)); [lra|].
    unfold Rdiv. rewrite Rmult_assoc, Rinv_l by lra.
    assert (0 <= IZR (2 ^ 64)) by lra. nra. }
  destruct (SF_truediv_spec a b Hb) as (r & Hr & Hrs).
  assert (Hle : r <= bpow 64).
  { eapply RND_monotone; [exact Hr | apply RND_bpow; lia | exact Hq]. }
  assert (bpow 64 < bpow 1024) by (apply bpow_lt; lia).
  assert (Hi : Py.SF_is_infinity (Py.SF_truediv a b) = false).
  { apply rounds_inv in Hrs. destruct Hrs as (_ & _ & [(Hf & _)|[_ Hge]]); [|lra].
    now destruct (Py.SF_truediv a b). }
  assert (E : Py.int_truediv a b = Some (SF2Prim (Py.SF_truediv a b))).
  { unfold Py.int_truediv. destruct (Z.eqb_spec b 0); [contradiction|]. now rewrite Hi. }
  eexists. split; [exact E|].
  apply int_truediv_spec in E. destruct E as (_ & Hf & _ & Hr').
  split; [assumption|]. now rewrite <- (RND_fun _ _ _ Hr Hr').
Qed.

Lemma eqb_zero_false f : Ffin f = true -> 0 < Fmag f -> (f =? 0)%float = false.
Proof.
  unfold Ffin, Fmag. rewrite eqb_spec. change (Prim2SF 0) with (S754_zero false).
  destruct (Prim2SF f) as [s|s| |s m e]; cbn; intros Hf Hm; try discriminate; try lra.
  now destruct s.
Qed.

Lemma float_div_int_defined err c :
  Ffin err = true -> c <> 0%Z -> (Z.abs c <= 2 ^ 64)%Z ->
  exists q, Py.float_div_int err c = Some q /\ Ffin q = true /\ Fmag q <= Fmag err.
Proof.
  intros Herr Hc Hb.
  assert (Hb' : (Z.abs c <= 2 ^ 1023)%Z).
  { assert (2 ^ 64 <= 2 ^ 1023)%Z by (apply Z.pow_le_mono_r; lia). lia. }
  destruct (float_of_int_defined c Hb') as (cf & Ec).
  pose proof (float_of_int_spec _ _ Ec) as (Hf & _ & Hr).
  assert (H1 : 1 <= Fmag cf).
  { eapply RND_monotone; [apply (RND_bpow 0); lia | exact Hr |].
    change (bpow 0) with 1. apply (IZR_le 1). lia. }
  assert (E : Py.float_div_int err c = Some (err / cf)%float).
  { unfold Py.float_div_int, Py.float_truediv. rewrite Ec.
    rewrite eqb_zero_false; [reflexivity|assumption|lra]. }
  eexists. split; [exact E|].
  destruct (div_spec_fin err cf Herr Hf H1) as (Hfq & _ & Hrq).
  split; [assumption|].
  eapply RND_monotone; [exact Hrq | apply RND_Fmag |].
  pose proof (SFmag_nonneg (Prim2SF err)) as H0. fold (Fmag err) in H0.
  apply Rmult_le_reg_r with (Fmag cf); [lra|].
  unfold Rdiv. rewrite Rmult_assoc, Rinv_l by lra. nra.
Qed.

(** The first quotient is 0 or, with a divisor within [2^64], at least
    [2^-64]; the second, with a coefficient within [2^64], 0 or at least
    [2^-128]: far from where a square underflows. *)
Lemma int_truediv_lower a b err :
  (Z.abs b <= 2 ^ 64)%Z -> Py.int_truediv a b = Some err ->
  Fmag err = 0 \/ bpow (-64) <= Fmag err.
Proof.
  intros Hb E. apply int_truediv_spec in E. destruct E as (Hb0 & _ & _ & Hr).
  destruct (Z.eq_dec a 0) as [->|Ha].
  - left. eapply RND_fun; [exact Hr|]. left. split; [|reflexivity].
    change (Z.abs 0) with 0%Z. unfold Rdiv. ring.
  - right. eapply RND_monotone; [apply (RND_bpow (-64)); lia | exact Hr |].
    assert (H1 : 1 <= IZR (Z.abs a)) by (apply (IZR_le 1); lia).
    assert (H2 : 0 < IZR (Z.abs b)) by (apply (IZR_lt 0); lia).
    assert (H3 : IZR (Z.abs b) <= bpow 64) by (rewrite bpow_IZR by lia; now apply IZR_le).
    pose proof (bpow_pos 64) as Hp.
    apply Rle_trans with (1 / bpow 64).
    + right. apply Rmult_eq_reg_r with (bpow 64); [|lra].
      rewrite <- bpow_add. change (bpow (-64 + 64)) with 1. field. lra.
    + unfold Rdiv. apply Rmult_le_compat; try lra.
      * apply Rlt_le, Rinv_0_lt_compat. lra.
      * apply Rinv_le_contravar; lra.
Qed.

Lemma float_div_int_lower err c q :
  Ffin err = true -> (Z.abs c <= 2 ^ 64)%Z ->
  Fmag err = 0 \/ bpow (-64) <= Fmag err ->
  Py.float_div_int err c = Some q ->
  Fmag q = 0 \/ bpow (-128) <= Fmag q.
Proof.
  intros Herr Hc Hlow E.
  destruct (float_div_int_spec _ _ _ Herr E) as (_ & cf & (_ & _ & Hcf) & H1 & (_ & _ & Hq)).
  destruct Hlow as [H0|Hlo].
  - left. rewrite H0 in Hq. eapply RND_fun; [exact Hq|]. left.
    split; [unfold Rdiv; ring | reflexivity].
  - right. eapply RND_monotone; [apply (RND_bpow (-128)); lia | exact Hq |].
    assert (H3 : Fmag cf <= bpow 64).
    { eapply RND_monotone; [exact Hcf | apply (RND_bpow 64); lia |].
      rewrite bpow_IZR by lia. now apply IZR_le. }
    pose proof (bpow_pos 64) as Hp. pose proof (bpow_pos (-64)) as Hp'.
    apply Rle_trans with (bpow (-64) / bpow 64).
    + right. apply Rmult_eq_reg_r with (bpow 64); [|lra].
      unfold Rdiv. rewrite Rmult_assoc, Rinv_l, Rmult_1_r by lra.
      rewrite <- bpow_add. reflexivity.
    + unfold Rdiv. apply Rmult_le_compat; try lra.
      * apply Rlt_le, Rinv_0_lt_compat. lra.
      * apply Rinv_le_contravar; lra.
Qed.

Lemma float_square_defined {L : Py.Libm} {A : AccuratePow L} q :
  Ffin q = true -> Fmag q = 0 \/ bpow (-128) <= Fmag q -> Fmag q <= bpow 64 ->
  exists a, Py.float_square q = Some a.
Proof.
  intros Hq Hlow Hle.
  destruct (float_square_cases q Hq) as [[_ E]|[Hpos H]]; [eauto|].
  destruct (Py.float_square q) as [a|]; [eauto|]. exfalso.
  destruct Hlow as [H0|Hlo]; [lra|].
  pose proof (bpow_pos (-128)) as Hp.
  assert (Hn : bpow (-1022) <= Fmag q * Fmag q).
  { apply Rle_trans with (bpow (-128) * bpow (-128)).
    - rewrite <- bpow_add. apply bpow_le. lia.
    - apply Rmult_le_compat; lra. }
  assert (Hup : Fmag q * Fmag q <= bpow 128).
  { change 128%Z with (64 + 64)%Z. rewrite bpow_add. apply Rmult_le_compat; lra. }
  pose proof (H Hn (bpow 128) (is_float_bpow 128 ltac:(lia))). lra.
Qed.

Lemma adjustment_none_iff {L : Py.Libm} {A : AccuratePow L} num den coeff step :
  (Z.abs num <= 2 ^ 64)%Z -> (Z.abs den <= 2 ^ 64)%Z -> (Z.abs coeff <= 2 ^ 64)%Z ->
  adjustment num den coeff step = None <-> den = 0%Z \/ coeff = 0%Z.
Proof.
  intros Hn Hdn Hc. unfold adjustment. split.
  - intros H.
    destruct (Z.eq_dec den 0) as [|Hd]; [now left|].
    destruct (Z.eq_dec coeff 0) as [|Hz]; [now right|]. exfalso.
    destruct (int_truediv_defined num den Hd Hn) as (err & E1 & Hf & Hle).
    destruct (float_div_int_defined err coeff Hf Hz Hc) as (q & E2 & Hfq & Hq).
    assert (Hq64 : Fmag q <= bpow 64) by lra.
    pose proof (float_div_int_lower err coeff q Hf Hc (int_truediv_lower _ _ _ Hdn E1) E2) as Hlow.
    destruct (float_square_defined q Hfq Hlow Hq64) as (a & Ea).
    rewrite E1, E2, Ea in H. discriminate.
  - intros [->| ->].
    + unfold Py.int_truediv. reflexivity.
    + destruct (Py.int_truediv num den); reflexivity.
Qed.

End Defined.


(** ** C5: the loosening factor *)

Lemma ratio_le_num a1 a2 b :
  (0 < b)%Z -> (0 <= a1 <= a2)%Z ->
  (IZR (Z.abs a1) / IZR (Z.abs b) <= IZR (Z.abs a2) / IZR (Z.abs b))%R.
Proof.
  intros Hb Ha. rewrite !Z.abs_eq by lia.
  apply Rmult_le_compat_r.
  - apply Rlt_le, Rinv_0_lt_compat, IZR_lt. lia.
  - apply IZR_le. lia.
Qed.

Lemma ratio_le_den a b1 b2 :
  (0 < b1 <= b2)%Z ->
  (IZR (Z.abs a) / IZR (Z.abs b2) <= IZR (Z.abs a) / IZR (Z.abs b1))%R.
Proof.
  intros Hb. rewrite (Z.abs_eq b1), (Z.abs_eq b2) by lia.
  apply Rmult_le_compat_l.
  - apply IZR_le. lia.
  - apply Rinv_le_contravar; [apply IZR_lt|apply IZR_le]; lia.
Qed.

(** C5, as stated, fails outside the configurations the factor is meant
    for: with [--max-backoff -1] the factor is [-2.25] at an integral of
    300000 and [-4] at 400000; with [--pressure -10] and a coefficient of
    2 it is [0.0625] at an integral of -5 and zero at 0; and with an
    infinite step and a coefficient of [2^600] it is a NaN where the
    square underflows to zero.  The squares of the first two parts,
    [1.5 ** 2], [2.0 ** 2] and [0.25 ** 2], are exact. *)
Lemma C5_counterexample :
  (let c := mkConf "/cg" 4096 8192 6 10000 0x1.47ae147ae147bp-7%float (-1)%float 10 20 in
   pressure c < 300000 /\ 300000 <= 400000 /\
   Senpai.backoff_adj c 300000 = Some (-2.25)%float /\
   Senpai.backoff_adj c 400000 = Some (-4)%float /\
   (-2.25 <=? -4)%float = false) /\
  (let c := mkConf "/cg" 4096 8192 6 (-10) 0x1.47ae147ae147bp-7%float 1%float 10 2 in
   pressure c < -5 /\ -5 <= 0 /\
   Senpai.backoff_adj c (-5) = Some 0.0625%float /\
   Senpai.backoff_adj c 0 = Some 0%float /\
   (0.0625 <=? 0)%float = false) /\
  (let c := mkConf "/cg" 4096 8192 6 1 0x1.47ae147ae147bp-7%float infinity 10 (2 ^ 600) in
   pressure c < 2 /\ 2 <= 2 ^ 400 /\
   Senpai.backoff_adj c 2 = Some nan /\
   Senpai.backoff_adj c (2 ^ 400) = Some infinity /\
   (nan <=? infinity)%float = false).
Proof.
  repeat split; try (vm_compute; reflexivity); vm_compute; discriminate.
Qed.

(** C5 (amended): on a platform whose [pow] is accurate, for a
    configuration with a positive pressure target, a finite,
    non-negative [max_backoff] and a [coeff_backoff] of at most [2^511]
    in magnitude (so that no square underflows), the loosening factor
    [min(((integral / pressure) / coeff_backoff) ** 2 * max_backoff, max_backoff)],
    computed in binary64 arithmetic for [integral > pressure], is
    non-decreasing in [integral]; in every configuration it does not exceed
    [max_backoff]; and with [integral = 50000], [pressure = 10000],
    [coeff_backoff = 20], [max_backoff = 1.0] it is exactly [0.0625]. *)
Theorem C5_backoff_factor {L : Py.Libm} {A : AccuratePow L} c :
  (0 < pressure c -> step_ok (max_backoff c) ->
   Z.abs (coeff_backoff c) <= 2 ^ 511 ->
   forall i1 i2 a1 a2,
     pressure c < i1 -> i1 <= i2 ->
     Senpai.backoff_adj c i1 = Some a1 ->
     Senpai.backoff_adj c i2 = Some a2 ->
     (a1 <=? a2)%float = true) /\
  (forall i a,
      Senpai.backoff_adj c i = Some a ->
      (max_backoff c <? a)%float = false) /\
  (pressure c = 10000 -> coeff_backoff c = 20 -> max_backoff c = 1%float ->
   Senpai.backoff_adj c 50000 = Some 0.0625%float).
Proof.
  split; [|split].
  - intros Hp Hstep Hc i1 i2 a1 a2 H1 H12. rewrite !backoff_adj_eq.
    apply (adjustment_monotone 0 511); [assumption| |].
    + apply ratio_le_num; lia.
    + right. split; [lia|]. split; [lia|]. split; [lia|]. split.
      * change (bpow 0) with 1%R. rewrite !Z.abs_eq by lia.
        assert (0 < IZR (pressure c))%R by (apply IZR_lt; lia).
        apply Rmult_le_reg_r with (IZR (pressure c)); [assumption|].
        unfold Rdiv. rewrite Rmult_assoc, Rinv_l, Rmult_1_r, Rmult_1_l by lra.
        apply IZR_le. lia.
      * rewrite bpow_IZR by lia. now apply IZR_le.
  - intros i a. rewrite backoff_adj_eq. apply adjustment_capped.
  - intros E1 E2 E3. rewrite backoff_adj_eq, E1, E2, E3. unfold adjustment.
    replace (Py.int_truediv 50000 10000) with (Some 5%float) by (vm_compute; reflexivity).
    replace (Py.float_div_int 5 20) with (Some 0.25%float) by (vm_compute; reflexivity).
    rewrite (float_square_literal 0.25 0.0625 false 4503599627370496 (-54)
               4503599627370496 (-56)) by (try reflexivity; lia).
    vm_compute. reflexivity.
Qed.

Lemma C5_witness :
  (Senpai.backoff_adj (default_conf "/cg") 50000 = Some 0.0625%float /\
   Senpai.backoff_adj (default_conf "/cg") 100000 = Some 0.25%float) /\
  (0.0625 <=? 0.25)%float = true.
Proof.
  split; [split; vm_compute; reflexivity|].
  refine (proj1 (C5_backoff_factor (default_conf "/cg")) _ _ _ 50000 100000
            0.0625%float 0.25%float _ _ _ _).
  - reflexivity.
  - split; vm_compute; reflexivity.
  - discriminate.
  - reflexivity.
  - discriminate.
  - vm_compute. reflexivity.
  - vm_compute. reflexivity.
Defined.

(** Why the coefficient is bounded.  Where squares underflow, accuracy
    does not order them: [(3 * 2^-540) ** 2] and [(4 * 2^-540) ** 2] both
    lie between 0 and the smallest positive float, and a library may
    round the first up and the second down.  With a target of 1 and a
    coefficient of [2^540] the factor is then [2^-1074] at an integral
    of 3 and 0 at 4. *)
Lemma uneven_libm_accurate : AccuratePow uneven_libm.
Proof.
  assert (Hsmall : forall v, Ffin v = true -> Fsign v = false ->
            (v =? 0x3p-540)%float = true ->
            (Fmag v * Fmag v < bpow (-1022))%R).
  { intros v Hf Hs E. rewrite eqb_spec in E. unfold SFeqb in E.
    pose proof (SFcompare_nonneg _ _ Hf (eq_refl : Ffin 0x3p-540%float = true)
                  (Prim2SF_valid v) (Prim2SF_valid 0x3p-540%float)
                  (fin_nonneg v Hf Hs) eq_refl) as H.
    fold (Fmag v) in H. fold (Fmag 0x3p-540%float) in H.
    destruct (SFcompare _ _) as [[]|]; try discriminate.
    rewrite H. unfold Fmag.
    change (Prim2SF 0x3p-540%float) with (S754_finite false 6755399441055744 (-591)).
    cbn [SFmag].
    assert (Hm : (IZR 6755399441055744 < bpow 53)%R).
    { rewrite bpow_IZR by lia. apply IZR_lt. reflexivity. }
    assert (H0 : (0 < IZR 6755399441055744)%R) by (apply IZR_lt; reflexivity).
    pose proof (bpow_pos (-591)) as Hp. pose proof (bpow_pos 53) as Hp'.
    apply Rlt_le_trans with ((bpow 53 * bpow (-591)) * (bpow 53 * bpow (-591)))%R.
    - apply Rmult_le_0_lt_compat; nra.
    - rewrite <- !bpow_add. apply bpow_le. lia. }
  split; intros v Hv Hs Hm; cbn [Py.pow2 uneven_libm];
    destruct (v =? 0x3p-540)%float eqn:E; cbn [fst snd].
  - split; reflexivity.
  - exact (pow2_sign (L := exact_libm) v Hv Hs Hm).
  - pose proof (Hsmall v Hv Hs E). lra.
  - exact (pow2_faithful (L := exact_libm) v Hv Hs Hm).
Qed.

Lemma underflow_breaks_order :
  let c := mkConf "/cg" 4096 8192 6 1 0x1.47ae147ae147bp-7%float 1%float 10 (2 ^ 540) in
  0 < pressure c /\ step_ok (max_backoff c) /\ pressure c < 3 /\ 3 <= 4 /\
  Senpai.backoff_adj (L := uneven_libm) c 3 = Some 0x1p-1074%float /\
  Senpai.backoff_adj (L := uneven_libm) c 4 = Some 0%float /\
  (0x1p-1074 <=? 0)%float = false.
Proof.
  repeat split; try (vm_compute; reflexivity); vm_compute; discriminate.
Qed.

(** ** C6: the tightening factor *)

(** C6, as stated, fails outside the configurations the factor is meant
    for: a negative step makes the factor decrease as the integral
    decreases, and with an infinite step and a coefficient of
    [2^600] it is a NaN where the square underflows to zero.  With
    [--max-probe -1] and a coefficient of 1 the factor is [-4] at an
    integral of 5000 and [-100000000] at 0: the squares [2.0 ** 2] and
    [10000.0 ** 2] are exact. *)
Lemma C6_counterexample :
  (let c := mkConf "/cg" 4096 8192 6 10000 (-1)%float 1%float 1 20 in
   0 <= 5000 /\
   Senpai.probe_adj c 5000 = Some (-4)%float /\
   Senpai.probe_adj c 0 = Some (-100000000)%float /\
   (-4 <=? -100000000)%float = false) /\
  (let c := mkConf "/cg" 4096 8192 6 (2 ^ 400) infinity 1%float (2 ^ 600) 20 in
   1 <= 2 ^ 400 /\
   Senpai.probe_adj c (2 ^ 400) = Some nan /\
   Senpai.probe_adj c 1 = Some infinity /\
   (nan <=? infinity)%float = false).
Proof.
  repeat split; try (vm_compute; reflexivity); vm_compute; discriminate.
Qed.

(** C6 (amended): on a platform whose [pow] is accurate, for a
    configuration with a finite, non-negative [max_probe], a
    [coeff_probe] of at most [2^255] in magnitude and integrals up to
    [2^256] (so that no square underflows), the tightening factor
    [min(((pressure / max(integral, 1)) / coeff_probe) ** 2 * max_probe, max_probe)],
    computed in binary64 arithmetic, does not decrease when [integral]
    decreases; in every configuration it does not exceed [max_probe]; and
    the floor [max(integral, 1)] makes the factor at an integral of 0, or
    any integral below 1, the factor at 1, whose first division is by 1:
    with a target and a non-zero coefficient within [2^64] the
    computation raises nothing, at 0 as at any integral up to [2^64]. *)
Theorem C6_probe_factor {L : Py.Libm} {A : AccuratePow L} c :
  (step_ok (max_probe c) -> Z.abs (coeff_probe c) <= 2 ^ 255 ->
   forall i1 i2 a1 a2,
     i1 <= i2 -> i2 <= 2 ^ 256 ->
     Senpai.probe_adj c i1 = Some a1 ->
     Senpai.probe_adj c i2 = Some a2 ->
     (a2 <=? a1)%float = true) /\
  (forall i a,
      Senpai.probe_adj c i = Some a ->
      (max_probe c <? a)%float = false) /\
  (forall i, i <= 1 -> Senpai.probe_adj c i = Senpai.probe_adj c 1) /\
  (Z.abs (pressure c) <= 2 ^ 64 -> Z.abs (coeff_probe c) <= 2 ^ 64 ->
   coeff_probe c <> 0 ->
   forall i, i <= 2 ^ 64 -> exists a, Senpai.probe_adj c i = Some a).
Proof.
  split; [|split; [|split]].
  - intros Hstep Hc i1 i2 a1 a2 H12 Hi2. rewrite !probe_adj_eq. intros H1 H2.
    apply (adjustment_monotone (-256) 255 _ _ _ _ _ _ _ _ Hstep) with (3 := H2) (4 := H1).
    + apply ratio_le_den. rewrite !int_max_spec. lia.
    + destruct (Z.eq_dec (pressure c) 0) as [E|N].
      * left. rewrite E. change (Z.abs 0) with 0. unfold Rdiv. ring.
      * right. split; [lia|]. split; [lia|]. split; [lia|]. split.
        -- rewrite int_max_spec.
           assert (Hn : (1 <= IZR (Z.abs (pressure c)))%R) by (apply (IZR_le 1); lia).
           assert (Hd0 : (0 < IZR (Z.abs (Z.max i2 1)))%R) by (apply (IZR_lt 0); lia).
           assert (Hd : (IZR (Z.abs (Z.max i2 1)) <= bpow 256)%R).
           { rewrite bpow_IZR by lia. apply IZR_le. lia. }
           pose proof (bpow_pos 256) as Hp.
           apply Rle_trans with (1 / bpow 256)%R.
           ++ right. apply Rmult_eq_reg_r with (bpow 256); [|lra].
              rewrite <- bpow_add. change (bpow (-256 + 256)) with 1%R. field. lra.
           ++ unfold Rdiv. apply Rmult_le_compat; try lra.
              ** apply Rlt_le, Rinv_0_lt_compat. lra.
              ** apply Rinv_le_contravar; lra.
        -- rewrite bpow_IZR by lia. now apply IZR_le.
  - intros i a. rewrite probe_adj_eq. apply adjustment_capped.
  - intros i Hi. rewrite !probe_adj_eq, !int_max_spec.
    replace (Z.max i 1) with (Z.max 1 1) by lia. reflexivity.
  - intros Hp Hc Hz i Hi.
    destruct (Senpai.probe_adj c i) as [a|] eqn:E; [eauto|]. exfalso.
    rewrite probe_adj_eq in E. apply adjustment_none_iff in E; try assumption.
    + rewrite int_max_spec in E. lia.
    + rewrite int_max_spec. lia.
Qed.

Lemma C6_witness :
  (Senpai.probe_adj (default_conf "/cg") 2000 = Some 0x1.47ae147ae147bp-9%float /\
   Senpai.probe_adj (default_conf "/cg") 0 = Some 0x1.47ae147ae147bp-7%float) /\
  (0x1.47ae147ae147bp-9 <=? 0x1.47ae147ae147bp-7)%float = true.
Proof.
  split; [split; vm_compute; reflexivity|].
  refine (proj1 (C6_probe_factor (default_conf "/cg")) _ _ 0 2000
            0x1.47ae147ae147bp-7%float 0x1.47ae147ae147bp-9%float _ _ _ _).
  - split; vm_compute; reflexivity.
  - discriminate.
  - discriminate.
  - discriminate.
  - vm_compute. reflexivity.
  - vm_compute. reflexivity.
Defined.

(** ** C10: outside the grace window a tick tightens *)

Section Positive.
Local Open Scope R_scope.

Lemma leb_pos_nonneg x y :
  Ffin x = true -> Fnonneg x = true -> 0 < Fmag x ->
  Ffin y = true -> (x <=? y)%float = true ->
  Fnonneg y = true /\ Fmag x <= Fmag y.
Proof.
  intros Hx Hnx Hpos Hy Hle.
  assert (Hny : Fnonneg y = true).
  { rewrite leb_spec in Hle. unfold Ffin, Fnonneg, Fmag, SFleb in *.
    destruct (Prim2SF x) as [sx|sx| |[] mx ex]; try discriminate;
      cbn [SFmag] in Hpos; try lra.
    destruct (Prim2SF y) as [sy|sy| |[] my ey]; try discriminate; reflexivity. }
  split; [assumption|]. now apply (ltb_nonneg x y).
Qed.

Lemma Fmag_pos_neg adj :
  Ffin adj = true -> Fnonneg adj = true -> 0 < Fmag adj ->
  (- adj <? 0)%float = true.
Proof.
  intros Hf Hn Hpos. rewrite ltb_spec, opp_spec.
  change (Prim2SF 0) with (S754_zero false).
  unfold Ffin, Fnonneg, Fmag in *.
  destruct (Prim2SF adj) as [s|s| |[] m e]; try discriminate;
    cbn [SFmag] in Hpos; try lra.
  reflexivity.
Qed.

Lemma Fnonneg_neg_le adj :
  Ffin adj = true -> Fnonneg adj = true -> (- adj <=? 0)%float = true.
Proof.
  intros Hf Hn. rewrite leb_spec, opp_spec.
  change (Prim2SF 0) with (S754_zero false).
  unfold Ffin, Fnonneg in *.
  destruct (Prim2SF adj) as [s|s| |[] m e]; try discriminate; reflexivity.
Qed.

Lemma Fmag_pow2_256 : Fmag 0x1p-256%float = bpow (-256).
Proof.
  unfold Fmag. change (Prim2SF 0x1p-256%float) with (S754_finite false 4503599627370496 (-308)).
  cbn [SFmag]. change 4503599627370496%Z with (2 ^ 52)%Z.
  rewrite <- bpow_IZR, <- bpow_add by lia. reflexivity.
Qed.

(** With a ratio of at least 1, a coefficient of at most [2^256] in
    magnitude and a step of at least [2^-256], nothing underflows and the
    factor is a positive float. *)
Lemma adjustment_positive {L : Py.Libm} {A : AccuratePow L} num den coeff step adj :
  (Z.abs den <= Z.abs num)%Z ->
  (Z.abs coeff <= 2 ^ 256)%Z ->
  PrimFloat.is_finite step = true ->
  (0x1p-256 <=? step)%float = true ->
  adjustment num den coeff step = Some adj ->
  Ffin adj = true /\ Fnonneg adj = true /\ 0 < Fmag adj.
Proof.
  intros Hratio Hcoeff Hfin Hle Hadj.
  rewrite is_finite_spec in Hfin.
  assert (Hx : Ffin 0x1p-256%float = true /\ Fnonneg 0x1p-256%float = true)
    by (split; reflexivity).
  pose proof (bpow_pos (-256)) as Hb.
  destruct (leb_pos_nonneg _ _ (proj1 Hx) (proj2 Hx) ltac:(rewrite Fmag_pow2_256; exact Hb)
              Hfin Hle) as [Hnn Hmag].
  rewrite Fmag_pow2_256 in Hmag.
  assert (Hstep : step_ok step).
  { split; [now rewrite is_finite_spec|].
    rewrite leb_spec. change (Prim2SF 0) with (S754_zero false).
    unfold Ffin, Fnonneg in *.
    destruct (Prim2SF step) as [s|s| |[] m e]; try discriminate; reflexivity. }
  destruct (adjustment_spec _ _ _ _ _ Hstep Hadj)
    as (Hden & Hc & err & cf & q & a & r & He & Hcf & H1 & Hq & Ha & Hr & Hf & Hn & Hm).
  split; [assumption|]. split; [assumption|].
  assert (Herr : 1 <= Fmag err).
  { eapply RND_monotone; [apply (RND_bpow 0); lia | exact He |].
    change (bpow 0) with 1.
    assert (0 < IZR (Z.abs den)) by (apply IZR_lt; lia).
    apply Rmult_le_reg_r with (IZR (Z.abs den)); [assumption|].
    unfold Rdiv. rewrite Rmult_assoc, Rinv_l, Rmult_1_r, Rmult_1_l by lra.
    now apply IZR_le. }
  assert (Hcf' : Fmag cf <= bpow 256).
  { eapply RND_monotone; [exact Hcf | apply (RND_bpow 256); lia |].
    rewrite bpow_IZR by lia. now apply IZR_le. }
  assert (Hq' : bpow (-256) <= Fmag q).
  { eapply RND_monotone; [apply (RND_bpow (-256)); lia | exact Hq |].
    apply Rmult_le_reg_r with (Fmag cf); [lra|].
    unfold Rdiv. rewrite Rmult_assoc, Rinv_l, Rmult_1_r by lra.
    pose proof (bpow_opp_l 256) as Hone. cbn [Z.opp] in Hone.
    apply Rle_trans with (bpow (-256) * bpow 256); [|lra].
    apply Rmult_le_compat_l; lra. }
  assert (Ha' : bpow (-512) <= Fmag a).
  { destruct Ha as (_ & _ & _ & _ & Hfl).
    exact (faithful_square_lower q a (-256) ltac:(lia) Hq' Hfl). }
  assert (Hr' : bpow (-768) <= r).
  { eapply RND_monotone; [apply (RND_bpow (-768)); lia | exact Hr |].
    replace (-768)%Z with (-512 + -256)%Z by lia. rewrite bpow_add.
    pose proof (bpow_pos (-512)).
    apply Rmult_le_compat; lra. }
  rewrite Hm. pose proof (bpow_pos (-768)).
  apply Rmin_glb_lt; lra.
Qed.

End Positive.

(** C10, as stated, fails: with [--max-probe 0] and the default pressure
    target of 10000, the tick that finds the grace window over calls
    [adjust] with the factor [-0.0], whose magnitude is zero. *)
Lemma C10_counterexample :
  let c := mkConf "/cg" 4096 (Z.shiftl 100 30) 1 10000 0%float 1%float 10 20 in
  exists s w',
    Senpai.main c [quiet; quiet] (mkWorld (cgroup_dir "/cg" "0" "8192" "max") []) =
    Some (s, w') /\
    0 < pressure c /\
    adjustments (stdout w') = [(-0)%float] /\
    (0 <? abs (-0))%float = false.
Proof.
  eexists _, _. split; [vm_compute; reflexivity|].
  repeat split.
Qed.

(** C10 (amended): a tick that returns, having found [grace_ticks = 0] and
    an integral (after adding the delta) of at most the pressure target,
    has called [adjust] exactly once, with the factor [- adj] for the
    tightening factor [adj] of that integral, and has reset the integral
    (and the grace window): it never merely holds.  The factor is
    non-positive when [max_probe] is finite and non-negative; it is strictly
    negative when moreover the pressure target is positive, the coefficient
    is at most [2^256] in magnitude and [max_probe] is at least [2^-256],
    so that nothing underflows.  (The sign and the size of the square are
    those an accurate [pow] returns.) *)
Theorem C10_tightens_outside_grace {L : Py.Libm} {A : AccuratePow L} s w s' w' total
  (Htick : Senpai.tick s w = Some (s', w'))
  (Htotal : Cgroup.total (Senpai.cgroup s) w = Some (total, w))
  (Hgrace : Senpai.grace_ticks s = 0)
  (Hint : Senpai.integral s + (total - Senpai.last_total s) <= pressure (Senpai.conf s)) :
  let c := Senpai.conf s in
  exists adj,
    Senpai.probe_adj c (Senpai.integral s + (total - Senpai.last_total s)) = Some adj /\
    adjustments (emitted w w') = [(- adj)%float] /\
    Senpai.integral s' = 0 /\
    Senpai.grace_ticks s' = interval c - 1 /\
    (step_ok (max_probe c) -> (- adj <=? 0)%float = true) /\
    (0 < pressure c -> Z.abs (coeff_probe c) <= 2 ^ 256 ->
     PrimFloat.is_finite (max_probe c) = true ->
     (0x1p-256 <=? max_probe c)%float = true ->
     (- adj <? 0)%float = true).
Proof.
  intros c. apply tick_inv in Htick.
  destruct Htick as (lim & p & total' & evs & Ht & Hout & _ & _ & Hcase).
  rewrite Htotal in Ht. inversion Ht; subst total'. clear Ht.
  assert (Hem : emitted w w' =
            LogTick lim p (Senpai.grace_ticks s) total (total - Senpai.last_total s)
              (Senpai.integral s + (total - Senpai.last_total s)) :: evs).
  { destruct w' as [fs' o']. cbn in Hout. subst o'. apply emitted_app. }
  rewrite Hem. cbn [adjustments].
  destruct Hcase as [adj evs0 Hlt|_ Hnz|adj evs0 _ _ Hadj Ha _ Hi Hg]; [lia|contradiction|].
  exists adj. cbn [adjustments]. rewrite Ha. repeat split; auto.
  - intros Hstep. rewrite probe_adj_eq in Hadj.
    destruct (adjustment_spec _ _ _ _ _ Hstep Hadj)
      as (_ & _ & _ & _ & _ & _ & _ & _ & _ & _ & _ & _ & _ & Hf & Hn & _).
    now apply Fnonneg_neg_le.
  - intros Hp Hcoeff Hfin Hle. rewrite probe_adj_eq in Hadj.
    assert (Hratio : Z.abs (Py.int_max (Senpai.integral s + (total - Senpai.last_total s)) 1)
                     <= Z.abs (pressure c)).
    { rewrite int_max_spec. fold c in Hint. lia. }
    destruct (adjustment_positive _ _ _ _ _ Hratio Hcoeff Hfin Hle Hadj) as (Hf & Hn & Hpos).
    now apply Fmag_pos_neg.
Qed.

(** ** C8: scaling the unbounded limit *)

Section Unbounded.
Local Open Scope R_scope.

Lemma cond_Zopp_abs s n : (Z.abs (cond_Zopp s n) = Z.abs n)%Z.
Proof. destruct s; cbn; lia. Qed.

(** The sum of two finite floats whose magnitudes add up to at most
    [2^k], [k < 1024], is finite. *)
Lemma SFadd_fin x y k :
  SFfin x = true -> SFfin y = true ->
  SFmag x + SFmag y <= bpow k -> (-1074 <= k < 1024)%Z ->
  SFfin (SFadd prec emax x y) = true.
Proof.
  destruct x as [sx|sx| |sx mx ex], y as [sy|sy| |sy my ey]; try discriminate;
    intros _ _ Hsum Hk; cbn [SFadd].
  - now destruct sx, sy.
  - reflexivity.
  - reflexivity.
  - cbn [SFmag] in Hsum.
    set (ez := Z.min ex ey).
    pose proof (shl_align_spec mx ex ez) as Hx.
    pose proof (shl_align_spec my ey ez) as Hy.
    destruct (shl_align mx ex ez) as [X ex']. destruct (shl_align my ey ez) as [Y ey'].
    destruct Hx as [Hex HX]. destruct Hy as [Hey HY]. cbn [fst].
    subst ex' ey'.
    replace (Z.min ex ez) with ez in HX by (unfold ez; lia).
    replace (Z.min ey ez) with ez in HY by (unfold ez; lia).
    set (n := (cond_Zopp sx (Zpos X) + cond_Zopp sy (Zpos Y))%Z).
    destruct (binary_normalize_spec n ez) as (r & Hr & Hrs).
    assert (Hn : IZR (Z.abs n) * bpow ez <= bpow k).
    { eapply Rle_trans; [|exact Hsum]. rewrite <- HX, <- HY, <- Rmult_plus_distr_r.
      apply Rmult_le_compat_r; [apply Rlt_le, bpow_pos|].
      rewrite <- plus_IZR. apply IZR_le. unfold n.
      pose proof (cond_Zopp_abs sx (Zpos X)). pose proof (cond_Zopp_abs sy (Zpos Y)). lia. }
    assert (Hle : r <= bpow k).
    { eapply RND_monotone; [exact Hr | apply RND_bpow; lia | exact Hn]. }
    assert (bpow k < bpow 1024) by (apply bpow_lt; lia).
    apply rounds_inv in Hrs. destruct Hrs as (_ & _ & [(Hf & _)|[_ Hge]]); [assumption|lra].
Qed.

Lemma Fmag_abs f : Fmag (abs f) = Fmag f.
Proof. unfold Fmag. rewrite abs_spec. now destruct (Prim2SF f). Qed.

Lemma abs_fin_nonneg f : Ffin f = true -> Ffin (abs f) = true /\ Fnonneg (abs f) = true.
Proof.
  unfold Ffin, Fnonneg. rewrite abs_spec. now destruct (Prim2SF f).
Qed.

Lemma Fmag_pow2_64 : Fmag 0x1p64%float = bpow 64.
Proof.
  unfold Fmag. change (Prim2SF 0x1p64%float) with (S754_finite false 4503599627370496 12).
  cbn [SFmag]. change 4503599627370496%Z with (2 ^ 52)%Z.
  rewrite <- bpow_IZR, <- bpow_add by lia. reflexivity.
Qed.

Lemma Fmag_pow2_900 : Fmag 0x1p900%float = bpow 900.
Proof.
  unfold Fmag. change (Prim2SF 0x1p900%float) with (S754_finite false 4503599627370496 848).
  cbn [SFmag]. change 4503599627370496%Z with (2 ^ 52)%Z.
  rewrite <- bpow_IZR, <- bpow_add by lia. reflexivity.
Qed.

(** [int(x + x * factor)] is defined for the unbounded limit and every
    finite factor of magnitude at most [2^900]. *)
Lemma scaled_unbounded_defined f :
  PrimFloat.is_finite f = true -> (abs f <=? 0x1p900)%float = true ->
  exists x', Cgroup.scaled (Z.shiftl 1 64 - 1) f = Some x'.
Proof.
  intros Hfin Hle. rewrite is_finite_spec in Hfin.
  unfold Cgroup.scaled, Py.int_mul_float, Py.int_add_float.
  change (Py.float_of_int (Z.shiftl 1 64 - 1)) with (Some 0x1p64%float).
  cbn [option_map].
  assert (Hf : Fmag f <= bpow 900).
  { destruct (abs_fin_nonneg f Hfin) as [Ha Hn].
    rewrite <- Fmag_abs, <- Fmag_pow2_900.
    now apply (ltb_nonneg (abs f) 0x1p900%float). }
  assert (Hx : Ffin 0x1p64%float = true) by reflexivity.
  destruct (mul_spec_fin 0x1p64%float f Hx Hfin) as (r & Hr & Hcase).
  assert (Hr964 : r <= bpow 964).
  { eapply RND_monotone; [exact Hr | apply (RND_bpow 964); lia |].
    rewrite Fmag_pow2_64. replace 964%Z with (64 + 900)%Z by lia. rewrite bpow_add.
    apply Rmult_le_compat_l; [apply Rlt_le, bpow_pos|assumption]. }
  assert (bpow 964 < bpow 1024) by (apply bpow_lt; lia).
  destruct Hcase as [[(Hfy & _ & Hry) _]|[_ Hge]]; [|lra].
  pose proof (RND_fun _ _ _ Hr Hry) as Er.
  assert (Hsum : Ffin (0x1p64 + 0x1p64 * f)%float = true).
  { unfold Ffin. rewrite add_spec. unfold SF64add.
    apply (SFadd_fin _ _ 965); try assumption; [|lia].
    fold (Fmag 0x1p64%float). fold (Fmag (0x1p64 * f)%float).
    rewrite Fmag_pow2_64, <- Er.
    assert (bpow 64 <= bpow 964) by (apply bpow_le; lia).
    replace 965%Z with (964 + 1)%Z by lia. rewrite bpow_succ. lra. }
  unfold Py.int_of_float. unfold Ffin in Hsum.
  destruct (Prim2SF (0x1p64 + 0x1p64 * f)%float); try discriminate; eauto.
Qed.

End Unbounded.

(** C8, as stated, fails: a finite factor large enough, here
    [-0x1.7e43c8800759cp+996] (about [-1e300]), makes [x * factor] an
    infinity, on which [int] raises [OverflowError]; and with the bounds
    crossed (minimum 8192, maximum 4096) the limit stored is 8192, above
    the maximum. *)
Lemma C8_counterexample :
  (PrimFloat.is_finite (-0x1.7e43c8800759cp+996)%float = true /\
   (-0x1.7e43c8800759cp+996 <? 0)%float = true /\
   Cgroup.scale_limit (Cgroup.mk "/cg" None 4096 (Z.shiftl 100 30))
     (-0x1.7e43c8800759cp+996)%float
     (mkWorld (cgroup_dir "/cg" "0" "1000" "max") []) = None) /\
  (exists self' w',
      Cgroup.scale_limit (Cgroup.mk "/cg" None 8192 4096)
        (-0x1.47ae147ae147bp-7)%float
        (mkWorld (cgroup_dir "/cg" "0" "1000" "max") []) = Some (self', w') /\
      Cgroup.limit self' = Some 8192 /\ 4096 < 8192).
Proof.
  split.
  - repeat split; vm_compute; reflexivity.
  - eexists _, _. split; [vm_compute; reflexivity|]. repeat split.
Qed.

(** C8 (amended): when [memory.high] holds the unbounded token,
    [read_limit] yields [2^64 - 1]; for every finite factor of magnitude at
    most [2^900] the candidate [int(x + x * factor)] is then defined (no
    overflow); and [scale_limit], finding that this value differs from any
    limit it stored, stores and writes the sanitized current usage, which
    is page-aligned, at most [limit_max] as soon as
    [limit_min <= limit_max], and at least [limit_min] when [limit_min] is
    a multiple of the page size. *)
Theorem C8_unbounded_limit self w
  (Hhigh : files w (path_join (Cgroup.path self) "memory.high") = Some ("max" ++ newline))
  (Hstored : forall l, Cgroup.limit self = Some l -> page_aligned l) :
  Cgroup.read_limit self w = Some (2 ^ 64 - 1, w) /\
  forall f,
    PrimFloat.is_finite f = true -> (abs f <=? 0x1p900)%float = true ->
    (exists x', Cgroup.scaled (2 ^ 64 - 1) f = Some x') /\
    forall c, Cgroup.read_current self w = Some (c, w) ->
      let l := Cgroup.sanitize self c in
      Cgroup.scale_limit self f w =
        Some (Cgroup.with_limit self (Some l),
              written self l w [LogMsg "Resetting limit to memory.current."]) /\
      page_aligned l /\
      (Cgroup.limit_min self <= Cgroup.limit_max self -> l <= Cgroup.limit_max self) /\
      (page_aligned (Cgroup.limit_min self) -> Cgroup.limit_min self <= l).
Proof.
  assert (Hread : Cgroup.read_limit self w = Some (2 ^ 64 - 1, w)).
  { unfold Cgroup.read_limit, bind, Cgroup.read. rewrite Hhigh.
    now rewrite String.eqb_refl. }
  split; [exact Hread|].
  intros f Hfin Hle.
  destruct (scaled_unbounded_defined f Hfin Hle) as (x' & Hx').
  change (Z.shiftl 1 64 - 1) with (2 ^ 64 - 1) in Hx'.
  split; [now exists x'|].
  intros c Hc l.
  assert (Hdiv : diverged self (2 ^ 64 - 1) = true).
  { destruct (diverged self (2 ^ 64 - 1)) eqn:E; [reflexivity|].
    apply diverged_spec in E. apply Hstored in E. vm_compute in E. discriminate. }
  split.
  { rewrite scale_limit_eq, Hread, Hx', set_limit_eq, Hread, Hdiv, Hc. reflexivity. }
  split; [apply sanitize_aligned|].
  split; [apply sanitize_upper | apply sanitize_lower].
Qed.

Lemma C8_witness :
  let self := Cgroup.mk "/cg" (Some 8192) 4096 1048576 in
  let w := mkWorld (cgroup_dir "/cg" "0" "20000" "max") [] in
  Cgroup.read_limit self w = Some (2 ^ 64 - 1, w) /\
  Cgroup.scale_limit self (-0x1.47ae147ae147bp-7)%float w =
    Some (Cgroup.with_limit self (Some 16384),
          written self 16384 w [LogMsg "Resetting limit to memory.current."]).
Proof.
  intros self w.
  assert (Hstored : forall l, Cgroup.limit self = Some l -> page_aligned l).
  { intros l H. inversion H. reflexivity. }
  destruct (C8_unbounded_limit self w eq_refl Hstored) as [Hread Hscale].
  split; [exact Hread|].
  destruct (Hscale (-0x1.47ae147ae147bp-7)%float eq_refl eq_refl) as [_ H].
  exact (proj1 (H 20000 eq_refl)).
Defined.

Lemma C10_witness :
  let s := Senpai.mk (default_conf "/cg")
             (Cgroup.mk "/cg" (Some 409600000) (Z.shiftl 100 20) (Z.shiftl 100 30))
             1234 0 0 in
  let w := mkWorld (cgroup_dir "/cg" "1234" "409600000" "409600000") [] in
  exists s' w' adj,
    Senpai.tick s w = Some (s', w') /\
    Senpai.probe_adj (default_conf "/cg") 0 = Some adj /\
    adjustments (emitted w w') = [(- adj)%float] /\
    (- adj <? 0)%float = true.
Proof.
  intros s w.
  destruct (Senpai.tick s w) as [[s' w']|] eqn:E; [|vm_compute in E; discriminate].
  destruct (C10_tightens_outside_grace s w s' w' 1234 E eq_refl eq_refl)
    as (adj & Hadj & Hem & _ & _ & _ & Hneg).
  - cbn. lia.
  - exists s', w', adj. repeat split; [exact Hadj|exact Hem|].
    apply Hneg; [cbn; lia | cbn; lia | reflexivity | reflexivity].
Defined.

(** ** Writing a limit and reading it back *)

Lemma digits_value_digits ds : forall acc prev,
  Forall (fun c => Py.is_digit c = true) ds -> ds <> [] ->
  Py.digits_value ds acc prev = Some (digits_fold ds acc).
Proof.
  induction ds as [|c ds IH]; intros acc prev Hall Hne; [congruence|].
  inversion Hall as [|? ? Hc Hds]; subst. cbn [Py.digits_value]. rewrite Hc.
  destruct ds as [|d ds']; [reflexivity|].
  rewrite IH by (auto; discriminate). reflexivity.
Qed.

Lemma digit_char n :
  0 <= n < 10 ->
  let c := ascii_of_nat (Z.to_nat (48 + n)) in
  Py.is_digit c = true /\ Py.digit_val c = n.
Proof.
  intros Hn.
  assert (Hin : In (Z.to_nat n) (seq 0 10)) by (apply in_seq; lia).
  rewrite <- (Z2Nat.id n) by lia.
  cbn [seq In] in Hin.
  repeat (destruct Hin as [<-|Hin]; [split; reflexivity|]).
  contradiction.
Qed.

Lemma digits_of_pos_spec fuel : forall n acc,
  0 <= n < 10 ^ Z.of_nat (S fuel) ->
  exists ds,
    Py.digits_of_pos (S fuel) n acc = (ds ++ acc)%list /\
    Forall (fun c => Py.is_digit c = true) ds /\ ds <> [] /\
    digits_fold ds 0 = n.
Proof.
  induction fuel as [|fuel IH]; intros n acc Hn;
    cbn [Py.digits_of_pos];
    pose proof (Z.mod_pos_bound n 10 ltac:(lia)) as Hmod;
    destruct (digit_char (n mod 10) Hmod) as [Hd Hv];
    set (c := ascii_of_nat (Z.to_nat (48 + n mod 10))) in *;
    destruct (Z.ltb_spec n 10) as [Hlt|Hge].
  - exists [c]. repeat split; auto; [discriminate|].
    unfold digits_fold; cbn. rewrite Hv. rewrite Z.mod_small; lia.
  - change (10 ^ Z.of_nat 1) with 10 in Hn. lia.
  - exists [c]. repeat split; auto; [discriminate|].
    unfold digits_fold; cbn. rewrite Hv. rewrite Z.mod_small; lia.
  - assert (Hq : 0 <= n / 10 < 10 ^ Z.of_nat (S fuel)).
    { split; [apply Z.div_pos; lia|].
      apply Z.div_lt_upper_bound; [lia|].
      rewrite (Nat2Z.inj_succ (S fuel)), Z.pow_succ_r in Hn by lia. lia. }
    destruct (IH (n / 10) (c :: acc) Hq) as (ds & E & Hall & Hne & Hval).
    exists (ds ++ [c])%list. rewrite <- app_assoc. repeat split; auto.
    + apply Forall_app. split; auto.
    + destruct ds; discriminate.
    + unfold digits_fold in *. rewrite fold_left_app. cbn [fold_left]. rewrite Hval, Hv.
      pose proof (Z.div_mod n 10 ltac:(lia)). lia.
Qed.

Lemma digit_not_blank c : Py.is_digit c = true -> Py.is_blank c = false.
Proof.
  destruct c as [[] [] [] [] [] [] [] []]; cbn; intros H; try reflexivity; discriminate.
Qed.

Lemma sign_match_digit c l :
  Py.is_digit c = true ->
  match c :: l with
  | "-"%char :: l' => option_map Z.opp (Py.digits_value l' 0 false)
  | "+"%char :: l' => Py.digits_value l' 0 false
  | l0 => Py.digits_value l0 0 false
  end = Py.digits_value (c :: l) 0 false.
Proof.
  destruct c as [[] [] [] [] [] [] [] []]; intros H; try reflexivity;
    vm_compute in H; discriminate.
Qed.

Lemma drop_space_id l :
  match l with c :: _ => Py.is_blank c = false | [] => True end ->
  Py.drop_space l = l.
Proof. destruct l as [|c l]; [reflexivity|]. cbn. now intros ->. Qed.

Lemma strip_id l :
  Forall (fun c => Py.is_blank c = false) l -> Py.strip l = l.
Proof.
  intros H. unfold Py.strip.
  rewrite (drop_space_id l) by (destruct H; auto).
  rewrite drop_space_id; [apply rev_involutive|].
  apply Forall_rev in H. destruct H; auto.
Qed.

(** [int(str(n)) == n]. *)
Theorem int_of_str_str_of_int n : Py.int_of_str (Py.str_of_int n) = Some n.
Proof.
  unfold Py.int_of_str, Py.str_of_int.
  rewrite list_ascii_of_string_of_list_ascii.
  assert (Hfuel : 0 <= Z.abs n < 10 ^ Z.of_nat (S (Z.to_nat (Z.log2 (Z.abs n))))).
  { split; [lia|]. rewrite Nat2Z.inj_succ, Z2Nat.id by apply Z.log2_nonneg.
    destruct (Z.eq_dec (Z.abs n) 0) as [->|Hnz]; [cbn; lia|].
    pose proof (Z.log2_spec (Z.abs n) ltac:(lia)) as [_ Hlt].
    eapply Z.lt_le_trans; [exact Hlt|].
    apply Z.pow_le_mono_l. lia. }
  destruct (digits_of_pos_spec _ _ [] Hfuel) as (ds & E & Hall & Hne & Hval).
  rewrite E, app_nil_r.
  assert (Hsp : Forall (fun c => Py.is_blank c = false) ds).
  { eapply Forall_impl; [|exact Hall]. apply digit_not_blank. }
  destruct (Z.ltb_spec n 0) as [Hneg|Hpos].
  - rewrite strip_id by (constructor; [reflexivity|assumption]).
    rewrite digits_value_digits by assumption. cbn. f_equal. lia.
  - rewrite strip_id by assumption.
    destruct ds as [|c ds']; [congruence|].
    inversion Hall; subst. rewrite sign_match_digit by assumption.
    rewrite digits_value_digits by assumption. f_equal. lia.
Qed.

Lemma str_of_int_not_max n : Py.str_of_int n <> "max" ++ newline.
Proof.
  intros H. pose proof (int_of_str_str_of_int n) as E. rewrite H in E.
  vm_compute in E. discriminate.
Qed.

Lemma append_inj_l p a b : (p ++ a = p ++ b)%string -> a = b.
Proof.
  induction p as [|c p IH]; cbn; intros H; [assumption|].
  inversion H. auto.
Qed.

Lemma path_join_inj p a b : path_join p a = path_join p b -> a = b.
Proof.
  unfold path_join. destruct (_ || _); intros H.
  - now apply append_inj_l in H.
  - apply append_inj_l in H. now apply (append_inj_l "/") in H.
Qed.

Lemma files_written_high self l w evs :
  files (written self l w evs) (path_join (Cgroup.path self) "memory.high") =
  Some (Py.str_of_int l).
Proof. unfold written, update; cbn. now rewrite String.eqb_refl. Qed.

Lemma files_written_other self l w evs f :
  f <> "memory.high" ->
  files (written self l w evs) (path_join (Cgroup.path self) f) =
  files w (path_join (Cgroup.path self) f).
Proof.
  intros Hf. unfold written, update; cbn.
  destruct (String.eqb_spec (path_join (Cgroup.path self) f)
              (path_join (Cgroup.path self) "memory.high")) as [E|]; [|reflexivity].
  apply path_join_inj in E. contradiction.
Qed.

Lemma read_limit_written self self' l w evs :
  Cgroup.path self' = Cgroup.path self ->
  Cgroup.read_limit self' (written self l w evs) = Some (l, written self l w evs).
Proof.
  intros Hp. unfold Cgroup.read_limit, bind, Cgroup.read. rewrite Hp.
  rewrite files_written_high.
  destruct (String.eqb_spec (Py.str_of_int l) ("max" ++ newline)) as [E|_].
  - now apply str_of_int_not_max in E.
  - now rewrite int_of_str_str_of_int.
Qed.

Lemma agree_bind {A B} (c : M A) (k : A -> M B) w1 w2 :
  reader c -> agree c w1 w2 -> (forall a, agree (k a) w1 w2) ->
  agree (bind c k) w1 w2.
Proof.
  unfold agree, bind. intros Hr Hc Hk. rewrite Hc.
  destruct (c w1) as [[a w1']|] eqn:E; [|reflexivity].
  apply (reader_pure _ _ _ _ Hr) in E. subst w1'. apply Hk.
Qed.

Lemma agree_lift {A} (o : option A) w1 w2 : agree (lift o) w1 w2.
Proof. unfold agree. now destruct o. Qed.

Lemma agree_read self f w1 w2 :
  files w2 (path_join (Cgroup.path self) f) = files w1 (path_join (Cgroup.path self) f) ->
  agree (Cgroup.read self f) w1 w2.
Proof. unfold agree, Cgroup.read. intros ->. now destruct (files w1 _). Qed.

Lemma agree_field self i w1 w2 :
  files w2 (path_join (Cgroup.path self) "memory.pressure") =
  files w1 (path_join (Cgroup.path self) "memory.pressure") ->
  agree (Cgroup.field self i) w1 w2.
Proof.
  intros H. unfold Cgroup.field, Cgroup.readlines.
  apply agree_bind.
  - apply reader_bind; auto with reader.
  - apply agree_bind; auto with reader; [now apply agree_read|].
    intros a. unfold agree. reflexivity.
  - intros ls. apply agree_bind; auto with reader; [apply agree_lift|].
    intros line. apply agree_bind; auto with reader; [apply agree_lift|].
    intros item. apply agree_lift.
Qed.

Lemma agree_total self w1 w2 :
  files w2 (path_join (Cgroup.path self) "memory.pressure") =
  files w1 (path_join (Cgroup.path self) "memory.pressure") ->
  agree (Cgroup.total self) w1 w2.
Proof.
  intros H. unfold Cgroup.total.
  apply agree_bind; [apply reader_field | now apply agree_field |].
  intros s. apply agree_lift.
Qed.

Lemma total_with_limit self l w :
  Cgroup.total (Cgroup.with_limit self l) w = Cgroup.total self w.
Proof. reflexivity. Qed.

(** ** The closed world: nobody else touches the files *)

Lemma init_closed c w s0 w0 :
  Senpai.init c w = Some (s0, w0) ->
  exists l0 total,
    s0 = Senpai.mk c (Cgroup.mk (cgpath c) (Some l0) (min_size c) (max_size c))
           total 0 (interval c) /\
    Cgroup.read_limit (Senpai.cgroup s0) w0 = Some (l0, w0) /\
    Cgroup.total (Senpai.cgroup s0) w0 = Some (total, w0).
Proof.
  unfold Senpai.init. unfold bind at 1, log at 1. unfold bind at 1.
  rewrite log_items_eq. unfold bind at 1.
  destruct (Cgroup.init _ _ _ _) as [[cg w1]|] eqn:E; [|discriminate].
  unfold bind at 1.
  destruct (Cgroup.total cg w1) as [[total w2]|] eqn:Et; [|discriminate].
  intros H; inversion H; subst; clear H.
  pose proof (reader_pure _ _ _ _ (reader_total _) Et). subst w1.
  unfold Cgroup.init in E. unfold bind at 1 in E.
  destruct (Cgroup.pressure _ _) as [[p w3]|]; [|discriminate].
  apply set_limit_inv in E. destruct E as (x & evs & -> & -> & _).
  eexists _, total. split; [reflexivity|]. split; [|exact Et].
  now apply read_limit_written.
Qed.

Lemma sleep_quiet w : Senpai.sleep quiet w = Some (tt, w).
Proof. now destruct w. Qed.

Lemma with_grace_ticks_twice s a b :
  Senpai.with_grace_ticks (Senpai.with_grace_ticks s a) b = Senpai.with_grace_ticks s b.
Proof. reflexivity. Qed.

Lemma logged_logged w l1 l2 : logged (logged w l1) l2 = logged w (l1 ++ l2).
Proof. unfold logged; cbn. now rewrite app_assoc. Qed.

(** A tick in the grace window that sees the stall total unchanged. *)
Lemma tick_quiet_hold {L : Py.Libm} s w s' w' :
  Senpai.tick s w = Some (s', w') ->
  Cgroup.total (Senpai.cgroup s) w = Some (Senpai.last_total s, w) ->
  Senpai.integral s = 0 -> 0 <= pressure (Senpai.conf s) ->
  Senpai.grace_ticks s <> 0 ->
  s' = Senpai.with_grace_ticks s (Senpai.grace_ticks s - 1) /\
  exists ev, w' = logged w [ev] /\ integrals [ev] = [0] /\ adjustments [ev] = [].
Proof.
  intros H Ht Hi Hp Hg. rewrite tick_eq, Ht in H.
  destruct (Senpai.shown_limit _ w) as [[lim w2]|]; [|discriminate].
  destruct (Cgroup.pressure _ w) as [[p w3]|]; [|discriminate].
  cbv zeta in H. cbn [Senpai.integral Senpai.with_integral] in H.
  rewrite Hi, Z.sub_diag, Z.add_0_l in H.
  destruct (Z.ltb_spec (pressure (Senpai.conf s)) 0); [lia|].
  destruct (Z.eqb_spec (Senpai.grace_ticks s) 0); [contradiction|].
  cbn [negb] in H. inversion H; subst; clear H. split.
  - destruct s as [c cg lt i g]. cbn in *. now subst.
  - eexists. repeat split.
Qed.

Lemma run_quiet {L : Py.Libm} n : forall s w s' w',
  Senpai.run s (repeat quiet n) w = Some (s', w') ->
  Cgroup.total (Senpai.cgroup s) w = Some (Senpai.last_total s, w) ->
  Senpai.integral s = 0 -> 0 <= pressure (Senpai.conf s) ->
  Z.of_nat n <= Senpai.grace_ticks s ->
  s' = Senpai.with_grace_ticks s (Senpai.grace_ticks s - Z.of_nat n) /\
  exists evs, w' = logged w evs /\ integrals evs = repeat 0 n /\ adjustments evs = [].
Proof.
  induction n as [|n IH]; intros s w s' w' H Ht Hi Hp Hg.
  - inversion H; subst. split.
    + destruct s'; cbn. now rewrite Z.sub_0_r.
    + exists []. unfold logged. rewrite app_nil_r. now destruct w'.
  - cbn [repeat] in H. rewrite run_cons in H.
    change (mkWorld (quiet (files w)) (stdout w)) with (mkWorld (files w) (stdout w)) in H.
    replace (mkWorld (files w) (stdout w)) with w in H by now destruct w.
    destruct (Senpai.tick s w) as [[s1 w1]|] eqn:E; [|discriminate].
    apply tick_quiet_hold in E; auto; [|lia].
    destruct E as (-> & ev & -> & Hi1 & Ha1).
    apply IH in H; cbn [Senpai.cgroup Senpai.with_grace_ticks Senpai.last_total
                         Senpai.integral Senpai.conf Senpai.grace_ticks]; auto; [| |lia].
    + destruct H as (-> & evs & -> & Hi2 & Ha2).
      rewrite with_grace_ticks_twice. cbn [Senpai.grace_ticks Senpai.with_grace_ticks].
      split; [f_equal; lia|].
      exists (ev :: evs). rewrite logged_logged. repeat split.
      * change (ev :: evs) with ([ev] ++ evs)%list.
        rewrite integrals_app, Hi1, Hi2. reflexivity.
      * change (ev :: evs) with ([ev] ++ evs)%list.
        rewrite adjustments_app, Ha1, Ha2. reflexivity.
    + now apply reader_logged; auto with reader.
Qed.

Lemma run_app {L : Py.Libm} l1 : forall l2 s w,
  Senpai.run s (l1 ++ l2) w =
  match Senpai.run s l1 w with
  | Some (s1, w1) => Senpai.run s1 l2 w1
  | None => None
  end.
Proof.
  induction l1 as [|e l1 IH]; intros l2 s w; [reflexivity|].
  cbn [app]. rewrite !run_cons.
  destruct (Senpai.tick s _) as [[s1 w1]|]; [apply IH|reflexivity].
Qed.

(** ** C7: the seventh tick of the scenario *)

(** C7, as stated, fails: with the scenario's configuration, a minimum of
    4096 and a cgroup using 4100096 bytes (1001 pages), the seventh tick
    reads the limit 4100096 and leaves 4055040 (990 pages), which is not
    99% of it; and with the default minimum of 100 MiB and a cgroup using
    that much, the limit does not shrink at all. *)
Lemma C7_counterexample :
  (exists s6 w6 s w',
      Senpai.main (mkConf "/cg" 4096 (Z.shiftl 100 30) 6 10000
                     0x1.47ae147ae147bp-7%float 1%float 10 20)
        (repeat quiet 6) (mkWorld (cgroup_dir "/cg" "1234" "4100096" "max") []) =
        Some (s6, w6) /\
      Senpai.grace_ticks s6 = 0 /\ Senpai.integral s6 = 0 /\
      Cgroup.read_limit (Senpai.cgroup s6) w6 = Some (4100096, w6) /\
      Senpai.tick s6 w6 = Some (s, w') /\
      adjustments (emitted w6 w') = [(-0x1.47ae147ae147bp-7)%float] /\
      Cgroup.limit (Senpai.cgroup s) = Some 4055040 /\
      100 * 4055040 <> 99 * 4100096) /\
  (exists s6 w6 s w',
      Senpai.main (default_conf "/cg") (repeat quiet 6)
        (mkWorld (cgroup_dir "/cg" "1234" "104857600" "max") []) = Some (s6, w6) /\
      Cgroup.read_limit (Senpai.cgroup s6) w6 = Some (104857600, w6) /\
      Senpai.tick s6 w6 = Some (s, w') /\
      adjustments (emitted w6 w') = [(-0x1.47ae147ae147bp-7)%float] /\
      Cgroup.limit (Senpai.cgroup s) = Some 104857600).
Proof.
  split.
  - eexists _, _, _, _. split; [vm_compute; reflexivity|].
    do 3 (split; [vm_compute; reflexivity|]).
    split; [vm_compute; reflexivity|].
    repeat split. discriminate.
  - eexists _, _, _, _. split; [vm_compute; reflexivity|].
    split; [vm_compute; reflexivity|].
    split; [vm_compute; reflexivity|].
    repeat split.
Qed.

(** C7 (amended): with [interval = 6], [pressure = 10000],
    [max_probe = 0.01] and [coeff_probe = 10], in a run of seven ticks
    during which nobody else touches the files, the integral stays 0, the
    first six ticks only count the grace ticks down from 6 to 0, and the
    seventh tick tightens: the raw factor [(10000 / 10) ** 2 = 1000000]
    (an exact square, which an accurate [pow] returns as it is) is
    clamped to [0.01], [adjust] is called with [-0.01], the limit [x] read
    at that moment is the one stored at construction, the candidate is
    [int(x + x * -0.01)] in binary64 arithmetic, and the limit stored and
    written is that candidate clamped to the bounds and rounded down to a
    page boundary. *)
Theorem C7_seventh_tick {L : Py.Libm} {A : AccuratePow L} c w s w'
  (Hi : interval c = 6) (Hp : pressure c = 10000)
  (Hm : max_probe c = 0x1.47ae147ae147bp-7%float) (Hc : coeff_probe c = 10)
  (Hrun : Senpai.main c (repeat quiet 7) w = Some (s, w')) :
  exists s0 w0 s6 w6 l0 x',
    Senpai.init c w = Some (s0, w0) /\
    Cgroup.limit (Senpai.cgroup s0) = Some l0 /\
    Senpai.run s0 (repeat quiet 6) w0 = Some (s6, w6) /\
    integrals (emitted w0 w6) = [0; 0; 0; 0; 0; 0] /\
    adjustments (emitted w0 w6) = [] /\
    Senpai.grace_ticks s6 = 0 /\
    Senpai.cgroup s6 = Senpai.cgroup s0 /\
    Senpai.tick s6 w6 = Some (s, w') /\
    Cgroup.read_limit (Senpai.cgroup s6) w6 = Some (l0, w6) /\
    Py.int_truediv 10000 (Py.int_max 0 1) = Some 10000%float /\
    Py.float_div_int 10000 10 = Some 1000%float /\
    Py.float_square 1000 = Some 1000000%float /\
    Senpai.probe_adj c 0 = Some 0x1.47ae147ae147bp-7%float /\
    adjustments (emitted w6 w') = [(-0x1.47ae147ae147bp-7)%float] /\
    Cgroup.scaled l0 (-0x1.47ae147ae147bp-7) = Some x' /\
    Cgroup.limit (Senpai.cgroup s) = Some (Cgroup.sanitize (Senpai.cgroup s0) x') /\
    files w' (path_join (cgpath c) "memory.high") =
      Some (Py.str_of_int (Cgroup.sanitize (Senpai.cgroup s0) x')).
Proof.
  unfold Senpai.main, bind at 1 in Hrun.
  destruct (Senpai.init c w) as [[s0 w0]|] eqn:Einit; [|discriminate].
  destruct (init_closed _ _ _ _ Einit) as (l0 & total & Es0 & Hlim0 & Htot0).
  change (repeat quiet 7) with (repeat quiet 6 ++ [quiet])%list in Hrun.
  rewrite run_app in Hrun.
  destruct (Senpai.run s0 (repeat quiet 6) w0) as [[s6 w6]|] eqn:E6; [|discriminate].
  assert (Hq : s6 = Senpai.with_grace_ticks s0 (Senpai.grace_ticks s0 - Z.of_nat 6) /\
               exists evs, w6 = logged w0 evs /\ integrals evs = repeat 0 6 /\
                           adjustments evs = []).
  { apply (run_quiet 6 _ _ _ _ E6); rewrite Es0 in *; cbn; auto; lia. }
  destruct Hq as (Es6 & evs & Ew6 & Hint6 & Hadj6).
  rewrite run_cons in Hrun.
  replace (mkWorld (quiet (files w6)) (stdout w6)) with w6 in Hrun by now destruct w6.
  destruct (Senpai.tick s6 w6) as [[s7 w7]|] eqn:E7; [|discriminate].
  inversion Hrun; subst s7 w7; clear Hrun.
  assert (Hcg6 : Senpai.cgroup s6 = Senpai.cgroup s0) by now rewrite Es6.
  assert (Hlim6 : Cgroup.read_limit (Senpai.cgroup s6) w6 = Some (l0, w6)).
  { rewrite Hcg6, Ew6. apply reader_logged; auto with reader. }
  assert (Htot6 : Cgroup.total (Senpai.cgroup s6) w6 = Some (total, w6)).
  { rewrite Hcg6, Ew6. apply reader_logged; auto with reader. }
  assert (Hsq : Py.float_square 1000 = Some 1000000%float).
  { eapply float_square_literal;
      [vm_compute; reflexivity | vm_compute; reflexivity | lia | lia | reflexivity]. }
  assert (Hprobe : Senpai.probe_adj c 0 = Some 0x1.47ae147ae147bp-7%float).
  { rewrite probe_adj_eq, Hp, Hc, Hm. unfold adjustment.
    replace (Py.int_truediv 10000 (Py.int_max 0 1)) with (Some 10000%float)
      by (vm_compute; reflexivity).
    replace (Py.float_div_int 10000 10) with (Some 1000%float) by (vm_compute; reflexivity).
    rewrite Hsq. vm_compute. reflexivity. }
  exists s0, w0, s6, w6, l0.
  pose proof E7 as Htick.
  rewrite tick_eq, Htot6 in E7.
  destruct (Senpai.shown_limit s6 w6) as [[hl wl]|] eqn:Ehl; [|discriminate].
  destruct (Cgroup.pressure (Senpai.cgroup s6) w6) as [[p wp]|] eqn:Epr; [|discriminate].
  cbv zeta in E7.
  assert (Hs6 : s6 = Senpai.mk c (Cgroup.mk (cgpath c) (Some l0) (min_size c) (max_size c))
                       total 0 0).
  { rewrite Es6, Es0. cbn. rewrite Hi. reflexivity. }
  rewrite Hs6 in E7.
  cbn [Senpai.integral Senpai.with_integral Senpai.with_last_total Senpai.last_total
       Senpai.conf Senpai.grace_ticks Senpai.cgroup] in E7.
  rewrite Z.sub_diag, Z.add_0_l, Hp in E7.
  change (10000 <? 0) with false in E7. change (negb (0 =? 0)) with false in E7.
  cbv iota in E7. rewrite Hprobe in E7.
  rewrite adjust_eq in E7.
  cbn [Senpai.cgroup Senpai.with_cgroup Senpai.with_integral Senpai.with_last_total
       Senpai.conf Senpai.last_total Senpai.integral Senpai.grace_ticks] in E7.
  set (cg := Cgroup.mk (cgpath c) (Some l0) (min_size c) (max_size c)) in *.
  assert (Ecg : Senpai.cgroup s0 = cg) by now rewrite Es0.
  rewrite Hs6 in Hlim6. cbn [Senpai.cgroup] in Hlim6. fold cg in Hlim6.
  set (wa := logged (logged w6 _) _) in E7.
  assert (Hlima : Cgroup.read_limit cg wa = Some (l0, wa)).
  { unfold wa. rewrite logged_logged. apply reader_logged; auto with reader. }
  rewrite scale_limit_eq, Hlima in E7.
  match type of E7 with
  | context [Cgroup.scaled l0 ?f] =>
      destruct (Cgroup.scaled l0 f) as [x'|] eqn:Ex; [|discriminate]
  end.
  rewrite set_limit_eq, Hlima in E7.
  assert (Hdiv : diverged cg l0 = false) by (apply diverged_spec; reflexivity).
  rewrite Hdiv in E7. inversion E7; subst s w'; clear E7.
  exists x'. rewrite Ecg.
  repeat split; auto.
  - rewrite Ew6. unfold logged. rewrite emitted_app. exact Hint6.
  - rewrite Ew6. unfold logged. rewrite emitted_app. exact Hadj6.
  - rewrite Hs6. reflexivity.
  - rewrite Hs6. reflexivity.
  - rewrite Hs6. exact Hlim6.
  - unfold written, wa, logged. cbn [stdout files]. rewrite <- !app_assoc.
    rewrite emitted_app. reflexivity.
  - apply (files_written_high cg).
Qed.

Lemma C7_witness :
  exists s w' x',
    Senpai.main (default_conf "/cg") (repeat quiet 7)
      (mkWorld (cgroup_dir "/cg" "1234" "409600000" "max") []) = Some (s, w') /\
    Cgroup.scaled 409600000 (-0x1.47ae147ae147bp-7) = Some x' /\
    x' = 405504000 /\
    Cgroup.limit (Senpai.cgroup s) = Some 405504000.
Proof.
  destruct (Senpai.main (default_conf "/cg") (repeat quiet 7)
              (mkWorld (cgroup_dir "/cg" "1234" "409600000" "max") []))
    as [[s w']|] eqn:E; [|vm_compute in E; discriminate].
  destruct (C7_seventh_tick (default_conf "/cg") _ _ _ eq_refl eq_refl eq_refl eq_refl E)
    as (s0 & w0 & s6 & w6 & l0 & x' & Hinit & Hl0 & _ & _ & _ & _ & _ & _ & _ & _ & _ & _ &
        _ & _ & Hx & Hlim & _).
  vm_compute in Hinit. inversion Hinit; subst s0 w0. clear Hinit.
  vm_compute in Hl0. inversion Hl0; subst l0. clear Hl0.
  exists s, w', x'. split; [reflexivity|]. split; [exact Hx|].
  vm_compute in Hx. inversion Hx; subst x'. split; [reflexivity|exact Hlim].
Defined.

(** * The rest of the program *)

(** ** [import_limit]: clamping and aligning *)

Lemma div_4096_unique d q : 4096 * q <= d < 4096 * q + 4096 -> d / 4096 = q.
Proof. intros H. symmetry. apply (Z.div_unique d 4096 q (d - 4096 * q)); lia. Qed.

Lemma sanitize_eq self x :
  Cgroup.sanitize self x =
  4096 * (Z.max (Cgroup.limit_min self) (Z.min (Cgroup.limit_max self) x) / 4096).
Proof. unfold Cgroup.sanitize. now rewrite int_max_spec, int_min_spec, align_down. Qed.

(** Clamping a clamped and aligned value again, and aligning it, gives
    it back. *)
Lemma clamp_align_again mn mx x :
  let c := Z.max mn (Z.min mx x) in
  Z.max mn (Z.min mx (4096 * (c / 4096))) / 4096 = c / 4096.
Proof.
  intros c.
  pose proof (Z.div_mod c 4096 ltac:(lia)) as Hc.
  pose proof (Z.mod_pos_bound c 4096 ltac:(lia)) as Hr.
  set (q := c / 4096) in *.
  apply div_4096_unique.
  destruct (Z.le_gt_cases mn (4096 * q)) as [H1|H1];
    destruct (Z.le_gt_cases (4096 * q) mx) as [H2|H2]; lia.
Qed.

Lemma sanitize_mono self x y :
  x <= y -> Cgroup.sanitize self x <= Cgroup.sanitize self y.
Proof.
  intros H. rewrite !sanitize_eq.
  apply Z.mul_le_mono_nonneg_l; [lia|]. apply Z.div_le_mono; lia.
Qed.

Lemma sanitize_idem self x :
  Cgroup.sanitize self (Cgroup.sanitize self x) = Cgroup.sanitize self x.
Proof.
  rewrite (sanitize_eq self (Cgroup.sanitize self x)), (sanitize_eq self x).
  f_equal. apply clamp_align_again.
Qed.

(** X1: the clamp-and-align step of [import_limit] is idempotent and
    monotone, for every pair of bounds (aligned or not, crossed or not):
    a limit that went through it is left as it is by a second pass, and a
    larger candidate never gives a smaller limit. *)
Theorem X1_sanitize_idempotent_monotone self :
  (forall x, Cgroup.sanitize self (Cgroup.sanitize self x) = Cgroup.sanitize self x) /\
  (forall x y, x <= y -> Cgroup.sanitize self x <= Cgroup.sanitize self y).
Proof.
  split.
  - intros x. unfold Cgroup.sanitize at 1 3.
    rewrite !int_max_spec, !int_min_spec, !align_down, sanitize_eq.
    f_equal. apply clamp_align_again.
  - intros x y Hxy. unfold Cgroup.sanitize.
    rewrite !int_max_spec, !int_min_spec, !align_down.
    apply Z.mul_le_mono_nonneg_l; [lia|]. apply Z.div_le_mono; lia.
Qed.

Lemma X1_witness :
  let self := Cgroup.mk "/cg" None 100000000 (Z.shiftl 100 30) in
  Cgroup.sanitize self 5000 <= Cgroup.sanitize self 200000000.
Proof.
  intros self. apply (proj2 (X1_sanitize_idempotent_monotone self)). lia.
Defined.

(** ** [set_limit], [write] and [read_limit]: the limit read back *)

Lemma files_written_neq self l w evs f :
  f <> path_join (Cgroup.path self) "memory.high" ->
  files (written self l w evs) f = files w f.
Proof.
  intros Hf. unfold written, update; cbn.
  destruct (String.eqb_spec f (path_join (Cgroup.path self) "memory.high"));
    [contradiction|reflexivity].
Qed.

(** X2: when [set_limit] returns, [read_limit] reads back exactly the
    limit that was stored (the text written is never taken for the
    unbounded sentinel), and a second [set_limit] with that limit changes
    nothing: it keeps its candidate, stores the same limit, prints nothing
    and leaves every file with the same contents. *)
Theorem X2_set_limit_reads_back self cand w self1 w1 :
  Cgroup.set_limit self cand w = Some (self1, w1) ->
  exists l,
    Cgroup.limit self1 = Some l /\
    Cgroup.read_limit self1 w1 = Some (l, w1) /\
    exists w2,
      Cgroup.set_limit self1 (Some l) w1 = Some (self1, w2) /\
      stdout w2 = stdout w1 /\
      forall f, files w2 f = files w1 f.
Proof.
  intros H. apply set_limit_inv in H. destruct H as (x & evs & -> & -> & _).
  set (l := Cgroup.sanitize self x).
  set (self1 := Cgroup.with_limit self (Some l)).
  set (w1 := written self l w evs).
  assert (Hr : Cgroup.read_limit self1 w1 = Some (l, w1))
    by now apply read_limit_written.
  exists l. split; [reflexivity|]. split; [exact Hr|].
  exists (written self1 l w1 []).
  rewrite set_limit_eq, Hr.
  assert (Hd : diverged self1 l = false) by now apply diverged_spec.
  rewrite Hd.
  change (Cgroup.sanitize self1 l) with (Cgroup.sanitize self (Cgroup.sanitize self x)).
  rewrite sanitize_idem. fold l.
  repeat split.
  - cbn. apply app_nil_r.
  - intros f. unfold written at 1. cbn [files]. unfold update at 1.
    destruct (String.eqb_spec f (path_join (Cgroup.path self1) "memory.high")) as [->|];
      [|reflexivity].
    symmetry. exact (files_written_high self l w evs).
Qed.

Lemma X2_witness :
  let self := Cgroup.mk "/cg" (Some 4096) 4096 1048576 in
  let w := mkWorld (cgroup_dir "/cg" "0" "1000" "4096") [] in
  let self1 := Cgroup.with_limit self (Some 8192) in
  let w1 := written self 8192 w [] in
  exists l,
    Cgroup.limit self1 = Some l /\
    Cgroup.read_limit self1 w1 = Some (l, w1) /\
    exists w2,
      Cgroup.set_limit self1 (Some l) w1 = Some (self1, w2) /\
      stdout w2 = stdout w1 /\
      forall f, files w2 f = files w1 f.
Proof.
  intros self w self1 w1.
  apply (X2_set_limit_reads_back self (Some 10000) w).
  vm_compute. reflexivity.
Defined.

(** ** Construction: [Cgroup.__init__] and [Senpai.__init__] *)

Lemma init_eq c w :
  Senpai.init c w =
  let cg := cgroup0 c in
  let w0 := logged w (LogMsg "Configuration:" ::
                      map (fun kv => LogConfItem (fst kv) (snd kv)) (conf_items c)) in
  match Cgroup.pressure cg w, Cgroup.read_limit cg w,
        Cgroup.read_current cg w, Cgroup.total cg w with
  | Some _, Some _, Some (cur, _), Some (total, _) =>
      Some (Senpai.mk c (Cgroup.with_limit cg (Some (Cgroup.sanitize cg cur)))
              total 0 (interval c),
            written cg (Cgroup.sanitize cg cur) w0
              [LogMsg "Resetting limit to memory.current."])
  | _, _, _, _ => None
  end.
Proof.
  cbv zeta. set (cg := cgroup0 c).
  set (evs := LogMsg "Configuration:" ::
              map (fun kv => LogConfItem (fst kv) (snd kv)) (conf_items c)).
  unfold Senpai.init. unfold bind at 1, log at 1.
  fold (logged w [LogMsg "Configuration:"]). unfold bind at 1.
  rewrite log_items_eq. rewrite logged_logged.
  change ([LogMsg "Configuration:"] ++ _)%list with evs.
  unfold bind at 1. unfold Cgroup.init.
  change (Cgroup.mk (cgpath c) None (min_size c) (max_size c)) with cg.
  unfold bind at 1.
  rewrite (reader_run_logged _ w evs (reader_pressure cg)).
  destruct (Cgroup.pressure cg w) as [[p wp]|].
  2:{ reflexivity. }
  rewrite set_limit_eq.
  rewrite (reader_run_logged _ w evs (reader_read_limit cg)).
  destruct (Cgroup.read_limit cg w) as [[r wr]|]; [|reflexivity].
  change (diverged cg r) with true. cbv iota.
  rewrite (reader_run_logged _ w evs (reader_read_current cg)).
  destruct (Cgroup.read_current cg w) as [[cur wc]|].
  2:{ now destruct (Cgroup.total cg w) as [[? ?]|]. }
  unfold bind.
  set (l := Cgroup.sanitize cg cur).
  set (w1 := written cg l (logged w evs) _).
  assert (Ht : agree (Cgroup.total cg) w w1).
  { apply agree_total. unfold w1. rewrite files_written_other by discriminate. reflexivity. }
  unfold agree in Ht. change (Cgroup.total (Cgroup.with_limit cg (Some l)) w1)
    with (Cgroup.total cg w1). rewrite Ht.
  now destruct (Cgroup.total cg w) as [[total wt]|].
Qed.

(** X3: construction always starts from the current usage.  When
    [Senpai(conf)] returns, whatever [memory.high] held (the unbounded
    sentinel or a number), the limit stored and written is
    [memory.current] clamped and aligned; the stall total read becomes
    [last_total], the integral is 0 and the grace counter is the interval;
    and what was printed is the configuration followed by the one reset
    message. *)
Theorem X3_init_resets_to_current c w s w' :
  Senpai.init c w = Some (s, w') ->
  exists cur total,
    Cgroup.read_current (cgroup0 c) w = Some (cur, w) /\
    Cgroup.total (cgroup0 c) w = Some (total, w) /\
    s = Senpai.mk c
          (Cgroup.mk (cgpath c) (Some (Cgroup.sanitize (cgroup0 c) cur))
             (min_size c) (max_size c))
          total 0 (interval c) /\
    files w' (path_join (cgpath c) "memory.high") =
      Some (Py.str_of_int (Cgroup.sanitize (cgroup0 c) cur)) /\
    emitted w w' =
      (LogMsg "Configuration:" ::
       map (fun kv => LogConfItem (fst kv) (snd kv)) (conf_items c) ++
       [LogMsg "Resetting limit to memory.current."])%list.
Proof.
  rewrite init_eq. cbv zeta.
  destruct (Cgroup.pressure _ w) as [[p wp]|]; [|discriminate].
  destruct (Cgroup.read_limit _ w) as [[r wr]|]; [|discriminate].
  destruct (Cgroup.read_current _ w) as [[cur wc]|] eqn:Ec; [|discriminate].
  destruct (Cgroup.total _ w) as [[total wt]|] eqn:Et; [|discriminate].
  intros H; inversion H; subst; clear H.
  pose proof (reader_pure _ _ _ _ (reader_read_current _) Ec). subst wc.
  pose proof (reader_pure _ _ _ _ (reader_total _) Et). subst wt.
  exists cur, total. repeat split.
  - exact (files_written_high (cgroup0 c) _ _ _).
  - unfold written, logged. cbn [stdout files]. rewrite <- app_assoc.
    rewrite emitted_app. reflexivity.
Qed.

Lemma X3_witness :
  let c := default_conf "/cg" in
  let w := mkWorld (cgroup_dir "/cg" "1234" "409601000" "max") [] in
  exists s w' cur total,
    Senpai.init c w = Some (s, w') /\
    Cgroup.read_current (cgroup0 c) w = Some (cur, w) /\
    Cgroup.total (cgroup0 c) w = Some (total, w) /\
    s = Senpai.mk c
          (Cgroup.mk (cgpath c) (Some (Cgroup.sanitize (cgroup0 c) cur))
             (min_size c) (max_size c))
          total 0 (interval c) /\
    files w' (path_join (cgpath c) "memory.high") =
      Some (Py.str_of_int (Cgroup.sanitize (cgroup0 c) cur)) /\
    emitted w w' =
      (LogMsg "Configuration:" ::
       map (fun kv => LogConfItem (fst kv) (snd kv)) (conf_items c) ++
       [LogMsg "Resetting limit to memory.current."])%list.
Proof.
  intros c w.
  destruct (Senpai.init c w) as [[s w']|] eqn:E; [|vm_compute in E; discriminate].
  destruct (X3_init_resets_to_current c w s w' E) as (cur & total & H).
  exists s, w', cur, total. split; [reflexivity|exact H].
Defined.

(** X4: a read that fails makes construction raise.  When one of the
    four reads the constructor makes raises on the files as they are
    (the pressure average or the stall total does not parse from the
    first line of [memory.pressure], [memory.high] holds neither the
    sentinel nor an integer, [memory.current] holds no integer),
    [Senpai(conf)] raises; in particular when one of the three files is
    missing. *)
Theorem X4_failed_read_raises c w :
  (Cgroup.pressure (cgroup0 c) w = None \/
   Cgroup.read_limit (cgroup0 c) w = None \/
   Cgroup.read_current (cgroup0 c) w = None \/
   Cgroup.total (cgroup0 c) w = None ->
   Senpai.init c w = None) /\
  (forall f,
      In f ["memory.pressure"; "memory.high"; "memory.current"] ->
      files w (path_join (cgpath c) f) = None ->
      Senpai.init c w = None).
Proof.
  assert (Hreads :
    Cgroup.pressure (cgroup0 c) w = None \/
    Cgroup.read_limit (cgroup0 c) w = None \/
    Cgroup.read_current (cgroup0 c) w = None \/
    Cgroup.total (cgroup0 c) w = None ->
    Senpai.init c w = None).
  { rewrite init_eq. cbv zeta.
    destruct (Cgroup.pressure _ w) as [[p wp]|];
      destruct (Cgroup.read_limit _ w) as [[r wr]|];
      destruct (Cgroup.read_current _ w) as [[cur wc]|];
      destruct (Cgroup.total _ w) as [[total wt]|];
      intros [H|[H|[H|H]]]; try reflexivity; discriminate. }
  split; [exact Hreads|].
  intros f Hin Hf. apply Hreads.
  destruct Hin as [<-|[<-|[<-|[]]]].
  - left. unfold Cgroup.pressure, Cgroup.field, Cgroup.readlines, bind, Cgroup.read.
    cbn [Cgroup.path cgroup0]. now rewrite Hf.
  - right; left. unfold Cgroup.read_limit, bind, Cgroup.read.
    cbn [Cgroup.path cgroup0]. now rewrite Hf.
  - right; right; left. unfold Cgroup.read_current, bind, Cgroup.read.
    cbn [Cgroup.path cgroup0]. now rewrite Hf.
Qed.

Lemma X4_witness :
  Senpai.init (default_conf "/cg")
    (mkWorld (cgroup_dir "/cg" "1234" "4096 pages" "max") []) = None /\
  Senpai.init (default_conf "/cg")
    (mkWorld (update (fun _ => None) "/cg/memory.current" "4096") []) = None.
Proof.
  split.
  - apply (proj1 (X4_failed_read_raises _ _)).
    right; right; left. vm_compute. reflexivity.
  - apply (proj2 (X4_failed_read_raises _ _) "memory.high").
    + right; left. reflexivity.
    + reflexivity.
Defined.

(** ** What a tick writes and prints *)

Lemma emitted_nil w w' : stdout w' = stdout w -> emitted w w' = [].
Proof. unfold emitted. intros ->. apply skipn_all. Qed.

Lemma emitted_ext w w' evs : stdout w' = (stdout w ++ evs)%list -> emitted w w' = evs.
Proof.
  intros H. destruct w' as [fs o]. cbn in H. subst o. apply emitted_app.
Qed.

Lemma tick_files {L : Py.Libm} s w s' w' :
  Senpai.tick s w = Some (s', w') ->
  (forall f, f <> path_join (Cgroup.path (Senpai.cgroup s)) "memory.high" ->
             files w' f = files w f) /\
  (adjustments (emitted w w') = [] -> forall f, files w' f = files w f).
Proof.
  rewrite tick_eq.
  destruct (Cgroup.total _ w) as [[total w1]|]; [|discriminate].
  destruct (Senpai.shown_limit _ w) as [[lim w2]|]; [|discriminate].
  destruct (Cgroup.pressure _ w) as [[p w3]|]; [|discriminate].
  cbv zeta.
  set (s0 := Senpai.with_integral _ _).
  set (w0 := logged w _).
  assert (Hadj : forall f s1 w4,
    Senpai.adjust s0 f w0 = Some (s1, w4) ->
    (forall n, n <> path_join (Cgroup.path (Senpai.cgroup s)) "memory.high" ->
               files w4 n = files w n) /\
    (adjustments (emitted w w4) = [] -> forall n, files w4 n = files w n)).
  { intros f s1 w4 E. apply adjust_inv in E.
    destruct E as (x & evs & -> & -> & Ha & Hi). split.
    - intros n Hn. now rewrite files_written_neq.
    - intros Hem. exfalso. unfold written, w0, logged in Hem. cbn [stdout files] in Hem.
      rewrite <- app_assoc in Hem. rewrite emitted_app in Hem. discriminate. }
  destruct (_ <? _).
  - destruct (Senpai.backoff_adj _ _) as [adj|]; [|discriminate].
    destruct (Senpai.adjust _ _ _) as [[s1 w4]|] eqn:E; [|discriminate].
    intros H; inversion H; subst. eapply Hadj; eauto.
  - destruct (negb _).
    + intros H; inversion H; subst. split; reflexivity.
    + destruct (Senpai.probe_adj _ _) as [adj|]; [|discriminate].
      destruct (Senpai.adjust _ _ _) as [[s1 w4]|] eqn:E; [|discriminate].
      intros H; inversion H; subst. eapply Hadj; eauto.
Qed.

(** X5: the program writes one file only.  Construction and every tick
    leave every file other than the cgroup's [memory.high] as they found
    it, and a tick that makes no adjustment writes nothing at all. *)
Theorem X5_only_memory_high_is_written {L : Py.Libm} :
  (forall c w s w' f,
      Senpai.init c w = Some (s, w') ->
      f <> path_join (cgpath c) "memory.high" -> files w' f = files w f) /\
  (forall s w s' w' f,
      Senpai.tick s w = Some (s', w') ->
      f <> path_join (Cgroup.path (Senpai.cgroup s)) "memory.high" ->
      files w' f = files w f) /\
  (forall s w s' w',
      Senpai.tick s w = Some (s', w') ->
      adjustments (emitted w w') = [] -> forall f, files w' f = files w f).
Proof.
  repeat split.
  - intros c w s w' f H Hf. rewrite init_eq in H. cbv zeta in H.
    destruct (Cgroup.pressure _ w) as [[p wp]|]; [|discriminate].
    destruct (Cgroup.read_limit _ w) as [[r wr]|]; [|discriminate].
    destruct (Cgroup.read_current _ w) as [[cur wc]|]; [|discriminate].
    destruct (Cgroup.total _ w) as [[total wt]|]; [|discriminate].
    inversion H; subst. now rewrite files_written_neq.
  - intros s w s' w' f H. now apply (tick_files s w s' w').
  - intros s w s' w' H. now apply (tick_files s w s' w').
Qed.

Lemma X5_witness :
  let s := Senpai.mk (default_conf "/cg")
             (Cgroup.mk "/cg" (Some 409600000) (Z.shiftl 100 20) (Z.shiftl 100 30))
             1234 0 0 in
  let w := mkWorld (cgroup_dir "/cg" "1234" "409600000" "409600000") [] in
  exists s' w',
    Senpai.tick s w = Some (s', w') /\
    files w' "/cg/memory.current" = files w "/cg/memory.current".
Proof.
  intros s w.
  destruct (Senpai.tick s w) as [[s' w']|] eqn:E; [|vm_compute in E; discriminate].
  exists s', w'. split; [reflexivity|].
  apply (proj1 (proj2 X5_only_memory_high_is_written) s w s' w' _ E).
  intros H. vm_compute in H. discriminate H.
Defined.

Lemma tick_grows {L : Py.Libm} s w s' w' :
  Senpai.tick s w = Some (s', w') -> stdout w' = (stdout w ++ emitted w w')%list.
Proof.
  intros H. apply tick_inv in H. destruct H as (lim & p & total & evs & _ & Hout & _).
  now rewrite (emitted_ext _ _ _ Hout).
Qed.

Lemma run_grows {L : Py.Libm} envs : forall s w s' w',
  Senpai.run s envs w = Some (s', w') -> stdout w' = (stdout w ++ emitted w w')%list.
Proof.
  induction envs as [|env envs IH]; intros s w s' w' H.
  - inversion H; subst. rewrite emitted_nil by reflexivity. now rewrite app_nil_r.
  - rewrite run_cons in H.
    destruct (Senpai.tick s _) as [[s1 w1]|] eqn:E; [|discriminate].
    apply tick_grows in E. apply IH in H. cbn [stdout] in E.
    rewrite E, <- app_assoc in H. now rewrite (emitted_ext _ _ _ H).
Qed.

(** The events of a run: those of its first tick, then those of the rest. *)
Lemma run_cons_emitted {L : Py.Libm} s env envs w s' w' :
  Senpai.run s (env :: envs) w = Some (s', w') ->
  exists s1 w1,
    Senpai.tick s (mkWorld (env (files w)) (stdout w)) = Some (s1, w1) /\
    Senpai.run s1 envs w1 = Some (s', w') /\
    emitted w w' =
      (emitted (mkWorld (env (files w)) (stdout w)) w1 ++ emitted w1 w')%list.
Proof.
  rewrite run_cons.
  destruct (Senpai.tick s _) as [[s1 w1]|] eqn:E; [|discriminate].
  intros H. exists s1, w1. repeat split; auto.
  pose proof (tick_grows _ _ _ _ E) as H1. pose proof (run_grows _ _ _ _ _ H) as H2.
  cbn [stdout] in H1. rewrite H1, <- app_assoc in H2.
  now rewrite (emitted_ext _ _ _ H2).
Qed.

(** What one tick prints and keeps, by whether it adjusted. *)
Lemma tick_books {L : Py.Libm} s w s' w' :
  Senpai.tick s w = Some (s', w') ->
  exists total,
    Cgroup.total (Senpai.cgroup s) w = Some (total, w) /\
    Senpai.last_total s' = total /\
    Senpai.conf s' = Senpai.conf s /\
    integrals (emitted w w') = [Senpai.integral s + (total - Senpai.last_total s)] /\
    (adjustments (emitted w w') = [] /\
     Senpai.integral s' = Senpai.integral s + (total - Senpai.last_total s) \/
     (exists adj, adjustments (emitted w w') = [adj]) /\ Senpai.integral s' = 0).
Proof.
  intros H. apply tick_inv in H.
  destruct H as (lim & p & total & evs & Ht & Hout & Hc & Hl & Hcase).
  cbv zeta in *. rewrite (emitted_ext _ _ _ Hout).
  exists total. repeat split; auto.
  - cbn [integrals]. f_equal.
    destruct Hcase as [adj evs0 _ _ Ha Hi|_ _ _ _ _|adj evs0 _ _ _ Ha Hi]; cbn; auto.
  - destruct Hcase as [adj evs0 _ _ Ha Hi Hz _|_ _ Hi _ _|adj evs0 _ _ _ Ha Hi Hz _].
    + right. split; [|assumption]. exists adj. cbn. now rewrite Ha.
    + left. split; [reflexivity|assumption].
    + right. split; [|assumption]. eexists. cbn. now rewrite Ha.
Qed.

(** ** The integral *)

(** X6: the books a tick keeps.  Every tick stores the stall total it read
    as [last_total]; a tick that adjusts leaves the integral at 0 and one
    that does not adds the growth of the total to it.  So over any run in
    which no adjustment is made, the integral grows by exactly the growth
    of the total: [integral - last_total] is unchanged (also when the
    total went down: nothing guards against a negative integral). *)
Theorem X6_integral_bookkeeping {L : Py.Libm} :
  (forall s w s' w',
      Senpai.tick s w = Some (s', w') ->
      exists total,
        Cgroup.total (Senpai.cgroup s) w = Some (total, w) /\
        Senpai.last_total s' = total /\
        (adjustments (emitted w w') = [] ->
         Senpai.integral s' = Senpai.integral s + (total - Senpai.last_total s)) /\
        (adjustments (emitted w w') <> [] -> Senpai.integral s' = 0)) /\
  (forall envs s w s' w',
      Senpai.run s envs w = Some (s', w') ->
      adjustments (emitted w w') = [] ->
      Senpai.integral s' - Senpai.last_total s' =
      Senpai.integral s - Senpai.last_total s).
Proof.
  split.
  - intros s w s' w' H. apply tick_books in H.
    destruct H as (total & Ht & Hl & _ & _ & Hcase).
    exists total. repeat split; auto.
    + intros Hno. destruct Hcase as [[_ Hi]|[[adj Hadj] _]]; [exact Hi|].
      rewrite Hadj in Hno. discriminate.
    + intros Hsome. destruct Hcase as [[Hno _]|[_ Hz]]; [contradiction|exact Hz].
  - induction envs as [|env envs IH]; intros s w s' w' H Ha.
    + inversion H; now subst.
    + apply run_cons_emitted in H. destruct H as (s1 & w1 & E & H & Hem).
      rewrite Hem, adjustments_app in Ha. apply app_eq_nil in Ha. destruct Ha as [Ha1 Ha2].
      rewrite (IH _ _ _ _ H Ha2).
      apply tick_books in E.
      destruct E as (total & _ & Hl & _ & _ & [[_ Hi]|[[adj Hadj] _]]).
      * lia.
      * rewrite Hadj in Ha1. discriminate.
Qed.

Lemma X6_witness :
  let s := Senpai.mk (default_conf "/cg")
             (Cgroup.mk "/cg" (Some 409600000) (Z.shiftl 100 20) (Z.shiftl 100 30))
             1000 200 6 in
  let w := mkWorld (cgroup_dir "/cg" "1234" "409600000" "409600000") [] in
  exists s' w',
    Senpai.run s [quiet; quiet] w = Some (s', w') /\
    Senpai.integral s' - Senpai.last_total s' =
    Senpai.integral s - Senpai.last_total s.
Proof.
  intros s w.
  destruct (Senpai.run s [quiet; quiet] w) as [[s' w']|] eqn:E;
    [|vm_compute in E; discriminate].
  exists s', w'. split; [reflexivity|].
  apply (proj2 X6_integral_bookkeeping [quiet; quiet] s w s' w' E).
  vm_compute in E. inversion E; subst. vm_compute. reflexivity.
Defined.

(** X7: one status line per tick.  A run of [n] sleeps and ticks prints
    exactly [n] status lines and at most [n] adjust lines. *)
Theorem X7_run_log_lines {L : Py.Libm} envs : forall s w s' w',
  Senpai.run s envs w = Some (s', w') ->
  List.length (integrals (emitted w w')) = List.length envs /\
  (List.length (adjustments (emitted w w')) <= List.length envs)%nat.
Proof.
  induction envs as [|env envs IH]; intros s w s' w' H.
  - inversion H; subst. rewrite emitted_nil by reflexivity. cbn. lia.
  - apply run_cons_emitted in H. destruct H as (s1 & w1 & E & H & Hem).
    rewrite Hem, integrals_app, adjustments_app, !length_app.
    destruct (IH _ _ _ _ H) as [Hi Ha].
    apply tick_books in E. destruct E as (total & _ & _ & _ & Hint & Hcase).
    rewrite Hint. cbn [List.length].
    destruct Hcase as [[-> _]|[[adj ->] _]]; cbn [List.length]; lia.
Qed.

Lemma X7_witness :
  let s := Senpai.mk (default_conf "/cg")
             (Cgroup.mk "/cg" (Some 409600000) (Z.shiftl 100 20) (Z.shiftl 100 30))
             1234 0 1 in
  let w := mkWorld (cgroup_dir "/cg" "1234" "409600000" "409600000") [] in
  exists s' w',
    Senpai.run s [quiet; quiet; quiet] w = Some (s', w') /\
    List.length (integrals (emitted w w')) = 3%nat /\
    (List.length (adjustments (emitted w w')) <= 3)%nat.
Proof.
  intros s w.
  destruct (Senpai.run s [quiet; quiet; quiet] w) as [[s' w']|] eqn:E;
    [|vm_compute in E; discriminate].
  exists s', w'. split; [reflexivity|].
  exact (X7_run_log_lines [quiet; quiet; quiet] s w s' w' E).
Defined.

(** ** An interval that is not positive *)

Lemma tick_negative_grace {L : Py.Libm} s w s' w' :
  interval (Senpai.conf s) <= 0 -> Senpai.grace_ticks s < 0 ->
  Senpai.tick s w = Some (s', w') ->
  Senpai.grace_ticks s' < 0 /\ Senpai.conf s' = Senpai.conf s /\
  map Some (adjustments (emitted w w')) =
  map (Senpai.backoff_adj (Senpai.conf s))
      (triggers (Senpai.conf s) (integrals (emitted w w'))).
Proof.
  intros Hint Hg H. apply tick_inv in H.
  destruct H as (lim & p & total & evs & Ht & Hout & Hc & Hl & Hcase).
  cbv zeta in *. rewrite (emitted_ext _ _ _ Hout). unfold triggers.
  set (i := Senpai.integral s + (total - Senpai.last_total s)) in *.
  destruct Hcase as [adj evs0 Hlt Hadj Ha Hi _ Hg'|Hle Hnz _ Hg' _|adj evs0 _ Hz]; [| |lia].
  - cbn [integrals adjustments filter]. rewrite Ha, Hi. cbn [filter].
    destruct (Z.ltb_spec (pressure (Senpai.conf s)) i); [|lia].
    cbn. rewrite Hadj. repeat split; auto. lia.
  - cbn [integrals adjustments filter].
    destruct (Z.ltb_spec (pressure (Senpai.conf s)) i); [lia|].
    cbn. repeat split; auto. lia.
Qed.

(** X8: with an interval that is not positive the controller stops
    tightening.  [if self.grace_ticks:] takes a negative counter for a
    running grace window, and every reset sets it to [interval - 1 < 0]:
    once the counter is negative it stays negative, and every adjustment of
    every later run is a loosening one, the backoff factor of a tick
    whose integral exceeded the target.  (With [--interval 0] this is the
    state after the first adjustment; with a negative interval, the state
    after construction.) *)
Theorem X8_negative_grace_never_tightens {L : Py.Libm} envs : forall s w s' w',
  interval (Senpai.conf s) <= 0 -> Senpai.grace_ticks s < 0 ->
  Senpai.run s envs w = Some (s', w') ->
  Senpai.grace_ticks s' < 0 /\
  map Some (adjustments (emitted w w')) =
  map (Senpai.backoff_adj (Senpai.conf s))
      (triggers (Senpai.conf s) (integrals (emitted w w'))).
Proof.
  induction envs as [|env envs IH]; intros s w s' w' Hint Hg H.
  - inversion H; subst. rewrite emitted_nil by reflexivity. now split.
  - apply run_cons_emitted in H. destruct H as (s1 & w1 & E & H & Hem).
    apply tick_negative_grace in E; auto. destruct E as (Hg1 & Hc1 & E).
    rewrite <- Hc1 in Hint. destruct (IH _ _ _ _ Hint Hg1 H) as (Hg' & Hrest).
    split; [assumption|].
    rewrite Hem, adjustments_app, integrals_app. unfold triggers in *.
    rewrite filter_app, !map_app, E, Hrest, Hc1. reflexivity.
Qed.

Lemma X8_witness :
  let c := mkConf "/cg" (Z.shiftl 100 20) (Z.shiftl 100 30) 0 10000
             0x1.47ae147ae147bp-7%float 1%float 10 20 in
  let s := Senpai.mk c
             (Cgroup.mk "/cg" (Some 409600000) (Z.shiftl 100 20) (Z.shiftl 100 30))
             1234 0 (-1) in
  let w := mkWorld (cgroup_dir "/cg" "1234" "409600000" "409600000") [] in
  exists s' w',
    Senpai.run s [quiet; quiet] w = Some (s', w') /\
    Senpai.grace_ticks s' < 0 /\
    map Some (adjustments (emitted w w')) =
    map (Senpai.backoff_adj c) (triggers c (integrals (emitted w w'))).
Proof.
  intros c s w.
  destruct (Senpai.run s [quiet; quiet] w) as [[s' w']|] eqn:E;
    [|vm_compute in E; discriminate].
  exists s', w'. split; [reflexivity|].
  apply (X8_negative_grace_never_tightens [quiet; quiet] s w s' w'); [cbn; lia|cbn; lia|exact E].
Defined.

(** ** The defaults of the command line *)

(** X9: with the default bounds ([100 << 20] and [100 << 30], both
    multiples of the page size) the limit the controller holds is, after
    construction and after every tick, a multiple of 4096 between
    104857600 and 107374182400, whatever the cgroup files held. *)
Theorem X9_default_bounds_hold {L : Py.Libm} cg envs w s w' :
  Senpai.main (default_conf cg) envs w = Some (s, w') ->
  exists l,
    Cgroup.limit (Senpai.cgroup s) = Some l /\
    104857600 <= l <= 107374182400 /\ l mod 4096 = 0.
Proof.
  intros H. apply main_controller_of in H.
  destruct H as (_ & _ & Hmin & Hmax & x & Hx).
  exists (Cgroup.sanitize (Senpai.cgroup s) x). split; [assumption|].
  split.
  - pose proof (sanitize_bounds (Senpai.cgroup s) x) as Hb.
    rewrite Hmin, Hmax in Hb. apply Hb; vm_compute; [discriminate|reflexivity].
  - apply page_aligned_mod, sanitize_aligned.
Qed.

Lemma X9_witness :
  let w := mkWorld (cgroup_dir "/cg" "1234" "1000" "max") [] in
  exists s w' l,
    Senpai.main (default_conf "/cg") [quiet] w = Some (s, w') /\
    Cgroup.limit (Senpai.cgroup s) = Some l /\
    104857600 <= l <= 107374182400 /\ l mod 4096 = 0.
Proof.
  intros w.
  destruct (Senpai.main (default_conf "/cg") [quiet] w) as [[s w']|] eqn:E;
    [|vm_compute in E; discriminate].
  destruct (X9_default_bounds_hold "/cg" [quiet] w s w' E) as (l & H).
  exists s, w', l. split; [reflexivity|exact H].
Defined.

(** ** Integers that are floats *)

Section Exact.
Local Open Scope R_scope.

(** An integer below [2^53], scaled by a power of two that keeps it in the
    normal range, is a float: rounding leaves it as it is. *)
Lemma RND_int_scaled n e :
  (0 < n < 2 ^ 53)%Z -> (-1021 <= e)%Z ->
  RND (IZR n * bpow e) (IZR n * bpow e).
Proof.
  intros Hn He. right.
  pose proof (bpow_pos e) as Hpe.
  assert (Hn0 : 0 < IZR n) by (apply IZR_lt; lia).
  split; [nra|].
  pose proof (Z.log2_spec n ltac:(lia)) as [Hlo Hhi].
  pose proof (Z.log2_nonneg n) as Hl0.
  set (L := (Z.log2 n + 1)%Z).
  assert (HL : (1 <= L <= 53)%Z).
  { unfold L. split; [lia|].
    assert (2 ^ Z.log2 n < 2 ^ 53)%Z by lia.
    apply Z.pow_lt_mono_r_iff in H; lia. }
  apply (rounded_exact _ (L + e) (n * 2 ^ (53 - L))).
  - replace (L + e - 1)%Z with (L - 1 + e)%Z by lia.
    rewrite !bpow_add, (bpow_IZR L), (bpow_IZR (L - 1)) by lia.
    unfold L. replace (Z.log2 n + 1 - 1)%Z with (Z.log2 n) by lia.
    replace (Z.log2 n + 1)%Z with (Z.succ (Z.log2 n)) by lia.
    apply IZR_le in Hlo. apply IZR_lt in Hhi.
    split; [apply Rmult_le_compat_r | apply Rmult_lt_compat_r]; lra.
  - rewrite fexp_eq. replace (Z.max (L + e - 53) (-1074)) with (L + e - 53)%Z by lia.
    rewrite mult_IZR, <- bpow_IZR by lia. rewrite Rmult_assoc, <- bpow_add.
    do 2 f_equal. lia.
Qed.

Lemma RND_int n : (0 <= n <= 2 ^ 53)%Z -> RND (IZR n) (IZR n).
Proof.
  intros Hn.
  destruct (Z.eq_dec n 0) as [->|Hz]; [left; split; reflexivity|].
  destruct (Z.eq_dec n (2 ^ 53)) as [->|Hm].
  - rewrite <- bpow_IZR by lia. apply RND_bpow. lia.
  - replace (IZR n) with (IZR n * bpow 0) by (change (bpow 0) with 1; ring).
    apply RND_int_scaled; lia.
Qed.

Lemma Fmag_1024 : Fmag 1024%float = bpow 10.
Proof.
  unfold Fmag. change (Prim2SF 1024%float) with (S754_finite false 4503599627370496 (-42)).
  cbn [SFmag]. change 4503599627370496%Z with (2 ^ 52)%Z.
  rewrite <- bpow_IZR, <- bpow_add by lia. reflexivity.
Qed.

Lemma div1024_spec y :
  Ffin y = true -> frounds (Fsign y) (Fmag y * bpow (-10)) (y / 1024)%float.
Proof.
  intros Hy.
  assert (H1 : 1 <= Fmag 1024%float).
  { rewrite Fmag_1024. change 1 with (bpow 0). apply bpow_le. lia. }
  pose proof (div_spec_fin y 1024%float Hy eq_refl H1) as H.
  change (Fsign 1024%float) with false in H. rewrite xorb_false_r in H.
  rewrite Fmag_1024 in H.
  replace (Fmag y * bpow (-10)) with (Fmag y / bpow 10); [exact H|].
  reflexivity.
Qed.

Lemma gt1024_spec y :
  Ffin y = true -> ((1024 <? abs y)%float = true <-> bpow 10 < Fmag y).
Proof.
  intros Hy. destruct (abs_fin_nonneg y Hy) as [Ha Hn].
  destruct (ltb_nonneg 1024%float (abs y) eq_refl Ha eq_refl Hn) as [H _].
  now rewrite Fmag_1024, Fmag_abs in H.
Qed.

(** [k] divisions by 1024 of a float that holds the rounding of [a]. *)
Lemma div1024_fin k : forall y, Ffin y = true ->
  Ffin (div1024 k y) = true /\ Fsign (div1024 k y) = Fsign y.
Proof.
  induction k as [|k IH]; intros y Hy; [now split|].
  cbn [div1024]. destruct (div1024_spec y Hy) as (Hf & Hs & _).
  destruct (IH _ Hf) as [H1 H2]. split; [assumption|congruence].
Qed.

Lemma div1024_le k : forall y K,
  Ffin y = true -> (-1074 <= K - 10 * Z.of_nat k)%Z ->
  Fmag y <= bpow K -> Fmag (div1024 k y) <= bpow (K - 10 * Z.of_nat k).
Proof.
  induction k as [|k IH]; intros y K Hy HK Hle.
  - cbn [div1024]. now replace (K - 10 * Z.of_nat 0)%Z with K by lia.
  - cbn [div1024]. destruct (div1024_spec y Hy) as (Hf & _ & Hr).
    replace (K - 10 * Z.of_nat (S k))%Z with (K - 10 - 10 * Z.of_nat k)%Z by lia.
    apply IH; [assumption|lia|].
    eapply RND_monotone; [exact Hr | apply RND_bpow; lia |].
    replace (K - 10)%Z with (K + -10)%Z by lia. rewrite bpow_add.
    apply Rmult_le_compat_r; [apply Rlt_le, bpow_pos|assumption].
Qed.

Lemma div1024_ge k : forall y m e,
  Ffin y = true -> (0 < m < 2 ^ 53)%Z -> (-1021 <= e - 10 * Z.of_nat k)%Z ->
  IZR m * bpow e <= Fmag y ->
  IZR m * bpow (e - 10 * Z.of_nat k) <= Fmag (div1024 k y).
Proof.
  induction k as [|k IH]; intros y m e Hy Hm He Hle.
  - cbn [div1024]. now replace (e - 10 * Z.of_nat 0)%Z with e by lia.
  - cbn [div1024]. destruct (div1024_spec y Hy) as (Hf & _ & Hr).
    replace (e - 10 * Z.of_nat (S k))%Z with (e - 10 - 10 * Z.of_nat k)%Z by lia.
    apply IH; [assumption|assumption|lia|].
    eapply RND_monotone; [apply (RND_int_scaled m (e - 10)); [assumption|lia] | exact Hr |].
    replace (e - 10)%Z with (e + -10)%Z by lia. rewrite bpow_add, <- Rmult_assoc.
    apply Rmult_le_compat_r; [apply Rlt_le, bpow_pos|assumption].
Qed.

Lemma div1024_exact k : forall y m e,
  Ffin y = true -> (0 < m < 2 ^ 53)%Z -> (-1021 <= e - 10 * Z.of_nat k)%Z ->
  Fmag y = IZR m * bpow e ->
  Fmag (div1024 k y) = IZR m * bpow (e - 10 * Z.of_nat k).
Proof.
  induction k as [|k IH]; intros y m e Hy Hm He Hle.
  - cbn [div1024]. now replace (e - 10 * Z.of_nat 0)%Z with e by lia.
  - cbn [div1024]. destruct (div1024_spec y Hy) as (Hf & _ & Hr).
    replace (e - 10 * Z.of_nat (S k))%Z with (e - 10 - 10 * Z.of_nat k)%Z by lia.
    apply IH; [assumption|assumption|lia|].
    eapply RND_fun; [exact Hr|].
    rewrite Hle. replace (e - 10)%Z with (e + -10)%Z by lia.
    rewrite bpow_add, <- Rmult_assoc. rewrite Rmult_assoc, <- bpow_add.
    apply RND_int_scaled; [assumption|lia].
Qed.

(** The conversion overflows from [2^1024 - 2^970] on: that number is
    half-way between the largest float and [2^1024], and the tie goes to
    the even mantissa, which is out of range. *)
Lemma RND_threshold : RND (bpow 1024 - bpow 970) (bpow 1024).
Proof.
  pose proof (bpow_pos 970) as Hp.
  assert (H1 : bpow 1024 = bpow 54 * bpow 970) by (rewrite <- bpow_add; reflexivity).
  assert (H2 : bpow 1023 = bpow 53 * bpow 970) by (rewrite <- bpow_add; reflexivity).
  assert (H3 : bpow 54 = 2 * bpow 53) by (rewrite <- bpow_succ; reflexivity).
  assert (H4 : 1 < bpow 53).
  { change 1 with (bpow 0). apply bpow_lt. lia. }
  right. split; [nra|].
  exists 1024%Z, (2 ^ 53 - 1)%Z, (loc_Inexact Eq).
  split; [|split].
  - change (1024 - 1)%Z with 1023%Z. split; nra.
  - cbn [located]. rewrite fexp_eq. change (Z.max (1024 - 53) (-1074)) with 971%Z.
    rewrite minus_IZR, <- bpow_IZR by lia.
    rewrite Rmult_minus_distr_r, <- !bpow_add.
    change (1024 + - (971))%Z with 53%Z. change (970 + - (971))%Z with (-1)%Z.
    assert (H5 : bpow (-1) = / 2).
    { apply Rmult_eq_reg_l with 2; [|lra]. rewrite <- bpow_1 at 1.
      rewrite <- bpow_add. change (1 + -1)%Z with 0%Z. rewrite bpow_0. field. }
    rewrite H5. change (IZR 1) with 1. lra.
  - rewrite fexp_eq. change (Z.max (1024 - 53) (-1074)) with 971%Z.
    change (round_nearest_even (2 ^ 53 - 1) (loc_Inexact Eq)) with (2 ^ 53)%Z.
    rewrite <- bpow_IZR, <- bpow_add by lia. reflexivity.
Qed.

Lemma RND_below_threshold x r :
  RND x r -> x < bpow 1024 - bpow 970 -> r < bpow 1024.
Proof.
  intros Hr Hx.
  pose proof (bpow_pos 970) as Hp.
  assert (H1 : bpow 1024 = bpow 53 * bpow 971) by (rewrite <- bpow_add; reflexivity).
  assert (H2 : bpow 971 = 2 * bpow 970) by (rewrite <- bpow_succ; reflexivity).
  assert (H3 : bpow 1023 = bpow 52 * bpow 971) by (rewrite <- bpow_add; reflexivity).
  assert (H4 : bpow 53 = 2 * bpow 52) by (rewrite <- bpow_succ; reflexivity).
  assert (H5 : 1 < bpow 52).
  { change 1 with (bpow 0). apply bpow_lt. lia. }
  assert (Hmax : RND (IZR (2 ^ 53 - 1) * bpow 971) (IZR (2 ^ 53 - 1) * bpow 971)).
  { apply RND_int_scaled; lia. }
  assert (Emax : IZR (2 ^ 53 - 1) * bpow 971 = bpow 1024 - bpow 971).
  { rewrite minus_IZR, <- bpow_IZR by lia. rewrite H1. change (IZR 1) with 1. ring. }
  destruct (Rle_lt_dec x (IZR (2 ^ 53 - 1) * bpow 971)) as [Hle|Hgt].
  - pose proof (RND_monotone _ _ _ _ Hr Hmax Hle). lra.
  - assert (Hr' : RND x (IZR (2 ^ 53 - 1) * bpow 971)).
    { right. split; [nra|].
      exists 1024%Z, (2 ^ 53 - 1)%Z, (loc_Inexact Lt).
      split; [|split].
      + change (1024 - 1)%Z with 1023%Z. split; nra.
      + cbn [located]. rewrite fexp_eq. change (Z.max (1024 - 53) (-1074)) with 971%Z.
        pose proof (bpow_pos (-971)) as Hq.
        assert (Hone : bpow 971 * bpow (-971) = 1) by (rewrite <- bpow_add; reflexivity).
        split.
        * apply Rmult_lt_reg_r with (bpow 971); [lra|].
          rewrite Rmult_assoc, (Rmult_comm (bpow (-971))), Hone. lra.
        * apply Rmult_lt_reg_r with (bpow 971); [lra|].
          rewrite Rmult_assoc, (Rmult_comm (bpow (-971))), Hone.
          rewrite Rmult_plus_distr_r, Emax. lra.
      + rewrite fexp_eq. change (Z.max (1024 - 53) (-1074)) with 971%Z.
        reflexivity. }
    rewrite (RND_fun _ _ _ Hr Hr'). lra.
Qed.

Lemma float_of_int_none_iff n :
  Py.float_of_int n = None <-> (2 ^ 1024 - 2 ^ 970 <= Z.abs n)%Z.
Proof.
  unfold Py.float_of_int, Py.SF_of_Z.
  destruct (binary_normalize_spec n 0) as (r & Hr & Hrs).
  change (bpow 0) with 1 in Hr. rewrite Rmult_1_r in Hr.
  assert (ET : IZR (2 ^ 1024 - 2 ^ 970) = bpow 1024 - bpow 970).
  { rewrite minus_IZR, <- !bpow_IZR by lia. reflexivity. }
  apply rounds_inv in Hrs. destruct Hrs as (_ & _ & Hcase).
  destruct (Z_le_gt_dec (2 ^ 1024 - 2 ^ 970) (Z.abs n)) as [Hge|Hlt].
  - assert (Hbig : bpow 1024 <= r).
    { eapply RND_monotone; [exact RND_threshold | exact Hr |].
      rewrite <- ET. now apply IZR_le. }
    destruct Hcase as [(_ & _ & Hlt)|[-> _]]; [lra|]. split; [intros _; exact Hge|reflexivity].
  - assert (Hsmall : r < bpow 1024).
    { apply (RND_below_threshold _ _ Hr). rewrite <- ET. apply IZR_lt. lia. }
    destruct Hcase as [(Hf & _)|[_ Hge]]; [|lra].
    split; [|lia].
    destruct (binary_normalize _ _ _ _ _); try discriminate; cbn; discriminate.
Qed.

Lemma float_of_int_overflow n :
  (2 ^ 1024 <= Z.abs n)%Z -> Py.float_of_int n = None.
Proof.
  intros Hn. apply float_of_int_none_iff.
  assert (0 < 2 ^ 970)%Z by (apply Z.pow_pos_nonneg; lia). lia.
Qed.

End Exact.


(** ** The human-readable size [h] *)

Section Human.
Local Open Scope R_scope.

Lemma h_loop_stop fuel y order :
  Ffin y = true -> Fmag y <= bpow 10 -> Py.h_loop fuel y order = (y, order).
Proof.
  intros Hy Hle. destruct fuel as [|fuel]; [reflexivity|]. cbn [Py.h_loop].
  destruct (1024 <? abs y)%float eqn:E; [|reflexivity].
  apply (gt1024_spec y Hy) in E. lra.
Qed.

Lemma h_loop_go fuel y order :
  Ffin y = true -> bpow 10 < Fmag y -> (order < 4)%nat ->
  Py.h_loop (S fuel) y order = Py.h_loop fuel (y / 1024)%float (S order).
Proof.
  intros Hy Hgt Ho. cbn [Py.h_loop].
  apply (gt1024_spec y Hy) in Hgt. rewrite Hgt.
  destruct (Nat.ltb_spec order 4); [reflexivity|lia].
Qed.

Lemma above_1024 j :
  (10 <= j)%Z -> bpow 10 < IZR (2 ^ j + 1) * bpow (0 - (j - 10)).
Proof.
  intros Hj. rewrite plus_IZR, <- bpow_IZR by lia.
  rewrite Rmult_plus_distr_r, <- bpow_add.
  replace (j + (0 - (j - 10)))%Z with 10%Z by lia.
  pose proof (bpow_pos (0 - (j - 10))). lra.
Qed.

Lemma h_run x f :
  (1024 < Z.abs x)%Z -> Py.float_of_int x = Some f ->
  Py.h x = Some (Py.NFloat (div1024 (suffix_index (Z.abs x)) f),
                 suffix_index (Z.abs x)).
Proof.
  intros Hx Ef. unfold Py.h.
  destruct (Z.ltb_spec 1024 (Z.abs x)) as [_|]; [|lia]. rewrite Ef.
  apply float_of_int_spec in Ef. destruct Ef as (Hf & _ & Hr).
  set (n := Z.abs x) in *.
  assert (Hup : forall K, (0 <= K)%Z -> (n <= 2 ^ K)%Z -> Fmag f <= bpow K).
  { intros K HK Hn. eapply RND_monotone; [exact Hr | apply RND_bpow; lia |].
    rewrite bpow_IZR by lia. now apply IZR_le. }
  assert (Hlo : forall j, (10 <= j <= 40)%Z -> (2 ^ j < n)%Z ->
                          IZR (2 ^ j + 1) * bpow 0 <= Fmag f).
  { intros j Hj Hn.
    assert (2 ^ j < 2 ^ 53 - 1)%Z.
    { assert (2 ^ j <= 2 ^ 40)%Z by (apply Z.pow_le_mono_r; lia). lia. }
    assert (0 < 2 ^ j)%Z by (apply Z.pow_pos_nonneg; lia).
    eapply RND_monotone; [apply (RND_int_scaled (2 ^ j + 1) 0); lia | exact Hr |].
    change (bpow 0) with 1. rewrite Rmult_1_r. apply IZR_le. lia. }
  assert (Hm : forall j, (10 <= j <= 40)%Z -> (0 < 2 ^ j + 1 < 2 ^ 53)%Z).
  { intros j Hj. assert (2 ^ j <= 2 ^ 40)%Z by (apply Z.pow_le_mono_r; lia).
    assert (0 < 2 ^ j)%Z by (apply Z.pow_pos_nonneg; lia). lia. }
  assert (Hstop : forall k fuel,
    (n <= 2 ^ (10 + 10 * Z.of_nat k))%Z ->
    Py.h_loop fuel (div1024 k f) k = (div1024 k f, k)).
  { intros k fuel Hn. apply h_loop_stop; [now apply div1024_fin|].
    assert (H0 : (0 <= 10 + 10 * Z.of_nat k)%Z) by lia.
    assert (H1 : (-1074 <= 10 + 10 * Z.of_nat k - 10 * Z.of_nat k)%Z) by lia.
    pose proof (div1024_le k f (10 + 10 * Z.of_nat k) Hf H1 (Hup _ H0 Hn)) as H.
    now replace (10 + 10 * Z.of_nat k - 10 * Z.of_nat k)%Z with 10%Z in H by lia. }
  assert (Hgo : forall k fuel, (1 <= k < 4)%nat ->
    (2 ^ (10 + 10 * Z.of_nat k) < n)%Z ->
    Py.h_loop (S fuel) (div1024 k f) k = Py.h_loop fuel (div1024 (S k) f) (S k)).
  { intros k fuel Hk Hn.
    assert (E : div1024 (S k) f = (div1024 k f / 1024)%float).
    { clear. revert f. induction k as [|k IH]; intros f; [reflexivity|].
      cbn [div1024] in *. now rewrite <- IH. }
    rewrite E. apply h_loop_go; [now apply div1024_fin| |lia].
    eapply Rlt_le_trans; [apply (above_1024 (10 + 10 * Z.of_nat k)); lia|].
    replace (0 - (10 + 10 * Z.of_nat k - 10))%Z with (0 - 10 * Z.of_nat k)%Z by lia.
    apply (div1024_ge k f (2 ^ (10 + 10 * Z.of_nat k) + 1) 0 Hf);
      [apply Hm; lia|lia|]. apply Hlo; [lia|assumption]. }
  change (f / 1024)%float with (div1024 1 f).
  unfold suffix_index.
  destruct (Z.leb_spec n (2 ^ 10)); [lia|].
  destruct (Z.leb_spec n (2 ^ 20)) as [H20|H20].
  { now rewrite (Hstop 1%nat 3%nat H20). }
  rewrite (Hgo 1%nat 2%nat ltac:(lia) H20).
  destruct (Z.leb_spec n (2 ^ 30)) as [H30|H30].
  { now rewrite (Hstop 2%nat 2%nat H30). }
  rewrite (Hgo 2%nat 1%nat ltac:(lia) H30).
  destruct (Z.leb_spec n (2 ^ 40)) as [H40|H40].
  { now rewrite (Hstop 3%nat 1%nat H40). }
  rewrite (Hgo 3%nat 0%nat ltac:(lia) H40).
  reflexivity.
Qed.

(** X10: the suffix [h] picks.  A size of magnitude at most 1024 is
    printed as it is, with no suffix.  A larger one is divided by 1024
    until it is at most 1024 or the suffix is [T]: the suffix is [k] up
    to [2^20], [M] up to [2^30], [G] up to [2^40] (each bound included)
    and [T] beyond, the number printed being a finite float, for every
    size below [2^1024 - 2^970] in magnitude.  From [2^1024 - 2^970] on,
    where the size rounds to a float out of range, the first division
    raises [OverflowError]. *)
Theorem X10_h_suffix x :
  ((Z.abs x <= 1024)%Z -> Py.h x = Some (Py.NInt x, suffix_index (Z.abs x))) /\
  ((1024 < Z.abs x < 2 ^ 1024 - 2 ^ 970)%Z ->
   exists y, Py.h x = Some (Py.NFloat y, suffix_index (Z.abs x)) /\
             PrimFloat.is_finite y = true) /\
  ((2 ^ 1024 - 2 ^ 970 <= Z.abs x)%Z -> Py.h x = None).
Proof.
  split; [|split].
  - intros Hx. unfold Py.h, suffix_index.
    destruct (Z.ltb_spec 1024 (Z.abs x)); [lia|].
    destruct (Z.leb_spec (Z.abs x) (2 ^ 10)); [reflexivity|lia].
  - intros [Hlo Hhi].
    destruct (Py.float_of_int x) as [f|] eqn:Ef.
    2:{ apply float_of_int_none_iff in Ef. lia. }
    eexists. split; [exact (h_run x f Hlo Ef)|].
    rewrite is_finite_spec. apply div1024_fin.
    now destruct (float_of_int_spec _ _ Ef).
  - intros Hx. unfold Py.h.
    assert (1024 < 2 ^ 1024 - 2 ^ 970)%Z by (vm_compute; reflexivity).
    destruct (Z.ltb_spec 1024 (Z.abs x)); [|lia].
    now rewrite (proj2 (float_of_int_none_iff x)).
Qed.

(** X11: below [2^53] the number [h] prints is exact: every division by
    1024 is exact, so the float printed, times [1024] to the power of the
    suffix index, is the size itself, sign included. *)
Theorem X11_h_exact x :
  (1024 < Z.abs x < 2 ^ 53)%Z ->
  exists y,
    Py.h x = Some (Py.NFloat y, suffix_index (Z.abs x)) /\
    Fval y * bpow (10 * Z.of_nat (suffix_index (Z.abs x))) = IZR x.
Proof.
  intros [Hlo Hhi].
  assert (Hb : (Z.abs x <= 2 ^ 1023)%Z).
  { assert (2 ^ 53 <= 2 ^ 1023)%Z by (apply Z.pow_le_mono_r; lia). lia. }
  destruct (float_of_int_defined x Hb) as (f & Ef).
  eexists. split; [exact (h_run x f Hlo Ef)|].
  apply float_of_int_spec in Ef. destruct Ef as (Hf & Hs & Hr).
  set (k := suffix_index (Z.abs x)).
  assert (Hk : (k <= 4)%nat).
  { unfold k, suffix_index. repeat destruct (_ <=? _)%Z; lia. }
  assert (Hm : Fmag f = IZR (Z.abs x) * bpow 0).
  { change (bpow 0) with 1. rewrite Rmult_1_r.
    eapply RND_fun; [exact Hr|]. apply RND_int; lia. }
  assert (Hx0 : (0 < Z.abs x < 2 ^ 53)%Z) by lia.
  assert (Hk0 : (-1021 <= 0 - 10 * Z.of_nat k)%Z) by lia.
  pose proof (div1024_exact k f (Z.abs x) 0 Hf Hx0 Hk0 Hm) as He.
  destruct (div1024_fin k f Hf) as [_ Hsk].
  unfold Fval. rewrite Hsk, Hs, He.
  assert (Hone : bpow (0 - 10 * Z.of_nat k) * bpow (10 * Z.of_nat k) = 1).
  { rewrite <- bpow_add. replace (0 - 10 * Z.of_nat k + 10 * Z.of_nat k)%Z with 0%Z by lia.
    reflexivity. }
  destruct (Z.ltb_spec x 0).
  - rewrite Z.abs_neq by lia. rewrite opp_IZR.
    rewrite <- Ropp_mult_distr_l, Rmult_assoc, Hone. ring.
  - rewrite Z.abs_eq by lia. rewrite Rmult_assoc, Hone. ring.
Qed.

Lemma X10_witness :
  (exists y, Py.h 409600000 = Some (Py.NFloat y, 2%nat) /\
             PrimFloat.is_finite y = true) /\
  Py.h (2 ^ 1024 - 2 ^ 970) = None.
Proof.
  split.
  - apply (proj1 (proj2 (X10_h_suffix 409600000))).
    split; reflexivity.
  - apply (proj2 (proj2 (X10_h_suffix (2 ^ 1024 - 2 ^ 970)))).
    intros H. vm_compute in H. discriminate H.
Defined.

Lemma X11_witness :
  exists y,
    Py.h (-409600000) = Some (Py.NFloat y, 2%nat) /\
    Fval y * bpow 20 = IZR (-409600000).
Proof.
  apply (X11_h_exact (-409600000)). split; reflexivity.
Defined.

End Human.


(** ** When the factors raise *)


(** X12: when computing a factor raises.  With the integral, the target
    and the coefficient within [2^64] in magnitude, nothing overflows
    (nor underflows, for an accurate [pow]), and
    the loosening factor raises exactly when the target or the backoff
    coefficient is 0 ([ZeroDivisionError]); the tightening factor raises
    exactly when the probe coefficient is 0: its first divisor,
    [max(integral, 1)], is never 0. *)
Theorem X12_factor_raises_iff {L : Py.Libm} {A : AccuratePow L} c i :
  Z.abs i <= 2 ^ 64 -> Z.abs (pressure c) <= 2 ^ 64 ->
  (Z.abs (coeff_backoff c) <= 2 ^ 64 ->
   (Senpai.backoff_adj c i = None <-> pressure c = 0 \/ coeff_backoff c = 0)) /\
  (Z.abs (coeff_probe c) <= 2 ^ 64 ->
   (Senpai.probe_adj c i = None <-> coeff_probe c = 0)).
Proof.
  intros Hi Hp. split; intros Hc.
  - rewrite backoff_adj_eq. now apply adjustment_none_iff.
  - assert (Hden : Z.abs (Py.int_max i 1) <= 2 ^ 64) by (rewrite int_max_spec; lia).
    rewrite probe_adj_eq. rewrite (adjustment_none_iff _ _ _ _ Hp Hden Hc).
    rewrite int_max_spec. split; [intros [H|H]; [lia|assumption] | now right].
Qed.

Lemma X12_witness :
  (Senpai.backoff_adj (default_conf "/cg") 50000 = None <->
   pressure (default_conf "/cg") = 0 \/ coeff_backoff (default_conf "/cg") = 0) /\
  (Senpai.probe_adj (default_conf "/cg") 50000 = None <->
   coeff_probe (default_conf "/cg") = 0).
Proof.
  assert (H50 : Z.abs 50000 <= 2 ^ 64) by (intros H; vm_compute in H; discriminate H).
  assert (Hp : Z.abs (pressure (default_conf "/cg")) <= 2 ^ 64)
    by (intros H; vm_compute in H; discriminate H).
  destruct (X12_factor_raises_iff (default_conf "/cg") 50000 H50 Hp) as [Hb Hpr].
  split; [apply Hb | apply Hpr]; intros H; vm_compute in H; discriminate H.
Defined.


(** ** Where the factors reach the step *)

Section Saturation.
Local Open Scope R_scope.

(** Past the point where the ratio reaches the coefficient, the factor is
    the whole step. *)
Lemma adjustment_saturates {L : Py.Libm} {A : AccuratePow L} num den coeff step adj :
  step_ok step ->
  adjustment num den coeff step = Some adj ->
  (Z.abs coeff * Z.abs den <= Z.abs num)%Z ->
  Ffin adj = true /\ Fnonneg adj = true /\ Fmag adj = Fmag step.
Proof.
  intros Hstep H Hsat.
  destruct (adjustment_spec _ _ _ _ _ Hstep H)
    as (Hden & Hc & err & cf & q & a & r & He & Hcf & H1 & Hq & Ha & Hr & Hf & Hn & Hm).
  repeat split; auto. rewrite Hm.
  assert (Hd : 1 <= IZR (Z.abs den)) by (apply (IZR_le 1); lia).
  assert (Hratio : IZR (Z.abs coeff) <= IZR (Z.abs num) / IZR (Z.abs den)).
  { apply Rmult_le_reg_r with (IZR (Z.abs den)); [lra|].
    unfold Rdiv. rewrite Rmult_assoc, Rinv_l, Rmult_1_r by lra.
    rewrite <- mult_IZR. now apply IZR_le. }
  assert (Herr : Fmag cf <= Fmag err) by (eapply RND_monotone; eauto).
  assert (Hq1 : 1 <= Fmag q).
  { eapply RND_monotone; [apply (RND_bpow 0); lia | exact Hq |].
    change (bpow 0) with 1.
    apply Rmult_le_reg_r with (Fmag cf); [lra|].
    unfold Rdiv. rewrite Rmult_assoc, Rinv_l by lra. lra. }
  assert (Ha1 : 1 <= Fmag a).
  { destruct Ha as (_ & _ & _ & _ & Hfl).
    exact (faithful_square_lower q a 0 ltac:(lia) Hq1 Hfl). }
  assert (Hs0 : 0 <= Fmag step) by apply SFmag_nonneg.
  assert (Hr1 : Fmag step <= r).
  { eapply RND_monotone; [apply RND_Fmag | exact Hr |]. nra. }
  now apply Rmin_right.
Qed.

Lemma eqb_nonneg x y :
  Ffin x = true -> Ffin y = true -> Fnonneg x = true -> Fnonneg y = true ->
  Fmag x = Fmag y -> (x =? y)%float = true.
Proof.
  intros Hx Hy Hnx Hny Hm. rewrite eqb_spec. unfold SFeqb.
  pose proof (SFcompare_nonneg _ _ Hx Hy (Prim2SF_valid x) (Prim2SF_valid y) Hnx Hny) as H.
  unfold Fmag in Hm. destruct (SFcompare _ _) as [[]|]; try reflexivity; try lra.
Qed.

End Saturation.

(** X13: the maximums are reached where the help text says.  With a
    finite non-negative step (and an accurate [pow]), the loosening factor equals [max_backoff]
    as soon as the integral is [coeff_backoff] times the target or more,
    and the tightening factor equals [max_probe] as soon as
    [max(integral, 1)] is [1/coeff_probe] of the target or less
    (magnitudes throughout). *)
Theorem X13_factors_saturate {L : Py.Libm} {A : AccuratePow L} c i :
  (forall adj,
      step_ok (max_backoff c) ->
      Z.abs (coeff_backoff c) * Z.abs (pressure c) <= Z.abs i ->
      Senpai.backoff_adj c i = Some adj ->
      (adj =? max_backoff c)%float = true) /\
  (forall adj,
      step_ok (max_probe c) ->
      Z.abs (coeff_probe c) * Z.max i 1 <= Z.abs (pressure c) ->
      Senpai.probe_adj c i = Some adj ->
      (adj =? max_probe c)%float = true).
Proof.
  split; intros adj Hstep Hsat H.
  - rewrite backoff_adj_eq in H.
    destruct (adjustment_saturates _ _ _ _ _ Hstep H Hsat) as (Hf & Hn & Hm).
    destruct (step_ok_nonneg _ Hstep) as [Hfs Hns].
    now apply eqb_nonneg.
  - rewrite probe_adj_eq, int_max_spec in H.
    assert (Hsat' : Z.abs (coeff_probe c) * Z.abs (Z.max i 1) <= Z.abs (pressure c)).
    { rewrite (Z.abs_eq (Z.max i 1)) by lia. exact Hsat. }
    destruct (adjustment_saturates _ _ _ _ _ Hstep H Hsat') as (Hf & Hn & Hm).
    destruct (step_ok_nonneg _ Hstep) as [Hfs Hns].
    now apply eqb_nonneg.
Qed.

Lemma X13_witness :
  (0x1p+0 =? max_backoff (default_conf "/cg"))%float = true /\
  (0x1.47ae147ae147bp-7 =? max_probe (default_conf "/cg"))%float = true.
Proof.
  split.
  - apply (proj1 (X13_factors_saturate (default_conf "/cg") 200000)).
    + split; reflexivity.
    + cbn. lia.
    + vm_compute. reflexivity.
  - apply (proj2 (X13_factors_saturate (default_conf "/cg") 1000)).
    + split; reflexivity.
    + cbn. lia.
    + vm_compute. reflexivity.
Defined.


(** ** The direction of an adjustment *)

Section Direction.
Local Open Scope R_scope.

Lemma Fval_eq f : Fval f = SFval (Prim2SF f).
Proof. reflexivity. Qed.

Lemma cond_Zopp_IZR s n : IZR (cond_Zopp s n) = if s then - IZR n else IZR n.
Proof. destruct s; cbn; [apply opp_IZR|reflexivity]. Qed.

(** The sum of two finite floats: the rounding of the sum of their
    values, with its sign. *)
Lemma SFadd_spec x y :
  SFfin x = true -> SFfin y = true ->
  valid_binary x = true -> valid_binary y = true ->
  exists s r,
    RND (Rabs (SFval x + SFval y)) r /\ rounds s r (SFadd prec emax x y) /\
    (SFval x + SFval y < 0 -> s = true) /\ (0 < SFval x + SFval y -> s = false).
Proof.
  destruct x as [sx|sx| |sx mx ex], y as [sy|sy| |sy my ey]; try discriminate;
    intros _ _ Hvx Hvy; cbn [SFadd]; unfold SFval; cbn [SFsign SFmag].
  - exists (if sx then sy else false), 0. repeat split.
    + left. split; [|reflexivity]. destruct sx, sy; rewrite ?Ropp_0, Rplus_0_r; apply Rabs_R0.
    + destruct sx, sy; now apply rounds_zero.
    + destruct sx, sy; intros; lra.
    + destruct sx, sy; intros; lra.
  - assert (Hp : 0 < IZR (Zpos my) * bpow ey).
    { pose proof (bpow_pos ey). assert (0 < IZR (Zpos my)) by (apply IZR_lt; lia). nra. }
    exists sy, (IZR (Zpos my) * bpow ey). repeat split.
    + right. split.
      * destruct sx, sy; rewrite ?Ropp_0, Rplus_0_l; apply Rabs_pos_lt; lra.
      * replace (Rabs _) with (IZR (Zpos my) * bpow ey).
        { now apply rounded_bounded. }
        destruct sx, sy; rewrite ?Ropp_0, Rplus_0_l, ?Rabs_Ropp; symmetry; apply Rabs_pos_eq; lra.
    + now apply rounds_finite.
    + destruct sx, sy; intros; try reflexivity; lra.
    + destruct sx, sy; intros; try reflexivity; lra.
  - assert (Hp : 0 < IZR (Zpos mx) * bpow ex).
    { pose proof (bpow_pos ex). assert (0 < IZR (Zpos mx)) by (apply IZR_lt; lia). nra. }
    exists sx, (IZR (Zpos mx) * bpow ex). repeat split.
    + right. split.
      * destruct sx, sy; rewrite ?Ropp_0, Rplus_0_r; apply Rabs_pos_lt; lra.
      * replace (Rabs _) with (IZR (Zpos mx) * bpow ex).
        { now apply rounded_bounded. }
        destruct sx, sy; rewrite ?Ropp_0, Rplus_0_r, ?Rabs_Ropp; symmetry; apply Rabs_pos_eq; lra.
    + now apply rounds_finite.
    + destruct sx, sy; intros; try reflexivity; lra.
    + destruct sx, sy; intros; try reflexivity; lra.
  - set (ez := Z.min ex ey).
    pose proof (shl_align_spec mx ex ez) as Hx.
    pose proof (shl_align_spec my ey ez) as Hy.
    destruct (shl_align mx ex ez) as [X ex']. destruct (shl_align my ey ez) as [Y ey'].
    destruct Hx as [Hex HX]. destruct Hy as [Hey HY]. cbn [fst].
    subst ex' ey'.
    replace (Z.min ex ez) with ez in HX by (unfold ez; lia).
    replace (Z.min ey ez) with ez in HY by (unfold ez; lia).
    set (n := (cond_Zopp sx (Zpos X) + cond_Zopp sy (Zpos Y))%Z).
    assert (Hsum : (if sx then - (IZR (Zpos mx) * bpow ex) else IZR (Zpos mx) * bpow ex) +
                   (if sy then - (IZR (Zpos my) * bpow ey) else IZR (Zpos my) * bpow ey)
                   = IZR n * bpow ez).
    { unfold n. rewrite plus_IZR, !cond_Zopp_IZR, <- HX, <- HY.
      destruct sx, sy; ring. }
    rewrite Hsum. pose proof (bpow_pos ez) as Hez.
    destruct (binary_normalize_spec n ez) as (r & Hr & Hrs).
    exists (n <? 0)%Z, r. repeat split.
    + rewrite Rabs_mult, (Rabs_pos_eq (bpow ez)) by lra. now rewrite <- abs_IZR.
    + exact Hrs.
    + intros Hneg. destruct (Z.ltb_spec n 0); [reflexivity|].
      assert (0 <= IZR n) by (apply (IZR_le 0); lia). nra.
    + intros Hpos. destruct (Z.ltb_spec n 0); [|reflexivity].
      assert (IZR n < 0) by (apply (IZR_lt _ 0); lia). nra.
Qed.

(** The value of a finite sum against an integer bound that is a float. *)
Lemma Fval_add_bounds x y X :
  Ffin x = true -> Ffin y = true -> Ffin (x + y)%float = true ->
  (0 <= X <= 2 ^ 53)%Z ->
  (Fval x + Fval y <= IZR X -> Fval (x + y)%float <= IZR X) /\
  (IZR X <= Fval x + Fval y -> IZR X <= Fval (x + y)%float).
Proof.
  intros Hx Hy Hz HX. rewrite !Fval_eq. unfold Ffin in *. rewrite add_spec in *.
  unfold SF64add in *.
  destruct (SFadd_spec _ _ Hx Hy (Prim2SF_valid x) (Prim2SF_valid y))
    as (s & r & Hr & Hrs & Hneg & Hpos).
  set (v := SFval (Prim2SF x) + SFval (Prim2SF y)) in *.
  apply rounds_inv in Hrs. destruct Hrs as (Hs & _ & [(_ & Hm & _)|[E _]]).
  2:{ rewrite E in Hz. discriminate. }
  unfold SFval. rewrite Hs, Hm.
  pose proof (RND_nonneg _ _ Hr) as Hr0.
  pose proof (RND_int X HX) as HXr.
  assert (HX0 : 0 <= IZR X) by (apply (IZR_le 0); lia).
  split; intros Hv.
  - destruct (Rlt_le_dec v 0) as [Hlt|Hge].
    + rewrite (Hneg Hlt). lra.
    + assert (r <= IZR X).
      { eapply RND_monotone; [exact Hr | exact HXr |]. rewrite Rabs_pos_eq; lra. }
      destruct s; lra.
  - assert (Hle : IZR X <= r).
    { eapply RND_monotone; [exact HXr | exact Hr |]. rewrite Rabs_pos_eq; lra. }
    destruct (Req_dec v 0) as [Hz0|Hnz].
    + assert (r = 0).
      { rewrite Hz0, Rabs_R0 in Hr. eapply RND_fun; [exact Hr|]. left. split; reflexivity. }
      destruct s; lra.
    + rewrite (Hpos ltac:(lra)). exact Hle.
Qed.

Lemma shiftl_floor m e :
  IZR (Z.shiftl (Zpos m) e) <= IZR (Zpos m) * bpow e < IZR (Z.shiftl (Zpos m) e) + 1.
Proof.
  destruct (Z.le_gt_cases 0 e) as [He|He].
  - rewrite Z.shiftl_mul_pow2 by lia. rewrite mult_IZR, <- bpow_IZR by lia. lra.
  - rewrite Z.shiftl_div_pow2 by lia.
    set (d := (2 ^ (- e))%Z).
    assert (Hd : (0 < d)%Z) by (apply Z.pow_pos_nonneg; lia).
    pose proof (Z.div_mod (Zpos m) d ltac:(lia)) as Hdm.
    pose proof (Z.mod_pos_bound (Zpos m) d Hd) as Hmod.
    set (q := (Zpos m / d)%Z) in *. set (t := (Zpos m mod d)%Z) in *.
    assert (Hbd : bpow e * IZR d = 1).
    { unfold d. rewrite <- bpow_IZR by lia. rewrite <- bpow_add.
      replace (e + - e)%Z with 0%Z by lia. reflexivity. }
    pose proof (bpow_pos e) as Hpe.
    assert (Hm : IZR (Zpos m) = IZR d * IZR q + IZR t).
    { rewrite <- mult_IZR, <- plus_IZR. now f_equal. }
    assert (Ht0 : 0 <= IZR t) by (apply (IZR_le 0); lia).
    assert (Htd : IZR t < IZR d) by (apply IZR_lt; lia).
    assert (Hd0 : 0 < IZR d) by (apply (IZR_lt 0); lia).
    rewrite Hm.
    replace ((IZR d * IZR q + IZR t) * bpow e)
      with (IZR q * (bpow e * IZR d) + IZR t * bpow e) by ring.
    rewrite Hbd, Rmult_1_r.
    assert (0 <= IZR t * bpow e) by nra.
    assert (IZR t * bpow e < 1).
    { rewrite <- Hbd. rewrite (Rmult_comm (bpow e)). apply Rmult_lt_compat_r; lra. }
    lra.
Qed.

(** [int(f)] of a finite float against an integer bound. *)
Lemma int_of_float_bounds f c X :
  Py.int_of_float f = Some c -> (0 <= X)%Z ->
  Ffin f = true /\
  (Fval f <= IZR X -> (c <= X)%Z) /\ (IZR X <= Fval f -> (X <= c)%Z).
Proof.
  unfold Py.int_of_float, Ffin. rewrite Fval_eq. unfold SFval.
  intros H HX. assert (HX0 : 0 <= IZR X) by (apply (IZR_le 0); lia).
  destruct (Prim2SF f) as [s|s| |s m e]; try discriminate;
    inversion H; subst; clear H; cbn [SFsign SFmag SFfin].
  - repeat split; intros Hv; destruct s; rewrite ?Ropp_0 in Hv;
      try (apply le_IZR; lra); lia.
  - pose proof (shiftl_floor m e) as [Hlo Hhi].
    set (a := Z.shiftl (Zpos m) e) in *.
    assert (Ha : (0 <= a)%Z) by (unfold a; apply Z.shiftl_nonneg; lia).
    assert (Ha0 : 0 <= IZR a) by (apply (IZR_le 0); lia).
    repeat split; intros Hv; destruct s; cbn [cond_Zopp].
    + lia.
    + apply le_IZR. lra.
    + exfalso.
      assert (0 < IZR (Zpos m) * bpow e).
      { pose proof (bpow_pos e). assert (0 < IZR (Zpos m)) by (apply IZR_lt; lia). nra. }
      lra.
    + assert (IZR X < IZR a + 1) by lra.
      rewrite <- (plus_IZR a 1) in H. apply lt_IZR in H. lia.
Qed.

Lemma leb_zero_sign f :
  Ffin f = true ->
  ((f <=? 0)%float = true -> Fsign f = true \/ Fmag f = 0) /\
  ((0 <=? f)%float = true -> Fsign f = false \/ Fmag f = 0).
Proof.
  unfold Ffin, Fsign, Fmag. rewrite !leb_spec.
  change (Prim2SF 0) with (S754_zero false).
  destruct (Prim2SF f) as [s|s| |s m e]; try discriminate; intros _; cbn; split; auto;
    destruct s; auto; discriminate.
Qed.

(** A float whose product with a finite float and sum are finite is
    itself finite. *)
Lemma scaled_finite xf f :
  Ffin xf = true -> Ffin (xf + xf * f)%float = true ->
  Ffin f = true /\ Ffin (xf * f)%float = true.
Proof.
  unfold Ffin. rewrite add_spec, mul_spec. unfold SF64add, SF64mul.
  destruct (Prim2SF xf) as [sx|sx| |sx mx ex]; try discriminate; intros _;
    destruct (Prim2SF f) as [sf|sf| |sf mf ef]; cbn [SFmul]; try discriminate;
    try (intros _; split; reflexivity).
  set (p := binary_round_aux _ _ _ _ _ _).
  destruct p as [sp|sp| |sp mp ep]; cbn; try discriminate; auto.
Qed.

Lemma scaled_direction x f c :
  (0 <= x <= 2 ^ 53)%Z -> Cgroup.scaled x f = Some c ->
  ((f <=? 0)%float = true -> (c <= x)%Z) /\
  ((0 <=? f)%float = true -> (x <= c)%Z).
Proof.
  intros Hx. unfold Cgroup.scaled, Py.int_mul_float, Py.int_add_float.
  destruct (Py.float_of_int x) as [xf|] eqn:Ex; [|discriminate]. cbn [option_map].
  intros Hc. apply float_of_int_spec in Ex. destruct Ex as (Hfx & Hsx & Hrx).
  destruct (Z.ltb_spec x 0) as [|_]; [lia|].
  rewrite Z.abs_eq in Hrx by lia.
  pose proof (RND_fun _ _ _ Hrx (RND_int x Hx)) as Hmx.
  assert (Hvx : Fval xf = IZR x) by (unfold Fval; now rewrite Hsx).
  destruct (int_of_float_bounds _ _ x Hc ltac:(lia)) as (Hfs & Hup & Hdn).
  destruct (scaled_finite xf f Hfx Hfs) as [Hff Hfp].
  destruct (Fval_add_bounds xf (xf * f)%float x Hfx Hfp Hfs Hx) as [Hle Hge].
  rewrite Hvx in Hle, Hge.
  destruct (mul_spec_fin xf f Hfx Hff) as (r & Hr & [[(_ & Hsp & Hrp) _]|[Hinf _]]).
  2:{ unfold Ffin in Hfp. rewrite Hinf in Hfp. discriminate. }
  rewrite Hsx in Hsp. cbn [xorb] in Hsp.
  pose proof (RND_nonneg _ _ Hrp) as Hp0.
  assert (Hzero : Fmag f = 0 -> Fmag (xf * f)%float = 0).
  { intros E. rewrite E, Rmult_0_r in Hrp.
    eapply RND_fun; [exact Hrp|]. left. split; reflexivity. }
  destruct (leb_zero_sign f Hff) as [Hneg Hpos].
  split; intros Hf.
  - apply Hup, Hle.
    assert (Fval (xf * f)%float <= 0).
    { unfold Fval. rewrite Hsp. destruct (Hneg Hf) as [->|E]; [lra|].
      rewrite (Hzero E). destruct (Fsign f); lra. }
    lra.
  - apply Hdn, Hge.
    assert (0 <= Fval (xf * f)%float).
    { unfold Fval. rewrite Hsp. destruct (Hpos Hf) as [->|E]; [lra|].
      rewrite (Hzero E). destruct (Fsign f); lra. }
    lra.
Qed.

End Direction.

(** X14: [scale_limit] moves the limit the way the factor points.  When
    the limit read back is the one stored (nobody else changed it), it
    went through [import_limit] and it is between 0 and [2^53], a factor
    [<= 0] never raises the stored limit and a factor [>= 0] never lowers
    it (so a zero factor keeps it), whatever the rounding of
    [int(x + x * factor)], the clamping and the alignment do. *)
Theorem X14_scale_limit_direction self factor w l self' w' :
  Cgroup.limit self = Some l ->
  Cgroup.sanitize self l = l ->
  Cgroup.read_limit self w = Some (l, w) ->
  0 <= l <= 2 ^ 53 ->
  Cgroup.scale_limit self factor w = Some (self', w') ->
  exists l',
    Cgroup.limit self' = Some l' /\
    ((factor <=? 0)%float = true -> l' <= l) /\
    ((0 <=? factor)%float = true -> l <= l').
Proof.
  intros Hl Hfix Hr Hb. rewrite scale_limit_eq, Hr.
  destruct (Cgroup.scaled l factor) as [c|] eqn:Ec; [|discriminate].
  rewrite set_limit_eq, Hr.
  assert (Hd : diverged self l = false) by now apply diverged_spec.
  rewrite Hd. intros H; inversion H; subst; clear H.
  exists (Cgroup.sanitize self c). split; [reflexivity|].
  destruct (scaled_direction l factor c Hb Ec) as [Hle Hge].
  split; intros Hf; rewrite <- Hfix at 1 + rewrite <- Hfix; apply sanitize_mono; auto.
Qed.

Lemma X14_witness :
  let self := Cgroup.mk "/cg" (Some 409600000) (Z.shiftl 100 20) (Z.shiftl 100 30) in
  let w := mkWorld (cgroup_dir "/cg" "1234" "409600000" "409600000") [] in
  exists self' w' l',
    Cgroup.scale_limit self (-0x1.47ae147ae147bp-7)%float w = Some (self', w') /\
    Cgroup.limit self' = Some l' /\ l' <= 409600000.
Proof.
  intros self w.
  destruct (Cgroup.scale_limit self (-0x1.47ae147ae147bp-7)%float w) as [[self' w']|] eqn:E;
    [|vm_compute in E; discriminate].
  assert (Hfix : Cgroup.sanitize self 409600000 = 409600000) by (vm_compute; reflexivity).
  assert (Hr : Cgroup.read_limit self w = Some (409600000, w)) by (vm_compute; reflexivity).
  assert (Hb : 0 <= 409600000 <= 2 ^ 53)
    by (split; intros H; vm_compute in H; discriminate H).
  destruct (X14_scale_limit_direction self (-0x1.47ae147ae147bp-7)%float w 409600000
              self' w' eq_refl Hfix Hr Hb E) as (l' & Hl' & Hle & _).
  exists self', w', l'. split; [reflexivity|]. split; [exact Hl'|].
  apply Hle. vm_compute. reflexivity.
Defined.


(** The sign of the two factors. *)
Lemma factor_signs {L : Py.Libm} {A : AccuratePow L} num den coeff step adj :
  step_ok step -> adjustment num den coeff step = Some adj ->
  (0 <=? adj)%float = true /\ (- adj <=? 0)%float = true.
Proof.
  intros Hstep H.
  destruct (adjustment_spec _ _ _ _ _ Hstep H)
    as (_ & _ & err & cf & q & a & r & _ & _ & _ & _ & _ & _ & Hf & Hn & _).
  rewrite !leb_spec, opp_spec. change (Prim2SF 0) with (S754_zero false).
  unfold Ffin, Fnonneg in *.
  destruct (Prim2SF adj) as [s|s| |[] m e]; try discriminate; split; reflexivity.
Qed.

(** X15: a tick moves the limit the way it decided.  For a controller
    built from a configuration whose two steps are finite and
    non-negative (a square being non-negative, as an accurate [pow] has
    it), whose limit is the one read back and lies between 0 and
    [2^53]: a tick whose integral exceeds the target never lowers the
    limit, a tick whose integral does not exceed it never raises the
    limit, and a tick that makes no adjustment keeps it. *)
Theorem X15_tick_limit_direction {L : Py.Libm} {A : AccuratePow L} c s w s' w' l :
  controller_of c s ->
  step_ok (max_backoff c) -> step_ok (max_probe c) ->
  Cgroup.limit (Senpai.cgroup s) = Some l -> 0 <= l <= 2 ^ 53 ->
  Cgroup.read_limit (Senpai.cgroup s) w = Some (l, w) ->
  Senpai.tick s w = Some (s', w') ->
  exists l' i,
    Cgroup.limit (Senpai.cgroup s') = Some l' /\
    integrals (emitted w w') = [i] /\
    (pressure c < i -> l <= l') /\
    (i <= pressure c -> l' <= l) /\
    (adjustments (emitted w w') = [] -> l' = l).
Proof.
  intros Hco Hsb Hsp Hl Hb Hr H.
  assert (Hfix : Cgroup.sanitize (Senpai.cgroup s) l = l).
  { destruct Hco as (_ & _ & _ & _ & x & Hx). rewrite Hl in Hx. inversion Hx.
    now rewrite sanitize_idem. }
  assert (Hconf : Senpai.conf s = c) by apply Hco.
  pose proof (tick_books _ _ _ _ H) as (total & Ht & _ & _ & Hint & _).
  revert H. rewrite tick_eq, Ht.
  destruct (Senpai.shown_limit _ w) as [[lim w2]|]; [|discriminate].
  destruct (Cgroup.pressure _ w) as [[p w3]|]; [|discriminate].
  cbv zeta. rewrite Hconf.
  set (s0 := Senpai.with_integral _ _).
  set (i := Senpai.integral s0).
  set (w0 := logged w _).
  assert (Hint' : integrals (emitted w w') = [i]) by exact Hint.
  assert (Hadj : forall f s1 w4,
    Senpai.adjust s0 f w0 = Some (s1, w4) ->
    exists l', Cgroup.limit (Senpai.cgroup s1) = Some l' /\
      ((f <=? 0)%float = true -> l' <= l) /\ ((0 <=? f)%float = true -> l <= l') /\
      adjustments (emitted w w4) <> []).
  { intros f s1 w4 E. rewrite adjust_eq in E.
    destruct (Cgroup.scale_limit _ _ _) as [[cg w5]|] eqn:Es; [|discriminate].
    inversion E; subst; clear E.
    assert (Hr' : Cgroup.read_limit (Senpai.cgroup s) (logged w0 [LogAdjust f]) =
                  Some (l, logged w0 [LogAdjust f])).
    { unfold w0. rewrite logged_logged.
      exact (reader_logged _ w l _ (reader_read_limit _) Hr). }
    change (Senpai.cgroup s0) with (Senpai.cgroup s) in Es.
    rewrite scale_limit_eq, Hr' in Es.
    destruct (Cgroup.scaled l f) as [x|] eqn:Ex; [|discriminate].
    rewrite set_limit_eq, Hr' in Es.
    assert (Hd : diverged (Senpai.cgroup s) l = false) by now apply diverged_spec.
    rewrite Hd in Es.
    inversion Es; subst; clear Es.
    destruct (scaled_direction l f x Hb Ex) as [Hle Hge].
    exists (Cgroup.sanitize (Senpai.cgroup s) x). split; [reflexivity|].
    split; [|split].
    - intros Hf. rewrite <- Hfix. apply sanitize_mono. auto.
    - intros Hf. rewrite <- Hfix at 1. apply sanitize_mono. auto.
    - unfold written, w0, logged. cbn [stdout files].
      rewrite <- !app_assoc, emitted_app. cbn. discriminate. }
  destruct (Z.ltb_spec (pressure c) i) as [Hlt|Hle].
  - destruct (Senpai.backoff_adj _ _) as [adj|] eqn:Ea; [|discriminate].
    destruct (Senpai.adjust _ _ _) as [[s1 w4]|] eqn:E; [|discriminate].
    intros H; inversion H; subst; clear H.
    destruct (Hadj _ _ _ E) as (l' & Hl' & _ & Hge & Hne).
    rewrite backoff_adj_eq in Ea. destruct (factor_signs _ _ _ _ _ Hsb Ea) as [Hpos _].
    exists l', i. split; [exact Hl'|]. split; [exact Hint'|].
    split; [intros _; now apply Hge|]. split; [intros; lia|].
    intros Hno. now apply Hne in Hno.
  - destruct (negb _).
    + intros H; inversion H; subst; clear H.
      exists l, i. split; [exact Hl|]. split; [exact Hint'|].
      split; [intros; lia|]. split; [intros; lia|]. reflexivity.
    + destruct (Senpai.probe_adj _ _) as [adj|] eqn:Ea; [|discriminate].
      destruct (Senpai.adjust _ _ _) as [[s1 w4]|] eqn:E; [|discriminate].
      intros H; inversion H; subst; clear H.
      destruct (Hadj _ _ _ E) as (l' & Hl' & Hle' & _ & Hne).
      rewrite probe_adj_eq in Ea. destruct (factor_signs _ _ _ _ _ Hsp Ea) as [_ Hneg].
      exists l', i. split; [exact Hl'|]. split; [exact Hint'|].
      split; [intros; lia|]. split; [intros _; now apply Hle'|].
      intros Hno. now apply Hne in Hno.
Qed.

Lemma X15_witness :
  let c := default_conf "/cg" in
  let s := Senpai.mk c
             (Cgroup.mk "/cg" (Some 409600000) (Z.shiftl 100 20) (Z.shiftl 100 30))
             1234 0 0 in
  let w := mkWorld (cgroup_dir "/cg" "1234" "409600000" "409600000") [] in
  exists s' w' l',
    Senpai.tick s w = Some (s', w') /\
    Cgroup.limit (Senpai.cgroup s') = Some l' /\ l' <= 409600000.
Proof.
  intros c s w.
  destruct (Senpai.tick s w) as [[s' w']|] eqn:E; [|vm_compute in E; discriminate].
  assert (Hco : controller_of c s).
  { repeat split. now exists 409600000. }
  assert (Hb : 0 <= 409600000 <= 2 ^ 53)
    by (split; intros H; vm_compute in H; discriminate H).
  assert (Hr : Cgroup.read_limit (Senpai.cgroup s) w = Some (409600000, w))
    by (vm_compute; reflexivity).
  destruct (X15_tick_limit_direction c s w s' w' 409600000 Hco
              (conj eq_refl eq_refl) (conj eq_refl eq_refl) eq_refl Hb Hr E)
    as (l' & i & Hl' & Hi & _ & Hle & _).
  exists s', w', l'. split; [reflexivity|]. split; [exact Hl'|].
  apply Hle. vm_compute in E. inversion E; subst. vm_compute in Hi.
  inversion Hi; subst. cbn. lia.
Defined.


(** ** The pressure file *)

Lemma all_chars_impl (p q : ascii -> bool) s :
  (forall c, p c = true -> q c = true) -> all_chars p s = true -> all_chars q s = true.
Proof.
  intros Hpq. induction s as [|c s IH]; [reflexivity|]. cbn.
  intros H. apply andb_true_iff in H. destruct H as [Hc Hs].
  now rewrite (Hpq _ Hc), IH.
Qed.

Lemma psi_token_no_space s :
  psi_token s = true -> all_chars (fun c => negb (Py.is_space c)) s = true.
Proof.
  apply all_chars_impl. intros c H. now apply andb_true_iff in H.
Qed.

Lemma psi_token_no_eq s :
  psi_token s = true -> all_chars (fun c => negb (Ascii.eqb c "="%char)) s = true.
Proof.
  apply all_chars_impl. intros c H. now apply andb_true_iff in H.
Qed.

Lemma string_of_list_ascii_app l1 l2 :
  string_of_list_ascii (l1 ++ l2) = string_of_list_ascii l1 ++ string_of_list_ascii l2.
Proof. induction l1 as [|c l1 IH]; [reflexivity|]. cbn. now rewrite IH. Qed.

Lemma string_of_rev_chars s l :
  string_of_list_ascii (rev (rev (list_ascii_of_string s) ++ l)%list) =
  string_of_list_ascii (rev l) ++ s.
Proof.
  rewrite rev_app_distr, rev_involutive, string_of_list_ascii_app.
  now rewrite string_of_list_ascii_of_string.
Qed.

(** Reading a token, then the blank that ends it. *)
Lemma split_ws_aux_token t : forall s cur,
  all_chars (fun c => negb (Py.is_space c)) t = true ->
  Py.split_ws_aux (t ++ s) cur =
  Py.split_ws_aux s (rev (list_ascii_of_string t) ++ cur)%list.
Proof.
  induction t as [|c t IH]; intros s cur H; [reflexivity|].
  cbn in H. apply andb_true_iff in H. destruct H as [Hc Ht].
  cbn [append Py.split_ws_aux]. apply negb_true_iff in Hc. rewrite Hc.
  rewrite IH by assumption. cbn [list_ascii_of_string rev].
  now rewrite <- app_assoc.
Qed.

Lemma split_ws_word t sp s :
  all_chars (fun c => negb (Py.is_space c)) t = true -> t <> "" ->
  Py.is_space sp = true ->
  Py.split_ws_aux (t ++ String sp s) [] = t :: Py.split_ws_aux s [].
Proof.
  intros Ht Hne Hsp. rewrite split_ws_aux_token by assumption.
  cbn [Py.split_ws_aux]. rewrite Hsp, app_nil_r.
  destruct (rev (list_ascii_of_string t)) as [|c l] eqn:E.
  - exfalso. apply Hne. destruct t; [reflexivity|].
    cbn in E. apply app_eq_nil in E. destruct E. discriminate.
  - rewrite <- E, rev_involutive. now rewrite string_of_list_ascii_of_string.
Qed.

Lemma all_chars_app p s1 s2 :
  all_chars p (s1 ++ s2) = all_chars p s1 && all_chars p s2.
Proof. induction s1 as [|c s1 IH]; [reflexivity|]. cbn. now rewrite IH, andb_assoc. Qed.

Lemma split_on_aux_none sep s : forall cur,
  all_chars (fun c => negb (Ascii.eqb c sep)) s = true ->
  Py.split_on_aux sep s cur = [string_of_list_ascii (rev cur) ++ s].
Proof.
  induction s as [|c s IH]; intros cur H.
  - cbn. f_equal. clear. induction (string_of_list_ascii (rev cur)); cbn; congruence.
  - cbn in H. apply andb_true_iff in H. destruct H as [Hc Hs].
    cbn [Py.split_on_aux]. apply negb_true_iff in Hc. rewrite Hc.
    rewrite IH by assumption. cbn [rev]. rewrite string_of_list_ascii_app. cbn.
    f_equal. clear. induction (string_of_list_ascii (rev cur)); cbn; congruence.
Qed.

Lemma readlines_aux_line s1 : forall rest cur,
  all_chars (fun c => negb (Ascii.eqb c "010"%char)) s1 = true ->
  Py.readlines_aux (s1 ++ String "010"%char rest) cur =
  (string_of_list_ascii (rev cur) ++ s1 ++ newline) :: Py.readlines_aux rest [].
Proof.
  induction s1 as [|c s1 IH]; intros rest cur H.
  - cbn [append Py.readlines_aux]. cbn [Ascii.eqb Bool.eqb]. cbn [rev].
    now rewrite string_of_list_ascii_app.
  - cbn in H. apply andb_true_iff in H. destruct H as [Hc Hs].
    cbn [append Py.readlines_aux]. apply negb_true_iff in Hc. rewrite Hc.
    rewrite IH by assumption. cbn [rev]. rewrite string_of_list_ascii_app. cbn.
    f_equal. clear. induction (string_of_list_ascii (rev cur)); cbn; congruence.
Qed.

Lemma no_space_no_newline s :
  all_chars (fun c => negb (Py.is_space c)) s = true ->
  all_chars (fun c => negb (Ascii.eqb c "010"%char)) s = true.
Proof.
  apply all_chars_impl. intros c H.
  destruct (Ascii.eqb_spec c "010"%char) as [->|]; [discriminate|reflexivity].
Qed.

Lemma append_assoc_s (a b c : string) : (a ++ b) ++ c = a ++ b ++ c.
Proof. induction a as [|x a IH]; [reflexivity|]. cbn. now rewrite IH. Qed.

(** The two fields the program reads from the first line. *)
Lemma field_psi_line self w a b c t rest :
  psi_token a = true -> psi_token b = true -> psi_token c = true ->
  psi_token t = true ->
  files w (path_join (Cgroup.path self) "memory.pressure") =
    Some (psi_line a b c t ++ newline ++ rest) ->
  Cgroup.field self 1 w = Some (a, w) /\ Cgroup.field self 4 w = Some (t, w).
Proof.
  intros Ha Hb Hc Ht Hfile.
  pose proof (psi_token_no_space _ Ha) as Hsa. pose proof (psi_token_no_space _ Hb) as Hsb.
  pose proof (psi_token_no_space _ Hc) as Hsc. pose proof (psi_token_no_space _ Ht) as Hst.
  assert (Hline : all_chars (fun c => negb (Ascii.eqb c "010"%char)) (psi_line a b c t) = true).
  { unfold psi_line. rewrite !all_chars_app.
    rewrite (no_space_no_newline _ Hsa), (no_space_no_newline _ Hsb),
            (no_space_no_newline _ Hsc), (no_space_no_newline _ Hst). reflexivity. }
  assert (Hlines : Py.index (Py.splitlines_keep (psi_line a b c t ++ newline ++ rest)) 0 =
                   Some (psi_line a b c t ++ newline)).
  { unfold Py.splitlines_keep.
    change (newline ++ rest) with (String "010"%char rest).
    now rewrite readlines_aux_line. }
  assert (Hws : Py.split_ws (psi_line a b c t ++ newline) =
                ["some"; "avg10=" ++ a; "avg60=" ++ b; "avg300=" ++ c; "total=" ++ t]).
  { unfold Py.split_ws, psi_line.
    rewrite !append_assoc_s.
    change ("some avg10=" ++ a ++ " avg60=" ++ b ++ " avg300=" ++ c ++ " total=" ++ t ++ newline)
      with ("some" ++ String " "%char
              (("avg10=" ++ a) ++ String " "%char
                 (("avg60=" ++ b) ++ String " "%char
                    (("avg300=" ++ c) ++ String " "%char
                       (("total=" ++ t) ++ String "010"%char ""))))).
    rewrite !split_ws_word; try reflexivity; try discriminate;
      rewrite all_chars_app; cbn [all_chars]; now rewrite ?Hsa, ?Hsb, ?Hsc, ?Hst. }
  unfold Cgroup.field, Cgroup.readlines, bind, Cgroup.read.
  rewrite Hfile. cbn [ret lift]. rewrite Hlines. cbn [lift ret]. rewrite Hws.
  cbn [Py.index nth_error lift ret].
  unfold Py.split_on.
  split.
  - change ("avg10=" ++ a) with (String "a" (String "v" (String "g" (String "1" (String "0" (String "=" a)))))).
    cbn [Py.split_on_aux Ascii.eqb Bool.eqb].
    rewrite split_on_aux_none by now apply psi_token_no_eq. reflexivity.
  - change ("total=" ++ t) with (String "t" (String "o" (String "t" (String "a" (String "l" (String "=" t)))))).
    cbn [Py.split_on_aux Ascii.eqb Bool.eqb].
    rewrite split_on_aux_none by now apply psi_token_no_eq. reflexivity.
Qed.

(** X16: what [pressure] and [total] read.  When [memory.pressure]
    starts with a line [some avg10=a avg60=b avg300=c total=t] whose four
    fields hold no blank and no [=], [pressure()] is [float(a)] and
    [total()] is [int(t)], raising when the conversion does; the
    averages over 60 and 300 seconds, the [full] line and everything after
    the first line are never looked at. *)
Theorem X16_pressure_file_first_line self w a b c t rest :
  psi_token a = true -> psi_token b = true -> psi_token c = true ->
  psi_token t = true ->
  files w (path_join (Cgroup.path self) "memory.pressure") =
    Some (psi_line a b c t ++ newline ++ rest) ->
  Cgroup.pressure self w = lift (Py.float_of_str a) w /\
  Cgroup.total self w = lift (Py.int_of_str t) w.
Proof.
  intros Ha Hb Hc Ht Hfile.
  destruct (field_psi_line self w a b c t rest Ha Hb Hc Ht Hfile) as [H1 H4].
  unfold Cgroup.pressure, Cgroup.total, bind. now rewrite H1, H4.
Qed.

Lemma X16_witness :
  let self := Cgroup.mk "/cg" None 4096 1048576 in
  let w := mkWorld (cgroup_dir "/cg" "1234" "1000" "max") [] in
  Cgroup.pressure self w = lift (Py.float_of_str "0.00") w /\
  Cgroup.total self w = lift (Py.int_of_str "1234") w.
Proof.
  intros self w.
  apply (X16_pressure_file_first_line self w "0.00" "0.00" "0.00" "1234"
           ("full avg10=0.00 avg60=0.00 avg300=0.00 total=0" ++ newline));
    reflexivity.
Defined.

(** ** A quiet cgroup: one tightening per interval *)

Lemma repeat_snoc {A} (x : A) n : repeat x (S n) = (repeat x n ++ [x])%list.
Proof. induction n as [|n IH]; [reflexivity|]. cbn [repeat app] in *. now rewrite <- IH. Qed.

Lemma total_path self self' w :
  Cgroup.path self = Cgroup.path self' -> Cgroup.total self w = Cgroup.total self' w.
Proof.
  destruct self, self'. cbn. intros ->. reflexivity.
Qed.

Lemma tick_same_dir {L : Py.Libm} s w s' w' :
  Senpai.tick s w = Some (s', w') ->
  Cgroup.path (Senpai.cgroup s') = Cgroup.path (Senpai.cgroup s).
Proof.
  rewrite tick_eq.
  destruct (Cgroup.total _ w) as [[total w1]|]; [|discriminate].
  destruct (Senpai.shown_limit _ w) as [[lim w2]|]; [|discriminate].
  destruct (Cgroup.pressure _ w) as [[p w3]|]; [|discriminate].
  cbv zeta.
  destruct (_ <? _).
  - destruct (Senpai.backoff_adj _ _) as [adj|]; [|discriminate].
    destruct (Senpai.adjust _ _ _) as [[s1 w4]|] eqn:E; [|discriminate].
    intros H; inversion H; subst. apply adjust_inv in E.
    destruct E as (x & evs & -> & _). reflexivity.
  - destruct (negb _).
    + intros H; inversion H; subst. reflexivity.
    + destruct (Senpai.probe_adj _ _) as [adj|]; [|discriminate].
      destruct (Senpai.adjust _ _ _) as [[s1 w4]|] eqn:E; [|discriminate].
      intros H; inversion H; subst. apply adjust_inv in E.
      destruct E as (x & evs & -> & _). reflexivity.
Qed.

(** A tick leaves the stall total as readable as it found it. *)
Lemma tick_total {L : Py.Libm} s w s' w' total :
  Senpai.tick s w = Some (s', w') ->
  Cgroup.total (Senpai.cgroup s) w = Some (total, w) ->
  Cgroup.total (Senpai.cgroup s') w' = Some (total, w').
Proof.
  intros E Ht.
  rewrite (total_path _ (Senpai.cgroup s) w' (tick_same_dir _ _ _ _ E)).
  assert (Hag : agree (Cgroup.total (Senpai.cgroup s)) w w').
  { apply agree_total. apply (proj1 (tick_files s w s' w' E)).
    intros H. apply path_join_inj in H. discriminate. }
  unfold agree in Hag. now rewrite Ht in Hag.
Qed.

(** X17: in a quiet cgroup the controller tightens once per interval.
    For an interval of at least 1 and a target that is not negative, take
    a controller at the start of a grace window (integral 0, counter
    [interval - 1]) and a cgroup whose stall total stays what it last
    read.  Over the next [interval] ticks, if none raises, it prints an
    integral of 0 every time and makes exactly one adjustment, the
    tightening one for an integral of 0, and it ends at the start of a
    grace window again: so the same holds of every following interval. *)
Theorem X17_quiet_period {L : Py.Libm} c s w s' w' :
  1 <= interval c -> 0 <= pressure c ->
  settled c s w ->
  Senpai.run s (repeat quiet (Z.to_nat (interval c))) w = Some (s', w') ->
  settled c s' w' /\
  exists adj,
    Senpai.probe_adj c 0 = Some adj /\
    adjustments (emitted w w') = [(- adj)%float] /\
    integrals (emitted w w') = repeat 0 (Z.to_nat (interval c)).
Proof.
  intros Hint Hp (Hc & Hi & Hg & Ht) H.
  set (n := Z.to_nat (interval c - 1)).
  assert (En : Z.to_nat (interval c) = S n) by (unfold n; lia).
  rewrite En. rewrite En, repeat_snoc, run_app in H.
  destruct (Senpai.run s (repeat quiet n) w) as [[s1 w1]|] eqn:E1; [|discriminate].
  apply run_quiet in E1; auto; [|rewrite Hc; lia|unfold n; lia].
  destruct E1 as (Hs1 & evs & Hw1 & Hints & Hadjs).
  rewrite run_cons in H.
  destruct (Senpai.tick s1 _) as [[s2 w2]|] eqn:E2; [|discriminate].
  inversion H; subst s2 w2; clear H.
  assert (Ew : mkWorld (quiet (files w1)) (stdout w1) = w1) by now destruct w1.
  rewrite Ew in E2.
  assert (Ht1 : Cgroup.total (Senpai.cgroup s1) w1 = Some (Senpai.last_total s1, w1)).
  { rewrite Hs1, Hw1. cbn [Senpai.cgroup Senpai.with_grace_ticks Senpai.last_total].
    now apply reader_logged; [apply reader_total|]. }
  pose proof (tick_total _ _ _ _ _ E2 Ht1) as Ht'.
  pose proof (tick_inv _ _ _ _ E2) as (lim & p & total & evs2 & Ht2 & Hout & Hc2 & Hl2 & Hcase).
  cbv zeta in *. rewrite Ht1 in Ht2. inversion Ht2 as [Etot]. clear Ht2.
  rewrite <- Etot in *.
  assert (Hi1 : Senpai.integral s1 = 0) by (rewrite Hs1; exact Hi).
  assert (Hg1 : Senpai.grace_ticks s1 = 0).
  { rewrite Hs1. cbn [Senpai.grace_ticks Senpai.with_grace_ticks]. unfold n. lia. }
  assert (Hc1 : Senpai.conf s1 = c) by (rewrite Hs1; exact Hc).
  rewrite Hi1, Z.sub_diag, Z.add_0_l, Hc1 in *.
  destruct Hcase as [adj evs0 Hlt|_ Hnz|adj evs0 _ _ Hadj Ha0 Hi0 Hi' Hg'];
    rewrite ?Hc1 in *; [lia|contradiction|].
  split.
  - repeat split; congruence.
  - exists adj. split; [exact Hadj|].
    assert (Hem : emitted w w' =
              (evs ++ LogTick lim p 0 (Senpai.last_total s1) 0 0 ::
                      LogAdjust (- adj)%float :: evs0)%list).
    { apply emitted_ext. rewrite Hout, Hw1. unfold logged. cbn [stdout].
      rewrite Hg1. now rewrite <- app_assoc. }
    rewrite Hem, adjustments_app, integrals_app, Hadjs, Hints.
    cbn [adjustments integrals app]. rewrite Ha0, Hi0.
    split; [reflexivity|]. now rewrite repeat_snoc.
Qed.

Lemma X17_witness :
  let c := default_conf "/cg" in
  let s := Senpai.mk c
             (Cgroup.mk "/cg" (Some 409600000) (Z.shiftl 100 20) (Z.shiftl 100 30))
             1234 0 5 in
  let w := mkWorld (cgroup_dir "/cg" "1234" "409600000" "409600000") [] in
  exists s' w',
    Senpai.run s (repeat quiet 6) w = Some (s', w') /\
    settled c s' w' /\
    exists adj,
      Senpai.probe_adj c 0 = Some adj /\
      adjustments (emitted w w') = [(- adj)%float] /\
      integrals (emitted w w') = repeat 0 6.
Proof.
  intros c s w.
  destruct (Senpai.run s (repeat quiet 6) w) as [[s' w']|] eqn:E;
    [|vm_compute in E; discriminate].
  exists s', w'. split; [reflexivity|].
  apply (X17_quiet_period c s w s' w'); [cbn; lia | cbn; lia | | exact E].
  repeat split.
Defined.
